(** * Homevolt battery optimizer: a shallow embedding of [homevolt_optimizer.py]

    The dispatch solver of the repository is embedded function by function.
    Conventions of the embedding:

    - Python floats are modelled as exact rationals ([Q]); literals such as
      [50.0], [1.0] and [4.0] become [50], [1] and [4].  A comparison that
      the rounding of a float operation decides can come out differently
      here; the cheap-hour fill, whose re-run depends on it, is embedded a
      second time over binary64 numbers in the part on binary64.
    - A Python list is a [list]; [l[i]] is [getitem l i], which raises
      [IndexError] out of range.  A Python dict is a [gmap]; [d[k]] is
      [getkey d k], which raises [KeyError] on a missing key, and
      [d.get(k, 0)] is [dict_get d k].
    - The timeline is a list of slot records mutated in place by the source;
      here every phase takes the timeline and returns the updated one.
      An item reference held by the source while the timeline is mutated
      (the candidates of the cheap-hour fill) is modelled by its position.
    - Exceptions are the [Raise] results of the error monad [res].
    - The settings module [homevolt_optimizer_settings] is not part of the
      sources; its constants are the fields of the record [Settings], a
      parameter of every definition.
    - [print_flush] output is not modelled, nor are the functions that only
      print ([run_sanity_check], the tables of [generate_reports]).
      [run_optimizer] is modelled on the value [setup_timeline] returns;
      the functions that assemble that value are embedded in the part on
      the input assembly. *)

From Stdlib Require Import QArith Qminmax Lqa Lia String.
From stdpp Require Import base option list gmap strings sorting.

Local Open Scope Q_scope.

(** ** Numbers *)

(** Python's [a < b] on floats; [a > b] is [Qltb b a], [a <= b] is
    [Qle_bool a b] and [a >= b] is [Qle_bool b a]. *)
Definition Qltb (a b : Q) : bool := negb (Qle_bool b a).

(** Python's two-argument [min] and [max] return the first argument unless
    the second is strictly smaller (resp. larger). *)
Definition py_min (a b : Q) : Q := if Qltb b a then b else a.
Definition py_max (a b : Q) : Q := if Qltb a b then b else a.

(** Python's [sum]: left-to-right accumulation from [0]. *)
Definition py_sum (l : list Q) : Q := fold_left Qplus l 0.

(** ** Exceptions *)

Inductive exn : Type := IndexError | KeyError | ValueError | NameError.

Inductive res (A : Type) : Type :=
| Ok (a : A)
| Raise (e : exn).
Arguments Ok {A} a.
Arguments Raise {A} e.

#[global] Instance res_ret : MRet res := @Ok.
#[global] Instance res_bind : MBind res :=
  λ A B f m, match m with Ok a => f a | Raise e => Raise e end.

Definition getitem {A} (l : list A) (i : nat) : res A :=
  match l !! i with Some x => Ok x | None => Raise IndexError end.

Definition getkey {K} `{Countable K} {A} (d : gmap K A) (k : K) : res A :=
  match d !! k with Some x => Ok x | None => Raise KeyError end.

Definition dict_get {K} `{Countable K} (d : gmap K Q) (k : K) : Q :=
  match d !! k with Some x => x | None => 0 end.

(** Python's [max] of a list: [ValueError] on the empty list, else the first
    maximal element. *)
Definition py_max_list (l : list Q) : res Q :=
  match l with
  | [] => Raise ValueError
  | x :: l' => Ok (fold_left py_max l' x)
  end.

(** [l[i : j]]: slicing never raises. *)
Definition slice {A} (l : list A) (i j : nat) : list A := take (j - i) (drop i l).

(** [enumerate(l)] *)
Definition enumerate {A} (l : list A) : list (nat * A) := zip (seq 0 (length l)) l.

(** [list.sort(key=...)] is stable: insertion before the first element with
    a key at least as large, starting from the last element. *)
Fixpoint insert_by {A} (key : A → Q) (x : A) (l : list A) : list A :=
  match l with
  | [] => [x]
  | y :: l' => if Qle_bool (key x) (key y) then x :: y :: l' else y :: insert_by key x l'
  end.

Definition sort_by {A} (key : A → Q) (l : list A) : list A :=
  foldr (insert_by key) [] l.

(** [sorted(list(set(l)))] on strings. *)
Fixpoint insert_str (x : string) (l : list string) : list string :=
  match l with
  | [] => [x]
  | y :: l' => if String.leb x y then x :: y :: l' else y :: insert_str x l'
  end.

Definition sorted_set (l : list string) : list string :=
  foldr insert_str [] (remove_dups l).

(** ** Data model *)

(** One timeline entry, with the keys of the dict built by [setup_timeline]. *)
Record slot : Type := mkSlot {
  index : nat;
  time : string;
  hour : string;
  price : Q;
  cons_wh : Q;
  solar_wh : Q;
  grid_wh : Q;
  batt_wh : Q;
  base_net_load_wh : Q
}.

Definition set_grid_wh (g : Q) (x : slot) : slot :=
  mkSlot (index x) (time x) (hour x) (price x) (cons_wh x) (solar_wh x)
         g (batt_wh x) (base_net_load_wh x).

Definition set_batt_wh (b : Q) (x : slot) : slot :=
  mkSlot (index x) (time x) (hour x) (price x) (cons_wh x) (solar_wh x)
         (grid_wh x) b (base_net_load_wh x).

Abbreviation timeline := (list slot).

(** [timeline[i]["grid_wh"] = g]; [IndexError] out of range. *)
Definition store_grid (tl : timeline) (i : nat) (g : Q) : res timeline :=
  x ← getitem tl i; Ok (<[i := set_grid_wh g x]> tl).

(** The constants imported from the settings module that the solver reads. *)
Record Settings : Type := mkSettings {
  BATTERY_ENERGY_WH : Q;
  MAX_BATTERY_OUTPUT_PER_QUARTER_WH : Q;
  LOW_SOC_THROTTLE_WH : Q;
  LOW_SOC_MAX_OUTPUT_PER_QUARTER_WH : Q;
  ADDITIONAL_FEES_TAX_ORE : Q;
  ADDITIONAL_FEES_GRID_ORE : Q;
  BIAS_WH_PER_QUARTER : Q;
  MIN_BATTERY_BUFFER_WH : Q;
  TRY_KEEP_HOURS_BELOW_WH : option Q;
  PREVIOUS_MONTHLY_HOUR_PEAK_POWER_KW : Q;
  ENABLE_ARBITRAGE : bool;
  MIN_PRICE_DIFF_ORE_FOR_SELLING : Q;
  BATTERY_CYCLE_COST_ORE : Q
}.

(** A history entry appended by [save_snapshot]. *)
Record snapshot : Type := mkSnapshot {
  title : string;
  snap_timeline : timeline;
  battery_wh : Q;
  peak_limit : Q
}.

Section Optimizer.

Context (cfg : Settings).

Abbreviation CAP := (BATTERY_ENERGY_WH cfg).
Abbreviation MAXOUT := (MAX_BATTERY_OUTPUT_PER_QUARTER_WH cfg).
Abbreviation BIAS := (BIAS_WH_PER_QUARTER cfg).
Abbreviation RESERVE := (MIN_BATTERY_BUFFER_WH cfg).
Abbreviation THROTTLE := (LOW_SOC_THROTTLE_WH cfg).
Abbreviation LOWMAX := (LOW_SOC_MAX_OUTPUT_PER_QUARTER_WH cfg).
Abbreviation CYCLE := (BATTERY_CYCLE_COST_ORE cfg).

(** *** Derived constants *)

Definition TOTAL_ADDITIONAL_FEES : Q :=
  ADDITIONAL_FEES_TAX_ORE cfg + ADDITIONAL_FEES_GRID_ORE cfg.

Definition PREVIOUS_PEAK_WH : Q := PREVIOUS_MONTHLY_HOUR_PEAK_POWER_KW cfg * 1000.

(** *** Battery profile simulator *)

(** The loop of [calculate_battery_profile_from_list]; [i] is the
    [enumerate] counter and [profile] the list built so far. *)
Fixpoint profile_loop (tl : timeline) (curr : Q) (i : nat) (grid_cmds profile : list Q)
  : res (list Q) :=
  match grid_cmds with
  | [] => Ok profile
  | g :: rest =>
      item ← getitem tl i;
      let actual := g + BIAS in
      let change := actual - base_net_load_wh item in
      let curr := curr + change in
      let curr := if Qltb CAP curr then CAP else curr in
      profile_loop tl curr (S i) rest (profile ++ [curr])
  end.

Definition calculate_battery_profile_from_list
    (soc_start : Q) (grid_cmds : list Q) (tl : timeline) : res (list Q) :=
  profile_loop tl soc_start 0 grid_cmds [].

(** [[x["grid_wh"] for x in timeline]] followed by the simulator. *)
Definition current_profile (tl : timeline) (current_battery_wh : Q) : res (list Q) :=
  calculate_battery_profile_from_list current_battery_wh (map grid_wh tl) tl.

(** *** Peak-shaving limit search *)

(** The inner [for item in timeline] of [calculate_min_peak_limit], with
    its [break]. *)
Fixpoint rate_possible (mid : Q) (tl : timeline) : bool :=
  match tl with
  | [] => true
  | item :: rest =>
      let usable := mid - BIAS in
      let usable := if Qltb usable 0 then 0 else usable in
      let needed := base_net_load_wh item - usable in
      let needed := if Qltb needed 0 then 0 else needed in
      if Qltb MAXOUT needed then false else rate_possible mid rest
  end.

Fixpoint bisect (n : nat) (tl : timeline) (available_energy_wh low high best : Q) : Q :=
  match n with
  | O => best
  | S n' =>
      let mid := (low + high) / 2 in
      let possible := rate_possible mid tl in
      let total_needed :=
        py_sum (map (λ x, py_max 0 (base_net_load_wh x - (mid - BIAS))) tl) in
      if possible && Qle_bool total_needed available_energy_wh
      then bisect n' tl available_energy_wh low mid mid
      else bisect n' tl available_energy_wh mid high best
  end.

Definition calculate_min_peak_limit (tl : timeline) (available_energy_wh : Q) : Q :=
  bisect 20 tl available_energy_wh 0 10000 10000.

(** *** Hourly usage *)

Definition get_hourly_usage_map (tl : timeline) : gmap string Q :=
  fold_left
    (λ (u : gmap string Q) x,
       let h := hour x in
       let g := grid_wh x + BIAS in
       if Qltb 0 g then <[h := dict_get u h + g]> u else u)
    tl ∅.

(** [d[k] += v]: the key has to be present. *)
Definition dict_add (d : gmap string Q) (k : string) (v : Q) : res (gmap string Q) :=
  old ← getkey d k; Ok (<[k := old + v]> d).

(** [timeline[i]["grid_wh"] += v] *)
Definition add_grid (tl : timeline) (i : nat) (v : Q) : res timeline :=
  x ← getitem tl i; Ok (<[i := set_grid_wh (grid_wh x + v) x]> tl).

(** A [for] loop without [break] whose body may raise. *)
Fixpoint foldM {A S} (body : S → A → res S) (s : S) (l : list A) : res S :=
  match l with
  | [] => Ok s
  | x :: l' => s' ← body s x; foldM body s' l'
  end.

(** *** Safety fill *)

(** A candidate dict of [get_candidates]. *)
Record cand : Type := mkCand {
  c_index : nat;
  c_price : Q;
  c_headroom : Q;
  c_hour : string
}.

(** The body of the loop of [get_candidates]. *)
Definition candidate_step (tl : timeline) (hourly_usage : gmap string Q)
    (end_index : nat) (base_profile : list Q) (ignore_peak_limit : bool)
    (cands : list cand) (i : nat) : res (list cand) :=
  item ← getitem tl i;
  let rel := slice base_profile i (end_index + 1) in
  max_s ← match rel with [] => Ok CAP | _ => py_max_list rel end;
  let cap_h := CAP - max_s in
  if Qle_bool cap_h 1 then Ok cands
  else if negb ignore_peak_limit then
    let peak_h := PREVIOUS_PEAK_WH - dict_get hourly_usage (hour item) in
    if Qle_bool peak_h 1 then Ok cands
    else
      let act_h := py_min cap_h peak_h in
      Ok (cands ++ [mkCand i (price item) act_h (hour item)])
  else
    let act_h := py_min cap_h MAXOUT in
    Ok (cands ++ [mkCand i (price item) act_h (hour item)]).

Definition get_candidates (tl : timeline) (hourly_usage : gmap string Q)
    (end_index : nat) (current_battery_wh : Q) (ignore_peak_limit : bool)
  : res (list cand) :=
  base_profile ← current_profile tl current_battery_wh;
  foldM (candidate_step tl hourly_usage end_index base_profile ignore_peak_limit)
        [] (seq 0 (end_index + 1)).

(** Pass 1 of [distribute_smart_safety_fill]; the usage map is updated. *)
Fixpoint fill_pass_1 (cands : list cand) (tl : timeline)
    (hourly_usage : gmap string Q) (rem : Q)
  : res (timeline * gmap string Q * Q) :=
  match cands with
  | [] => Ok (tl, hourly_usage, rem)
  | c :: rest =>
      if Qle_bool rem 0 then Ok (tl, hourly_usage, rem)
      else
        let take := py_min rem (c_headroom c) in
        tl ← add_grid tl (c_index c) take;
        hourly_usage ← dict_add hourly_usage (c_hour c) take;
        fill_pass_1 rest tl hourly_usage (rem - take)
  end.

(** Pass 2 (fallback): the usage map is left alone. *)
Fixpoint fill_pass_2 (cands : list cand) (tl : timeline) (rem : Q)
  : res (timeline * Q) :=
  match cands with
  | [] => Ok (tl, rem)
  | c :: rest =>
      if Qle_bool rem 0 then Ok (tl, rem)
      else
        let take := py_min rem (c_headroom c) in
        tl ← add_grid tl (c_index c) take;
        fill_pass_2 rest tl (rem - take)
  end.

Definition distribute_smart_safety_fill (tl : timeline) (needed : Q)
    (end_index : nat) (current_battery_wh : Q) : res timeline :=
  let hourly_usage := get_hourly_usage_map tl in
  candidates ← get_candidates tl hourly_usage end_index current_battery_wh false;
  let candidates := sort_by c_price candidates in
  '(tl, hourly_usage, rem) ← fill_pass_1 candidates tl hourly_usage needed;
  '(tl, rem) ←
    (if Qltb 0 rem then
       cands2 ← get_candidates tl hourly_usage end_index current_battery_wh true;
       let cands2 := sort_by c_price cands2 in
       fill_pass_2 cands2 tl rem
     else Ok (tl, rem));
  if Qltb 0 rem then add_grid tl 0 rem else Ok tl.

(** *** Phase 1: peak shaving *)

(** The per-item loop of [phase_1_peak_shaving]. *)
Fixpoint peak_shave (optimal : Q) (curr_soc : Q) (tl : timeline) : timeline :=
  match tl with
  | [] => []
  | item :: rest =>
      let use_grid := optimal - BIAS in
      let use_grid := if Qltb use_grid 0 then 0 else use_grid in
      let dis := base_net_load_wh item - use_grid in
      let dis := if Qltb dis 0 then 0 else dis in
      let dis := if Qltb MAXOUT dis then MAXOUT else dis in
      let dis := if Qltb (curr_soc - dis) RESERVE
                 then py_max 0 (curr_soc - RESERVE) else dis in
      let curr_soc := curr_soc - dis in
      set_batt_wh curr_soc
        (set_grid_wh ((base_net_load_wh item - dis) - BIAS) item)
      :: peak_shave optimal curr_soc rest
  end.

(** The ceiling chosen by phase 1. *)
Definition phase_1_optimal (tl : timeline) (current_battery_wh : Q) : Q :=
  let usable := current_battery_wh - RESERVE in
  let usable := if Qltb usable 0 then 0 else usable in
  match TRY_KEEP_HOURS_BELOW_WH cfg with
  | Some limit => limit / 4
  | None => calculate_min_peak_limit tl usable
  end.

(** Returns the updated timeline together with [(optimal, warning_flag)]. *)
Definition phase_1_peak_shaving (tl : timeline) (current_battery_wh : Q)
  : timeline * (Q * bool) :=
  let optimal := phase_1_optimal tl current_battery_wh in
  let monthly_peak := PREVIOUS_PEAK_WH / 4 in
  let warning_flag := Qltb monthly_peak optimal in
  (peak_shave optimal current_battery_wh tl, (optimal, warning_flag)).

(** *** Phase 2: safety checks *)

(** The inner [for] of [phase_2_safety_checks]: returns the timeline and the
    [violation] flag; the loop is left at the first violation. *)
Fixpoint safety_scan (tl : timeline) (current_battery_wh : Q) (profile : list Q)
    (items : list (nat * slot)) : res (timeline * bool) :=
  match items with
  | [] => Ok (tl, false)
  | (i, item) :: rest =>
      start_soc ← (if (i =? 0)%nat then Ok current_battery_wh
                    else getitem profile (i - 1));
      let act_grid := grid_wh item + BIAS in
      let dis := base_net_load_wh item - act_grid in
      if Qltb LOWMAX dis then
        if Qltb start_soc THROTTLE then
          let needed := THROTTLE - start_soc + 1 in
          tl ← distribute_smart_safety_fill tl needed i current_battery_wh;
          Ok (tl, true)
        else safety_scan tl current_battery_wh profile rest
      else safety_scan tl current_battery_wh profile rest
  end.

(** [n] is the number of iterations left, [10 - safety_iter]. *)
Fixpoint safety_while (n : nat) (tl : timeline) (current_battery_wh : Q)
  : res timeline :=
  match n with
  | O => Ok tl
  | S n' =>
      profile ← current_profile tl current_battery_wh;
      '(tl, violation) ← safety_scan tl current_battery_wh profile (enumerate tl);
      if negb violation then Ok tl
      else safety_while n' tl current_battery_wh
  end.

Definition phase_2_safety_checks (tl : timeline) (current_battery_wh : Q)
  : res timeline :=
  safety_while 10 tl current_battery_wh.

(** *** Phase 2.9: cheap-hour fill *)

(** [item["grid_wh"] -= v] and [d[k] -= v]. *)
Definition sub_grid (tl : timeline) (i : nat) (v : Q) : res timeline :=
  x ← getitem tl i; Ok (<[i := set_grid_wh (grid_wh x - v) x]> tl).

Definition dict_sub (d : gmap string Q) (k : string) (v : Q) : res (gmap string Q) :=
  old ← getkey d k; Ok (<[k := old - v]> d).

(** [avg_p]: the mean price, [0] on the empty timeline. *)
Definition average_price (tl : timeline) : Q :=
  match tl with
  | [] => 0
  | _ => py_sum (map price tl) / inject_Z (Z.of_nat (length tl))
  end.

(** The below-average items in ascending price order, each by its position
    in the timeline (the source holds references to the timeline's dicts). *)
Definition cheap_candidates (tl : timeline) : list nat :=
  let avg_p := average_price tl in
  map fst
    (sort_by (λ c : nat * slot, price (snd c))
       (List.filter (λ c : nat * slot, Qltb (price (snd c)) avg_p) (enumerate tl))).

(** The nested [check_capacity]. *)
Definition check_capacity (tl : timeline) (current_battery_wh : Q) : res bool :=
  prof ← current_profile tl current_battery_wh;
  m ← py_max_list prof;
  Ok (Qle_bool m CAP).

(** The loop over [cheap_candidates].  [hourly_usage] is the dict the loop
    keeps up to date by [hourly_usage[h] += take]; the tests against [1.0]
    and the sums are those of exact arithmetic (see [Binary64.fill_loop]
    for the loop with rounded sums). *)
Fixpoint fill_loop (current_battery_wh limit_wh : Q) (cands : list nat)
    (tl : timeline) (hourly_usage : gmap string Q)
  : res (timeline * gmap string Q) :=
  match cands with
  | [] => Ok (tl, hourly_usage)
  | i :: rest =>
      item ← getitem tl i;
      let curr_h_sum := dict_get hourly_usage (hour item) in
      let room_to_peak := limit_wh - curr_h_sum in
      if Qltb room_to_peak 1
      then fill_loop current_battery_wh limit_wh rest tl hourly_usage
      else
        let curr_grid := grid_wh item + BIAS in
        let net_load := base_net_load_wh item in
        let room_to_load := net_load - curr_grid in
        if Qltb room_to_load 1
        then fill_loop current_battery_wh limit_wh rest tl hourly_usage
        else
          let take := py_min room_to_peak room_to_load in
          tl ← add_grid tl i take;
          hourly_usage ← dict_add hourly_usage (hour item) take;
          ok ← check_capacity tl current_battery_wh;
          if negb ok then
            tl ← sub_grid tl i take;
            hourly_usage ← dict_sub hourly_usage (hour item) take;
            fill_loop current_battery_wh limit_wh rest tl hourly_usage
          else fill_loop current_battery_wh limit_wh rest tl hourly_usage
  end.

Definition phase_smart_fill_cheap_hours (tl : timeline)
    (current_battery_wh limit_wh : Q) : res timeline :=
  let cands := cheap_candidates tl in
  let hourly_usage := get_hourly_usage_map tl in
  r ← fill_loop current_battery_wh limit_wh cands tl hourly_usage;
  Ok (fst r).

(** *** Phase 2.5: intra-hour reallocation *)

(** [[i for i, x in enumerate(timeline) if x["hour"] == hour]] *)
Definition hour_indices (tl : timeline) (h : string) : list nat :=
  map fst (List.filter (λ c : nat * slot, String.eqb (hour (snd c)) h) (enumerate tl)).

(** [[timeline[i] for i in indices]] *)
Fixpoint get_all (tl : timeline) (indices : list nat) : res (list slot) :=
  match indices with
  | [] => Ok []
  | i :: rest => x ← getitem tl i; xs ← get_all tl rest; Ok (x :: xs)
  end.

(** The discharge of slot [i] is taken off the running charge. *)
Definition track_slot (tl : timeline) (current_soc : Q) (i : nat) : res Q :=
  x ← getitem tl i;
  let g := grid_wh x + BIAS in
  let d := base_net_load_wh x - g in
  Ok (current_soc - d).

(** First allocation loop: up to each quarter's own load. *)
Definition allocate_load (st : gmap nat Q * Q) (q : slot) : gmap nat Q * Q :=
  let '(allocated, remaining_budget) := st in
  let max_take := py_max 0 (base_net_load_wh q) in
  let take := py_min remaining_budget max_take in
  (<[index q := take]> allocated, remaining_budget - take).

(** Second allocation loop: into the charging headroom, left when the
    budget is used up. *)
Fixpoint allocate_charge (quarters : list slot) (allocated : gmap nat Q)
    (remaining_budget : Q) : res (gmap nat Q * Q) :=
  match quarters with
  | [] => Ok (allocated, remaining_budget)
  | q :: rest =>
      curr_val ← getkey allocated (index q);
      let max_grid_charge := base_net_load_wh q + MAXOUT in
      let room := max_grid_charge - curr_val in
      '(allocated, remaining_budget) ←
        (if Qltb 0 room then
           let take := py_min remaining_budget room in
           old ← getkey allocated (index q);
           Ok (<[index q := old + take]> allocated, remaining_budget - take)
         else Ok (allocated, remaining_budget));
      if Qle_bool remaining_budget 0 then Ok (allocated, remaining_budget)
      else allocate_charge rest allocated remaining_budget
  end.

(** The allocation of an hour's budget over its quarters. *)
Definition allocate_hour (quarters : list slot) (hour_total_grid : Q)
  : res (gmap nat Q * Q) :=
  let quarters := sort_by price quarters in
  let allocated := fold_left (λ (a : gmap nat Q) q, <[index q := 0]> a) quarters ∅ in
  let '(allocated, remaining_budget) :=
    fold_left allocate_load quarters (allocated, hour_total_grid) in
  if Qltb 0 remaining_budget
  then allocate_charge quarters allocated remaining_budget
  else Ok (allocated, remaining_budget).

(** One step of the validation loop: the state is [(temp_soc, valid)]. *)
Definition validate_slot (tl : timeline) (st : Q * bool) (i : nat) : res (Q * bool) :=
  let '(temp_soc, valid) := st in
  x ← getitem tl i;
  let act := grid_wh x + BIAS in
  let dis := base_net_load_wh x - act in
  let valid := if Qltb MAXOUT dis then false else valid in
  let valid := if Qltb temp_soc THROTTLE && Qltb LOWMAX dis then false else valid in
  let valid := if Qltb (temp_soc - dis) RESERVE then false else valid in
  let temp_soc := temp_soc - dis in
  let temp_soc := if Qltb CAP temp_soc then CAP else temp_soc in
  Ok (temp_soc, valid).

(** The tentative assignment of an hour: the timeline with the allocation
    written to it, the saved [original_grids], and the validation result
    [(temp_soc, valid)]. *)
Definition tentative_hour (tl : timeline) (current_soc : Q) (indices : list nat)
    (quarters : list slot) (hour_total_grid : Q)
  : res (timeline * gmap nat Q * (Q * bool)) :=
  '(allocated, _) ← allocate_hour quarters hour_total_grid;
  original_grids ←
    foldM (λ (d : gmap nat Q) i, x ← getitem tl i; Ok (<[i := grid_wh x]> d)) ∅ indices;
  tl ← foldM (λ tl i, a ← getkey allocated i; store_grid tl i (a - BIAS)) tl indices;
  let sorted_indices := merge_sort Nat.le indices in
  v ← foldM (validate_slot tl) (current_soc, true) sorted_indices;
  Ok (tl, original_grids, v).

(** The body of the loop over [unique_hours] past the [if not indices]
    test: the hour is skipped when its total import is not positive, else
    its budget is reallocated, validated, and rolled back when invalid. *)
Definition reallocate_hour (tl : timeline) (current_soc : Q) (indices : list nat)
  : res (timeline * Q) :=
  quarters ← get_all tl indices;
  let hour_total_grid := py_sum (map (λ q, grid_wh q + BIAS) quarters) in
  if Qle_bool hour_total_grid 0 then
    current_soc ← foldM (track_slot tl) current_soc indices;
    Ok (tl, current_soc)
  else
    '(tl1, original_grids, v) ←
      tentative_hour tl current_soc indices quarters hour_total_grid;
    let temp_soc : Q := fst v in
    let valid : bool := snd v in
    if valid then Ok (tl1, temp_soc)
    else
      tl2 ← foldM (λ tl i, g ← getkey original_grids i; store_grid tl i g) tl1 indices;
      current_soc ← foldM (track_slot tl2) current_soc indices;
      Ok (tl2, current_soc).

(** The body of the loop over [unique_hours]; the state is the timeline and
    the running [current_soc]. *)
Definition intra_hour (st : timeline * Q) (h : string) : res (timeline * Q) :=
  let '(tl, current_soc) := st in
  let indices := hour_indices tl h in
  match indices with
  | [] => Ok (tl, current_soc)
  | _ => reallocate_hour tl current_soc indices
  end.

Definition phase_optimize_within_hours (tl : timeline) (current_battery_wh : Q)
  : res timeline :=
  let unique_hours := sorted_set (map hour tl) in
  r ← foldM intra_hour (tl, current_battery_wh) unique_hours;
  Ok (fst r).

(** *** Phase 3: price optimization (energy swap) *)

(** The state of a search: the best pair so far and its figure of merit. *)
Abbreviation search_state := (option (nat * nat) * Q)%type.

(** [for k in range(t_c, t_e)]: no profile entry on the path at or above
    capacity less one. *)
Fixpoint swap_path_ok (curr_prof : list Q) (ks : list nat) : res bool :=
  match ks with
  | [] => Ok true
  | k :: rest =>
      p ← getitem curr_prof k;
      if Qle_bool (CAP - 1) p then Ok false else swap_path_ok curr_prof rest
  end.

(** The body of the inner loop over [(t_e, item_e)]. *)
Definition swap_inner (current_battery_wh : Q) (curr_prof : list Q)
    (t_c : nat) (item_c : slot) (st : search_state) (e : nat * slot)
  : res search_state :=
  let '(t_e, item_e) := e in
  if (t_c =? t_e)%nat then Ok st else
  let p_diff := price item_e - price item_c in
  if Qltb p_diff CYCLE then Ok st else
  let act_e := grid_wh item_e + BIAS in
  let dis_e := base_net_load_wh item_e - act_e in
  if Qle_bool MAXOUT dis_e then Ok st else
  start_soc_e ← (if (t_e =? 0)%nat then Ok current_battery_wh
                  else getitem curr_prof (t_e - 1));
  if Qltb start_soc_e THROTTLE && Qle_bool LOWMAX dis_e then Ok st else
  if (t_e <? t_c)%nat then Ok st else
  path_ok ← swap_path_ok curr_prof (seq t_c (t_e - t_c));
  if negb path_ok then Ok st else
  if Qltb (snd st) p_diff then Ok (Some (t_c, t_e), p_diff) else Ok st.

(** The body of the outer loop over [(t_c, item_c)]. *)
Definition swap_outer (tl : timeline) (current_battery_wh swap_ceiling_wh : Q)
    (curr_prof : list Q) (st : search_state) (c : nat * slot) : res search_state :=
  let '(t_c, item_c) := c in
  let act_c := grid_wh item_c + BIAS in
  let dis_c := base_net_load_wh item_c - act_c in
  if Qle_bool dis_c 0 then Ok st else
  if Qle_bool swap_ceiling_wh act_c then Ok st else
  foldM (swap_inner current_battery_wh curr_prof t_c item_c) st (enumerate tl).

(** One scan of all pairs: [best_swap]. *)
Definition find_best_swap (tl : timeline) (current_battery_wh swap_ceiling_wh : Q)
  : res (option (nat * nat)) :=
  curr_prof ← current_profile tl current_battery_wh;
  st ← foldM (swap_outer tl current_battery_wh swap_ceiling_wh curr_prof)
             (None, 0) (enumerate tl);
  Ok (fst st).

(** [timeline[s]["grid_wh"] += 50.0; timeline[d]["grid_wh"] -= 50.0] *)
Definition shift_50 (tl : timeline) (s d : nat) : res timeline :=
  tl ← add_grid tl s 50; sub_grid tl d 50.

(** The [while swap_iter < 500] loop; [n] is the number of iterations left,
    [500 - swap_iter].  Next to the timeline the loop returns, oldest first,
    the accepted swaps, each with the timeline it was chosen on. *)
Fixpoint swap_while (n : nat) (tl : timeline) (current_battery_wh swap_ceiling_wh : Q)
    (log : list (timeline * (nat * nat)))
  : res (timeline * list (timeline * (nat * nat))) :=
  match n with
  | O => Ok (tl, log)
  | S n' =>
      best_swap ← find_best_swap tl current_battery_wh swap_ceiling_wh;
      match best_swap with
      | None => Ok (tl, log)
      | Some (s, d) =>
          tl' ← shift_50 tl s d;
          swap_while n' tl' current_battery_wh swap_ceiling_wh (log ++ [(tl, (s, d))])
      end
  end.

(** The ceiling is raised to the largest import already planned. *)
Definition raise_ceiling (tl : timeline) (swap_ceiling_wh : Q) : Q :=
  let curr_max :=
    fold_left (λ curr_max x,
                 let g := grid_wh x + BIAS in
                 if Qltb curr_max g then g else curr_max) tl 0 in
  if Qltb swap_ceiling_wh curr_max then curr_max else swap_ceiling_wh.

Definition phase_3_swaps (tl : timeline) (current_battery_wh swap_ceiling_wh : Q)
  : res (timeline * list (timeline * (nat * nat))) :=
  swap_while 500 tl current_battery_wh (raise_ceiling tl swap_ceiling_wh) [].

Definition phase_3_price_optimization (tl : timeline)
    (current_battery_wh swap_ceiling_wh : Q) : res timeline :=
  r ← phase_3_swaps tl current_battery_wh swap_ceiling_wh; Ok (fst r).

(** *** Phase 4: active arbitrage *)

(** [for k in range(t_b, t_s)]: room for 50 Wh more all along the path. *)
Fixpoint arb_path_ok (curr_prof : list Q) (ks : list nat) : res bool :=
  match ks with
  | [] => Ok true
  | k :: rest =>
      p ← getitem curr_prof k;
      if Qltb CAP (p + 50) then Ok false else arb_path_ok curr_prof rest
  end.

(** The body of the inner loop over [(t_s, item_s)].  Its last statement,
    [max_prof = prof; best_arb = (t_b, t_s)], reads the name [prof], which
    is bound neither in [phase_4_active_arbitrage] nor at module level:
    evaluating it raises [NameError]. *)
Definition arb_inner (curr_prof : list Q) (t_b : nat) (item_b : slot)
    (st : search_state) (s : nat * slot) : res search_state :=
  let '(t_s, item_s) := s in
  if (t_s <=? t_b)%nat then Ok st else
  let buy_c := price item_b + TOTAL_ADDITIONAL_FEES in
  let sell_r := price item_s in
  let profit := sell_r - buy_c - CYCLE in
  if Qltb profit (MIN_PRICE_DIFF_ORE_FOR_SELLING cfg) then Ok st else
  let act_s := grid_wh item_s + BIAS in
  let dis_s := base_net_load_wh item_s - act_s in
  if Qltb MAXOUT (dis_s + 50) then Ok st else
  start_soc_s ← getitem curr_prof (t_s - 1);
  if Qltb start_soc_s THROTTLE && Qltb LOWMAX (dis_s + 50) then Ok st else
  path_ok ← arb_path_ok curr_prof (seq t_b (t_s - t_b));
  if negb path_ok then Ok st else
  if Qltb (snd st) profit then Raise NameError else Ok st.

(** The body of the outer loop over [(t_b, item_b)]. *)
Definition arb_outer (tl : timeline) (current_battery_wh : Q)
    (hourly_usage : gmap string Q) (curr_prof : list Q)
    (st : search_state) (b : nat * slot) : res search_state :=
  let '(t_b, item_b) := b in
  let curr_h := dict_get hourly_usage (hour item_b) in
  if Qltb (PREVIOUS_PEAK_WH - curr_h) 50 then Ok st else
  start_soc_b ← (if (t_b =? 0)%nat then Ok current_battery_wh
                  else getitem curr_prof (t_b - 1));
  if Qle_bool (CAP - 1) start_soc_b then Ok st else
  foldM (arb_inner curr_prof t_b item_b) st (enumerate tl).

Definition find_best_arb (tl : timeline) (current_battery_wh : Q)
    (hourly_usage : gmap string Q) : res (option (nat * nat)) :=
  curr_prof ← current_profile tl current_battery_wh;
  st ← foldM (arb_outer tl current_battery_wh hourly_usage curr_prof)
             (None, 0) (enumerate tl);
  Ok (fst st).

(** The [while arb_iter < 500] loop; [n] is [500 - arb_iter].  The second
    component counts the iterations that accepted a pair. *)
Fixpoint arb_while (n : nat) (tl : timeline) (current_battery_wh : Q)
    (hourly_usage : gmap string Q) (accepted : nat) : res (timeline * nat) :=
  match n with
  | O => Ok (tl, accepted)
  | S n' =>
      best_arb ← find_best_arb tl current_battery_wh hourly_usage;
      match best_arb with
      | None => Ok (tl, accepted)
      | Some (b, s) =>
          tl ← shift_50 tl b s;
          item_b ← getitem tl b;
          hourly_usage ← dict_add hourly_usage (hour item_b) 50;
          arb_while n' tl current_battery_wh hourly_usage (S accepted)
      end
  end.

Definition phase_4_arbs (tl : timeline) (current_battery_wh base_price : Q)
  : res (timeline * nat) :=
  arb_while 500 tl current_battery_wh (get_hourly_usage_map tl) 0.

Definition phase_4_active_arbitrage (tl : timeline)
    (current_battery_wh base_price : Q) : res timeline :=
  r ← phase_4_arbs tl current_battery_wh base_price; Ok (fst r).

(** *** Controller *)

(** The value returned by [run_optimizer]. *)
Inductive run_output : Type :=
| Returned_None
| Returned_history (history : list snapshot)
| Returned_timeline (tl : timeline).

(** [for i, x in enumerate(tl): x["batt_wh"] = prof[i]] *)
Definition write_profile (prof : list Q) (tl : timeline) : res timeline :=
  foldM (λ (acc : timeline) (c : nat * slot),
           b ← getitem prof (fst c); Ok (acc ++ [set_batt_wh b (snd c)]))
        [] (enumerate tl).

(** [for i, x in enumerate(tl): x["grid_wh"] = grids[i]] *)
Definition write_grids (grids : list Q) (tl : timeline) : res timeline :=
  foldM (λ (acc : timeline) (c : nat * slot),
           g ← getitem grids (fst c); Ok (acc ++ [set_grid_wh g (snd c)]))
        [] (enumerate tl).

(** The nested [save_snapshot]: returns the extended history. *)
Definition save_snapshot (return_history : bool) (tl : timeline)
    (current_battery_wh : Q) (history : list snapshot) (name : string)
  : res (list snapshot) :=
  if return_history then
    prof ← current_profile tl current_battery_wh;
    snap_tl ← write_profile prof tl;
    Ok (history ++ [mkSnapshot name snap_tl current_battery_wh PREVIOUS_PEAK_WH])
  else Ok history.

(** What [generate_reports] does to the timeline: the final profile is
    written to [batt_wh].  The rendering of the tables is not modelled: it
    parses the time labels and divides by [BATTERY_ENERGY_WH] (lines 607,
    645 and 647), which raises [ZeroDivisionError] when the capacity is
    [0].  A result [Ok] of this definition is the timeline the function
    leaves when the rendering returns. *)
Definition generate_reports (tl : timeline) (current_battery_wh : Q) : res timeline :=
  final_soc_profile ← current_profile tl current_battery_wh;
  write_profile final_soc_profile tl.

(** The run after the early return, on the result of [setup_timeline].
    Next to its result the run yields the names of the phase functions it
    called, in call order. *)
Definition run_phases (return_history : bool) (tl : timeline)
    (current_battery_wh base_price : Q) : res (run_output * list string) :=
  let history := [] in
  let orig_grids := map grid_wh tl in
  let tl0 := map (λ x, set_grid_wh (base_net_load_wh x - BIAS) x) tl in
  history ← save_snapshot return_history tl0 current_battery_wh history
              "Fas 0: Utgångsläge (Ingen batteridrift)";
  tl ← write_grids orig_grids tl0;
  let '(tl, (optimal_limit, warning_flag)) :=
    phase_1_peak_shaving tl current_battery_wh in
  let ran := ["phase_1_peak_shaving"%string] in
  history ← save_snapshot return_history tl current_battery_wh history
              "Fas 1: Peak Shaving (Platt Kurva)";
  tl ← phase_2_safety_checks tl current_battery_wh;
  let ran := ran ++ ["phase_2_safety_checks"%string] in
  history ← save_snapshot return_history tl current_battery_wh history
              "Fas 2: Säkerhetskontroll (15% Reserv)";
  let fill_ceiling := PREVIOUS_PEAK_WH in
  tl ← phase_smart_fill_cheap_hours tl current_battery_wh fill_ceiling;
  let ran := ran ++ ["phase_smart_fill_cheap_hours"%string] in
  history ← save_snapshot return_history tl current_battery_wh history
              "Fas 2.9: Smart Fill (Billiga Timmar)";
  tl ← phase_optimize_within_hours tl current_battery_wh;
  let ran := ran ++ ["phase_optimize_within_hours"%string] in
  history ← save_snapshot return_history tl current_battery_wh history
              "Fas 2.5: Intra-Hour (Kvart-optimering)";
  '(tl, history, ran) ←
    (if ENABLE_ARBITRAGE cfg then
       let monthly_peak_wh := PREVIOUS_PEAK_WH / 4 in
       let swap_ceiling_wh :=
         if negb warning_flag then monthly_peak_wh else optimal_limit in
       tl ← phase_3_price_optimization tl current_battery_wh swap_ceiling_wh;
       tl ← phase_4_active_arbitrage tl current_battery_wh base_price;
       history ← save_snapshot return_history tl current_battery_wh history
                   "Fas 3 & 4: Arbitrage & Swap";
       Ok (tl, history,
           ran ++ ["phase_3_price_optimization"%string;
                   "phase_4_active_arbitrage"%string])
     else Ok (tl, history, ran));
  if negb return_history then
    tl ← generate_reports tl current_battery_wh;
    Ok (Returned_timeline tl, ran)
  else
    history ← save_snapshot return_history tl current_battery_wh history
                "Slutresultat";
    Ok (Returned_history history, ran).

(** [run_optimizer], on the value returned by [setup_timeline]: [None]
    stands for its [(None, None, None)].  [not timeline] holds of [None]
    and of the empty list. *)
Definition run_optimizer (setup : option (timeline * Q * Q)) (return_history : bool)
  : res (run_output * list string) :=
  match setup with
  | Some ((_ :: _) as tl, current_battery_wh, base_price) =>
      run_phases return_history tl current_battery_wh base_price
  | _ => Ok (if return_history then Returned_history [] else Returned_None, [])
  end.

End Optimizer.


(** * Input assembly

    The functions that build the timeline: [round_time_down_to_quarter],
    the quarter table of [fetch_prices_as_quarters] and [setup_timeline].

    - The HTTP request and the parsing of the response are not modelled:
      [fetch_prices_as_quarters] is modelled on the outcome of the request,
      [None] for a [RequestException], else the entries of the response in
      order, each as the [%H:%M] label of its [time_start] paired with its
      [SEK_per_kWh].
    - Python's [int] on a string is a parameter, [py_int]; [None] stands
      for its [ValueError].
    - The constants of the settings module read here only are the fields
      of the record [SetupSettings]. *)

From Stdlib Require Import Ascii DecimalString.

(** [s.split(":")]: never empty, one part more than there are colons. *)
Fixpoint split_colon (s : string) : list string :=
  match s with
  | EmptyString => [EmptyString]
  | String c rest =>
      if Ascii.eqb c ":" then EmptyString :: split_colon rest
      else match split_colon rest with
           | [] => [String c EmptyString]
           | p :: ps => String c p :: ps
           end
  end.

(** [f"{z:02d}"]: the decimal digits, with a zero in front when that is a
    single character. *)
Definition fmt_02d (z : Z) : string :=
  let s := NilZero.string_of_int (Z.to_int z) in
  if (String.length s <? 2)%nat then String "0" s else s.

(** [sorted(l)] on strings. *)
Definition sorted_strings (l : list string) : list string := foldr insert_str [] l.

(** [l.index(t)]: the first position of [t]; [ValueError] when absent. *)
Fixpoint list_index (t : string) (l : list string) : res nat :=
  match l with
  | [] => Raise ValueError
  | x :: l' => if String.eqb x t then Ok O else i ← list_index t l'; Ok (S i)
  end.

(** [l[:n]] for an integer [n]: a negative [n] counts from the end. *)
Definition slice_to {A} (l : list A) (n : Z) : list A :=
  if (n <? 0)%Z then take (length l - Z.to_nat (- n)) l else take (Z.to_nat n) l.

(** [int(x)] on a float: truncation towards zero. *)
Definition int_of_float (x : Q) : Z := Z.quot (Qnum x) (Z.pos (Qden x)).

Section Rounding.

Context (py_int : string → option Z).

(** The bare [except] turns every failure of the parse into [None]: a
    string without exactly two parts, or a part [int] rejects. *)
Definition round_time_down_to_quarter (time_str : string) : option string :=
  if String.eqb time_str "" then None
  else
    match split_colon time_str with
    | [a; b] =>
        match py_int a, py_int b with
        | Some h, Some m =>
            let m := if (m <? 15)%Z then 0%Z
                     else if (m <? 30)%Z then 15%Z
                     else if (m <? 45)%Z then 30%Z
                     else 45%Z in
            Some (fmt_02d h ++ ":" ++ fmt_02d m)%string
        | _, _ => None
        end
    | _ => None
    end.

End Rounding.

(** ** The quarter table *)

(** The body of the loops over [range(24)] and [[0, 15, 30, 45]]. *)
Definition quarter_entry (raw_prices quarter_prices : gmap string Q) (hour minute : Z)
  : gmap string Q :=
  let quarter_key := (fmt_02d hour ++ ":" ++ fmt_02d minute)%string in
  let hour_key := (fmt_02d hour ++ ":00")%string in
  match raw_prices !! quarter_key with
  | Some p => <[quarter_key := p]> quarter_prices
  | None =>
      match raw_prices !! hour_key with
      | Some p => <[quarter_key := p]> quarter_prices
      | None => <[quarter_key := 0]> quarter_prices
      end
  end.

Definition quarter_table (raw_prices : gmap string Q) : gmap string Q :=
  fold_left
    (λ quarter_prices hour,
       fold_left (λ quarter_prices minute,
                    quarter_entry raw_prices quarter_prices hour minute)
                 [0; 15; 30; 45]%Z quarter_prices)
    (map Z.of_nat (seq 0 24)) ∅.

(** The loop over the entries of the response: the price in öre under the
    [%H:%M] label of the entry. *)
Definition raw_prices_of (data : list (string * Q)) : gmap string Q :=
  fold_left (λ (raw_prices : gmap string Q) (entry : string * Q),
               <[fst entry := snd entry * 100]> raw_prices) data ∅.

Definition fetch_prices_as_quarters (response : option (list (string * Q)))
  : option (gmap string Q) :=
  match response with
  | None => None
  | Some data => Some (quarter_table (raw_prices_of data))
  end.

(** ** The timeline *)

Record SetupSettings : Type := mkSetupSettings {
  SIMULATION_START_TIME_DEFAULT : string;
  SIMULATION_END_TIME : string;
  OPTIMIZE_FROM_TIME : option string;
  OPTIMIZE_OVERRIDE_CURRENT_SOC_KWH : option Q;
  NIGHT_CHARGE_WINDOW_START : string;
  NIGHT_CHARGE_WINDOW_END : string;
  CHARGE_DURATION_HOURS : Q;
  DEFAULT_INITIAL_PRICE_ORE : Q;
  HOUSE_CONSUMPTION_FUDGE_FACTOR : Q;
  CONSUMPTION_SCHEDULE_RAW : gmap string Q;
  SOLAR_PRODUCTION_SCHEDULE_RAW : gmap string Q
}.

(** The outcome of [setup_timeline]: the triple it returns, its
    [(None, None, None)], or an exception. *)
Inductive setup_result : Type :=
| Setup_ok (tl : timeline) (current_battery_wh base_price : Q)
| Setup_none
| Setup_raise (e : exn)
| Setup_ZeroDivisionError.

Section Setup.

Context (cfg : Settings) (ss : SetupSettings) (py_int : string → option Z).

(** Live mode: the start of the simulation. *)
Definition sim_start : string :=
  match OPTIMIZE_FROM_TIME ss with
  | Some t =>
      if String.eqb t "" then SIMULATION_START_TIME_DEFAULT ss
      else
        match round_time_down_to_quarter py_int t with
        | Some rounded_start =>
            if String.eqb rounded_start "" then SIMULATION_START_TIME_DEFAULT ss
            else rounded_start
        | None => SIMULATION_START_TIME_DEFAULT ss
        end
  | None => SIMULATION_START_TIME_DEFAULT ss
  end.

(** Live mode: the starting charge. *)
Definition start_charge : Q :=
  match OPTIMIZE_OVERRIDE_CURRENT_SOC_KWH ss with
  | Some kwh => kwh * 1000
  | None => BATTERY_ENERGY_WH cfg
  end.

(** The start price: the mean of the cheapest quarters of the night window
    plus the fees, or the default.  [None] stands for the
    [ZeroDivisionError] of the mean of no quarters. *)
Definition start_price (items : list (string * Q)) : option Q :=
  let night_prices :=
    map snd
      (List.filter
         (λ tp : string * Q,
            String.leb (NIGHT_CHARGE_WINDOW_START ss) (fst tp)
            && String.ltb (fst tp) (NIGHT_CHARGE_WINDOW_END ss))
         items) in
  let quarters_needed := int_of_float (CHARGE_DURATION_HOURS ss * 4) in
  if (quarters_needed <=? Z.of_nat (length night_prices))%Z then
    let night_prices := sort_by (λ p : Q, p) night_prices in
    let cheapest_quarters := slice_to night_prices quarters_needed in
    match cheapest_quarters with
    | [] => None
    | _ =>
        let spot_avg :=
          py_sum cheapest_quarters / inject_Z (Z.of_nat (length cheapest_quarters)) in
        Some (spot_avg + TOTAL_ADDITIONAL_FEES cfg)
    end
  else Some (DEFAULT_INITIAL_PRICE_ORE ss).

(** [t.split(":")[0]] *)
Definition hour_of (t : string) : res string := getitem (split_colon t) 0.

(** The body of the loop over [sorted_schedule_keys]; the state is the
    timeline built so far with [cons_watts] and [solar_watts]. *)
Definition setup_step (valid_quarters : list string) (elpriser_filtered : gmap string Q)
    (st : timeline * Q * Q) (t : string) : res (timeline * Q * Q) :=
  let '(tl, cons_watts, solar_watts) := st in
  let cons_watts :=
    match CONSUMPTION_SCHEDULE_RAW ss !! t with
    | Some w => w * HOUSE_CONSUMPTION_FUDGE_FACTOR ss
    | None => cons_watts
    end in
  let solar_watts :=
    match SOLAR_PRODUCTION_SCHEDULE_RAW ss !! t with
    | Some w => w
    | None => solar_watts
    end in
  if bool_decide (t ∈ valid_quarters) then
    q_idx ← list_index t valid_quarters;
    h ← hour_of t;
    p ← getkey elpriser_filtered t;
    Ok (tl ++ [mkSlot q_idx t h p (cons_watts / 4) (solar_watts / 4) 0 0
                      (cons_watts / 4 - solar_watts / 4)],
        cons_watts, solar_watts)
  else Ok (tl, cons_watts, solar_watts).

(** The prices of the simulated window and its quarters in time order. *)
Definition price_window (all_day_prices : gmap string Q) : gmap string Q :=
  filter (λ kv : string * Q,
            String.leb sim_start (fst kv)
            && String.leb (fst kv) (SIMULATION_END_TIME ss) = true)
         all_day_prices.

Definition quarters_of (elpriser_filtered : gmap string Q) : list string :=
  sorted_strings
    (List.filter (λ t, String.ltb t (SIMULATION_END_TIME ss))
                 (map fst (map_to_list elpriser_filtered))).

Definition schedule_keys (valid_quarters : list string) : list string :=
  sorted_set (map fst (map_to_list (CONSUMPTION_SCHEDULE_RAW ss))
              ++ map fst (map_to_list (SOLAR_PRODUCTION_SCHEDULE_RAW ss))
              ++ valid_quarters).

(** The percentage printed for the override of the live mode divides by
    the capacity. *)
Definition override_divides_by_zero : bool :=
  match OPTIMIZE_OVERRIDE_CURRENT_SOC_KWH ss with
  | Some _ => Qeq_bool (BATTERY_ENERGY_WH cfg) 0
  | None => false
  end.

Definition setup_timeline (response : option (list (string * Q))) : setup_result :=
  let current_battery_wh := start_charge in
  if override_divides_by_zero then Setup_ZeroDivisionError else
  match fetch_prices_as_quarters response with
  | None => Setup_none
  | Some all_day_prices =>
      match map_to_list all_day_prices with
      | [] => Setup_none
      | items =>
          match start_price items with
          | None => Setup_ZeroDivisionError
          | Some base_price =>
              let elpriser_filtered := price_window all_day_prices in
              let valid_quarters := quarters_of elpriser_filtered in
              match foldM (setup_step valid_quarters elpriser_filtered) ([], 0, 0)
                          (schedule_keys valid_quarters) with
              | Ok (tl, _, _) => Setup_ok tl current_battery_wh base_price
              | Raise e => Setup_raise e
              end
          end
      end
  end.

End Setup.

(** * The cheap-hour fill in binary64

    The parts above compute with exact rationals.  The cheap-hour fill
    tests its budgets against the threshold [1.0] and keeps a running sum
    of the hourly usage of its own, next to the sum [get_hourly_usage_map]
    computes from a plan; whether the two sums are the same number depends
    on the rounding of the float additions.  This part transliterates
    [get_hourly_usage_map], [calculate_battery_profile_from_list] and
    [phase_smart_fill_cheap_hours] once more, over IEEE 754 binary64
    numbers with round-to-nearest-even (Rocq's primitive floats, the
    arithmetic of Python's [float]), to evaluate them on concrete plans.
    Lists, dicts and exceptions are modelled as above; a slot carries the
    four keys the fill reads. *)

From Stdlib Require PrimFloat Uint63.

Module Binary64.
Import PrimFloat.
Local Open Scope float_scope.

Record slot : Type := mkSlot {
  hour : string;
  price : float;
  grid_wh : float;
  base_net_load_wh : float
}.

Definition timeline : Type := list slot.

Definition set_grid_wh (v : float) (x : slot) : slot :=
  mkSlot (hour x) (price x) v (base_net_load_wh x).

(** [d.get(k, 0)] *)
Definition dict_get (d : gmap string float) (k : string) : float :=
  match d !! k with Some x => x | None => 0 end.

(** Python's two-argument [min]. *)
Definition py_min (a b : float) : float := if b <? a then b else a.

(** Python's [max] of a list. *)
Definition py_max_list (l : list float) : res float :=
  match l with
  | [] => Raise ValueError
  | x :: l' => Ok (fold_left (λ m y, if m <? y then y else m) l' x)
  end.

(** [len(l)] as the float the division converts it to. *)
Definition float_of_len {A} (l : list A) : float :=
  of_uint63 (Uint63.of_Z (Z.of_nat (length l))).

(** The stable [list.sort(key=...)] on float keys. *)
Fixpoint insert_by {A} (key : A → float) (x : A) (l : list A) : list A :=
  match l with
  | [] => [x]
  | y :: l' => if key x <=? key y then x :: y :: l' else y :: insert_by key x l'
  end.

Definition sort_by {A} (key : A → float) (l : list A) : list A :=
  foldr (insert_by key) [] l.

Section Fill.
Context (BIAS_WH_PER_QUARTER BATTERY_ENERGY_WH : float).

Fixpoint profile_loop (tl : timeline) (curr : float) (i : nat)
    (grid_cmds profile : list float) : res (list float) :=
  match grid_cmds with
  | [] => Ok profile
  | g :: rest =>
      item ← getitem tl i;
      let actual := g + BIAS_WH_PER_QUARTER in
      let change := actual - base_net_load_wh item in
      let curr := curr + change in
      let curr := if BATTERY_ENERGY_WH <? curr then BATTERY_ENERGY_WH else curr in
      profile_loop tl curr (S i) rest (profile ++ [curr])
  end.

Definition calculate_battery_profile_from_list
    (soc_start : float) (grid_cmds : list float) (tl : timeline) : res (list float) :=
  profile_loop tl soc_start 0 grid_cmds [].

Definition get_hourly_usage_map (tl : timeline) : gmap string float :=
  fold_left
    (λ (u : gmap string float) x,
       let h := hour x in
       let g := grid_wh x + BIAS_WH_PER_QUARTER in
       if 0 <? g then <[h := dict_get u h + g]> u else u)
    tl ∅.

(** [avg_p]: [sum] accumulates from [0], left to right. *)
Definition average_price (tl : timeline) : float :=
  match tl with
  | [] => 0
  | _ => fold_left add (map price tl) 0 / float_of_len tl
  end.

(** The below-average items in ascending price order, by position. *)
Definition cheap_candidates (tl : timeline) : list nat :=
  let avg_p := average_price tl in
  map fst
    (sort_by (λ c : nat * slot, price (snd c))
       (List.filter (λ c : nat * slot, price (snd c) <? avg_p) (enumerate tl))).

Definition check_capacity (tl : timeline) (current_battery_wh : float) : res bool :=
  prof ← calculate_battery_profile_from_list current_battery_wh (map grid_wh tl) tl;
  m ← py_max_list prof;
  Ok (m <=? BATTERY_ENERGY_WH).

(** [timeline[i]["grid_wh"] += v] and [hourly_usage[k] += v] *)
Definition add_grid (tl : timeline) (i : nat) (v : float) : res timeline :=
  x ← getitem tl i; Ok (<[i := set_grid_wh (grid_wh x + v) x]> tl).

Definition dict_add (d : gmap string float) (k : string) (v : float)
  : res (gmap string float) :=
  old ← getkey d k; Ok (<[k := old + v]> d).

(** [timeline[i]["grid_wh"] -= v] and [hourly_usage[k] -= v] *)
Definition sub_grid (tl : timeline) (i : nat) (v : float) : res timeline :=
  x ← getitem tl i; Ok (<[i := set_grid_wh (grid_wh x - v) x]> tl).

Definition dict_sub (d : gmap string float) (k : string) (v : float)
  : res (gmap string float) :=
  old ← getkey d k; Ok (<[k := old - v]> d).

(** The loop over [cheap_candidates]. *)
Fixpoint fill_loop (current_battery_wh limit_wh : float) (cands : list nat)
    (tl : timeline) (hourly_usage : gmap string float)
  : res (timeline * gmap string float) :=
  match cands with
  | [] => Ok (tl, hourly_usage)
  | i :: rest =>
      item ← getitem tl i;
      let curr_h_sum := dict_get hourly_usage (hour item) in
      let room_to_peak := limit_wh - curr_h_sum in
      if room_to_peak <? 1
      then fill_loop current_battery_wh limit_wh rest tl hourly_usage
      else
        let curr_grid := grid_wh item + BIAS_WH_PER_QUARTER in
        let net_load := base_net_load_wh item in
        let room_to_load := net_load - curr_grid in
        if room_to_load <? 1
        then fill_loop current_battery_wh limit_wh rest tl hourly_usage
        else
          let take := py_min room_to_peak room_to_load in
          tl ← add_grid tl i take;
          hourly_usage ← dict_add hourly_usage (hour item) take;
          ok ← check_capacity tl current_battery_wh;
          if negb ok then
            tl ← sub_grid tl i take;
            hourly_usage ← dict_sub hourly_usage (hour item) take;
            fill_loop current_battery_wh limit_wh rest tl hourly_usage
          else fill_loop current_battery_wh limit_wh rest tl hourly_usage
  end.

Definition phase_smart_fill_cheap_hours (tl : timeline)
    (current_battery_wh limit_wh : float) : res timeline :=
  let cands := cheap_candidates tl in
  let hourly_usage := get_hourly_usage_map tl in
  r ← fill_loop current_battery_wh limit_wh cands tl hourly_usage;
  Ok (fst r).

End Fill.

(** ** A plan that is raised again

    The numerals stand for the nearest binary64 numbers, as they do in
    Python.  No bias, a capacity of 10 kWh, a starting charge of 5 kWh and
    a limit of 1000 Wh per hour. *)
Definition bias_round : float := 0.
Definition capacity_round : float := 10000.
Definition soc_round : float := 5000.
Definition limit_round : float := 1000.

(** Two cheap quarters of hour 00 import 0.3 Wh each, against loads of
    998.7 Wh and 500 Wh; the quarter of hour 01 is dear. *)
#[warnings="-inexact-float"]
Definition tl_round : timeline :=
  [ mkSlot "00" 1 0.3 998.7;
    mkSlot "00" 10 0.3 500;
    mkSlot "01" 100 0 0 ].

(** [tl_round] after a first and after a second run of the fill with a
    limit of 1000 Wh. *)
#[warnings="-inexact-float"]
Definition tl_round_once : timeline :=
  [ mkSlot "00" 1 998.7 998.7;
    mkSlot "00" 10 0.3 500;
    mkSlot "01" 100 0 0 ].

#[warnings="-inexact-float"]
Definition tl_round_twice : timeline :=
  [ mkSlot "00" 1 998.7 998.7;
    mkSlot "00" 10 1.3 500;
    mkSlot "01" 100 0 0 ].

(** The usage the loop of the first run has booked on hour 00, and the
    usage computed from the plan it returns. *)
#[warnings="-inexact-float"]
Definition usage_booked : float := 999.0000000000001.

Definition usage_recomputed : float := 999.

End Binary64.

(** * Specification-side definitions *)

(** A sum, for statements. *)
Definition Qsum (l : list Q) : Q := foldr Qplus 0 l.
Arguments Qsum : simpl never.

Section Specification.

Context (cfg : Settings).

Abbreviation CAP := (BATTERY_ENERGY_WH cfg).
Abbreviation MAXOUT := (MAX_BATTERY_OUTPUT_PER_QUARTER_WH cfg).
Abbreviation BIAS := (BIAS_WH_PER_QUARTER cfg).
Abbreviation RESERVE := (MIN_BATTERY_BUFFER_WH cfg).
Abbreviation THROTTLE := (LOW_SOC_THROTTLE_WH cfg).
Abbreviation LOWMAX := (LOW_SOC_MAX_OUTPUT_PER_QUARTER_WH cfg).
Abbreviation CYCLE := (BATTERY_CYCLE_COST_ORE cfg).

(** The charge after one slot, as the simulator computes it. *)
Definition next_charge (curr g : Q) (x : slot) : Q :=
  let curr := curr + (g + BIAS - base_net_load_wh x) in
  if Qltb CAP curr then CAP else curr.

(** The simulator's output as a function of the commands paired with the
    slots. *)
Fixpoint sim (curr : Q) (grid_cmds : list Q) (tl : timeline) : list Q :=
  match grid_cmds, tl with
  | g :: gs, x :: xs => let c := next_charge curr g x in c :: sim c gs xs
  | _, _ => []
  end.

(** The charge entering slot [i]: the starting charge for the first slot,
    else the previous output. *)
Definition charge_before (soc : Q) (profile : list Q) (i : nat) : option Q :=
  match i with O => Some soc | S j => profile !! j end.

(** The battery discharge of a slot: load less realized import. *)
Definition discharge (x : slot) : Q := base_net_load_wh x - (grid_wh x + BIAS).

(** The import ceiling phase 1 holds the grid at, and the discharge that
    holds it there within the rate limit. *)
Definition import_ceiling (optimal : Q) : Q :=
  let use_grid := optimal - BIAS in if Qltb use_grid 0 then 0 else use_grid.

Definition full_discharge (optimal : Q) (x : slot) : Q :=
  Qmin MAXOUT (Qmax 0 (base_net_load_wh x - import_ceiling optimal)).

(** The peak-shaving guarantees as the specification words them. *)
Definition peak_shaving_claim (tl : timeline) (soc : Q) : Prop :=
  let tl' := fst (phase_1_peak_shaving cfg tl soc) in
  Forall (λ x, 0 <= discharge x ∧ discharge x <= MAXOUT) tl'
  ∧ Forall (λ x, RESERVE <= batt_wh x) tl'
  ∧ Qsum (map discharge tl') <= soc - RESERVE.

(** The loop of the cheap-hour fill with the capacity re-check and the
    rollback taken out: every tentative increase is kept. *)
Fixpoint fill_loop_keep (limit_wh : Q) (cands : list nat)
    (tl : timeline) (hourly_usage : gmap string Q)
  : res (timeline * gmap string Q) :=
  match cands with
  | [] => Ok (tl, hourly_usage)
  | i :: rest =>
      item ← getitem tl i;
      let room_to_peak := limit_wh - dict_get hourly_usage (hour item) in
      if Qltb room_to_peak 1 then fill_loop_keep limit_wh rest tl hourly_usage
      else
        let room_to_load := base_net_load_wh item - (grid_wh item + BIAS) in
        if Qltb room_to_load 1 then fill_loop_keep limit_wh rest tl hourly_usage
        else
          let take := py_min room_to_peak room_to_load in
          tl ← add_grid tl i take;
          hourly_usage ← dict_add hourly_usage (hour item) take;
          fill_loop_keep limit_wh rest tl hourly_usage
  end.

(** The profit figure of the active-arbitrage pass for buying in [item_b]
    and selling in [item_s]. *)
Definition arb_profit (item_b item_s : slot) : Q :=
  price item_s - (price item_b + TOTAL_ADDITIONAL_FEES cfg) - CYCLE.

(** The profile has room for 50 Wh more at entry [k]. *)
Definition room_for_50 (prof : list Q) (k : nat) : bool :=
  match prof !! k with Some p => Qle_bool (p + 50) CAP | None => false end.

(** A buy/sell pair satisfies the active-arbitrage conditions on a
    timeline: the buy slot is strictly earlier, its hour has 50 Wh of peak
    budget left and the battery is not full when it starts; the profit is
    at least the configured minimum; the sell slot can discharge 50 Wh more
    within the rate limit and the low-charge throttle; the profile has room
    for 50 Wh more from the buy slot up to the sell slot. *)
Definition arb_pair_ok (tl : timeline) (soc : Q) (b s : nat) : bool :=
  let prof := sim soc (map grid_wh tl) tl in
  let hourly_usage := get_hourly_usage_map cfg tl in
  match tl !! b, tl !! s, charge_before soc prof b, charge_before soc prof s with
  | Some item_b, Some item_s, Some start_b, Some start_s =>
      (b <? s)%nat
      && Qle_bool 50 (PREVIOUS_PEAK_WH cfg - dict_get hourly_usage (hour item_b))
      && Qltb start_b (CAP - 1)
      && Qle_bool (MIN_PRICE_DIFF_ORE_FOR_SELLING cfg) (arb_profit item_b item_s)
      && Qle_bool (discharge item_s + 50) MAXOUT
      && (Qle_bool THROTTLE start_s || Qle_bool (discharge item_s + 50) LOWMAX)
      && forallb (room_for_50 prof) (seq b (s - b))
  | _, _, _, _ => false
  end.

(** The timeline as [setup_timeline] builds it: the [index] key of a slot
    is its position. *)
Definition well_indexed (tl : timeline) : Prop :=
  ∀ i x, tl !! i = Some x → index x = i.

(** Two timelines that differ at most in the [grid_wh] of their slots. *)
Definition same_but_grid (tl tl' : timeline) : Prop :=
  Forall2 (λ x y, y = set_grid_wh (grid_wh y) x) tl tl'.

(** The aggregate grid-import volume of clock hour [h]: the sum of
    [grid_wh + bias] over the slots of that hour. *)
Definition hour_import (tl : timeline) (h : string) : Q :=
  Qsum (map (λ x, if String.eqb (hour x) h then grid_wh x + BIAS else 0) tl).

(** What the slots of hour [h] can take in the reallocation: each its load
    plus the per-slot rate, and nothing when that is negative. *)
Definition hour_room (tl : timeline) (h : string) : Q :=
  Qsum (map (λ x, if String.eqb (hour x) h
                  then Qmax 0 (base_net_load_wh x + MAXOUT) else 0) tl).

(** The verdict of the validation of hour [h] on a timeline with running
    charge [soc]: [None] when the hour is skipped, else [Some valid]. *)
Definition hour_verdict (tl : timeline) (soc : Q) (h : string) : res (option bool) :=
  let indices := hour_indices tl h in
  quarters ← get_all tl indices;
  let hour_total_grid := py_sum (map (λ q, grid_wh q + BIAS) quarters) in
  if Qle_bool hour_total_grid 0 then Ok None
  else
    r ← tentative_hour cfg tl soc indices quarters hour_total_grid;
    Ok (Some (snd (snd r))).

(** The battery discharge of the slots of hour [h]. *)
Definition hour_discharge (tl : timeline) (h : string) : Q :=
  Qsum (map (λ x, if String.eqb (hour x) h then discharge x else 0) tl).

(** The slots of hour [h] are the same in both timelines. *)
Definition hour_kept (h : string) (tl tl' : timeline) : Prop :=
  ∀ j x, tl !! j = Some x → hour x = h → tl' !! j = Some x.

(** The intra-hour reallocation keeps every hour's import volume, as the
    specification words it. *)
Definition hour_import_preserved (tl : timeline) (soc : Q) : Prop :=
  ∀ tl', phase_optimize_within_hours cfg tl soc = Ok tl' →
         ∀ h, hour_import tl' h == hour_import tl h.

(** The price spread of moving import from slot [e] to slot [c]. *)
Definition spread_idx (tl : timeline) (c e : nat) : Q :=
  match tl !! c, tl !! e with
  | Some item_c, Some item_e => price item_e - price item_c
  | _, _ => 0
  end.

(** The profile entry [k] is below capacity less one. *)
Definition below_cap (prof : list Q) (k : nat) : bool :=
  match prof !! k with Some p => Qltb p (CAP - 1) | None => false end.

(** The charge-side conditions of the swap pass: the slot discharges and
    its import is below the swap ceiling. *)
Definition swap_buy_ok (swap_ceiling_wh : Q) (item_c : slot) : bool :=
  Qltb 0 (discharge item_c) && Qltb (grid_wh item_c + BIAS) swap_ceiling_wh.

(** The discharge-side conditions: another slot, not earlier, with a spread
    of at least the cycling cost, rate and throttle headroom, and a profile
    below capacity from the charge slot up to it. *)
Definition swap_sell_ok (soc : Q) (prof : list Q) (c : nat) (item_c : slot)
    (e : nat) (item_e : slot) : bool :=
  negb (c =? e)%nat
  && Qle_bool CYCLE (price item_e - price item_c)
  && Qltb (discharge item_e) MAXOUT
  && match charge_before soc prof e with
     | Some start_soc_e =>
         Qle_bool THROTTLE start_soc_e || Qltb (discharge item_e) LOWMAX
     | None => false
     end
  && (c <=? e)%nat
  && forallb (below_cap prof) (seq c (e - c)).

(** A feasible pair of the swap pass on a timeline. *)
Definition swap_pair_ok (tl : timeline) (soc swap_ceiling_wh : Q) (c e : nat) : bool :=
  let prof := sim soc (map grid_wh tl) tl in
  match tl !! c, tl !! e with
  | Some item_c, Some item_e =>
      swap_buy_ok swap_ceiling_wh item_c && swap_sell_ok soc prof c item_c e item_e
  | _, _ => false
  end.

(** What holds of an accepted swap [(s, d)], chosen on the timeline [tl]:
    it is feasible, no feasible pair has a larger spread, and its spread is
    positive and at least the cycling cost. *)
Definition accepted_swap (soc swap_ceiling_wh : Q)
    (entry : timeline * (nat * nat)) : Prop :=
  let tl := fst entry in
  let s := fst (snd entry) in
  let d := snd (snd entry) in
  swap_pair_ok tl soc swap_ceiling_wh s d = true
  ∧ (∀ c e, swap_pair_ok tl soc swap_ceiling_wh c e = true →
            spread_idx tl c e <= spread_idx tl s d)
  ∧ 0 < spread_idx tl s d
  ∧ 0 <= spread_idx tl s d - CYCLE.

(** No feasible pair with a positive spread is left. *)
Definition no_improving_swap (tl : timeline) (soc swap_ceiling_wh : Q) : Prop :=
  ∀ c e, swap_pair_ok tl soc swap_ceiling_wh c e = true → spread_idx tl c e <= 0.

(** Every accepted swap of the swap pass gains strictly, as the
    specification words it. *)
Definition swaps_strictly_profitable (tl : timeline) (soc swap_ceiling_wh : Q) : Prop :=
  ∀ tl' log, phase_3_swaps cfg tl soc swap_ceiling_wh = Ok (tl', log) →
    Forall (λ entry : timeline * (nat * nat),
              0 < spread_idx (fst entry) (fst (snd entry)) (snd (snd entry)) - CYCLE)
           log.

(** The state of a scan of the swap pass agrees with the pairs visited so
    far: the best pair, when there is one, is feasible and has the recorded
    spread, which is positive; no visited feasible pair has a larger one. *)
Definition search_valid (tl : timeline) (soc swap_ceiling_wh : Q)
    (visited : nat → nat → Prop) (st : option (nat * nat) * Q) : Prop :=
  0 <= snd st
  ∧ match fst st with
    | None => snd st = 0
    | Some (c, e) =>
        swap_pair_ok tl soc swap_ceiling_wh c e = true
        ∧ snd st = spread_idx tl c e
        ∧ 0 < snd st
    end
  ∧ ∀ c e, visited c e → swap_pair_ok tl soc swap_ceiling_wh c e = true →
           spread_idx tl c e <= snd st.

(** The positive import of the slots of hour [h]: what
    [get_hourly_usage_map] holds for that hour. *)
Definition hour_usage (tl : timeline) (h : string) : Q :=
  Qsum (map (λ x, if String.eqb (hour x) h then Qmax 0 (grid_wh x + BIAS) else 0) tl).

(** A usage dict agrees with the timeline. *)
Definition usage_agrees (hourly_usage : gmap string Q) (tl : timeline) : Prop :=
  ∀ h, dict_get hourly_usage h == hour_usage tl h.




End Specification.

(** ** A day on which the swap pass breaches the reserve *)

Definition cfg_day : Settings := {|
  BATTERY_ENERGY_WH := 1000;
  MAX_BATTERY_OUTPUT_PER_QUARTER_WH := 1000;
  LOW_SOC_THROTTLE_WH := 200;
  LOW_SOC_MAX_OUTPUT_PER_QUARTER_WH := 500;
  ADDITIONAL_FEES_TAX_ORE := 40;
  ADDITIONAL_FEES_GRID_ORE := 30;
  BIAS_WH_PER_QUARTER := 0;
  MIN_BATTERY_BUFFER_WH := 150;
  TRY_KEEP_HOURS_BELOW_WH := Some 400;
  PREVIOUS_MONTHLY_HOUR_PEAK_POWER_KW := 4;
  ENABLE_ARBITRAGE := true;
  MIN_PRICE_DIFF_ORE_FOR_SELLING := 20;
  BATTERY_CYCLE_COST_ORE := 5
|}.

(** Three quarters as [setup_timeline] builds them: consumption and solar
    per quarter, [grid_wh] and [batt_wh] at [0]. *)
Definition day_slot (i : nat) (t h : string) (p cons solar : Q) : slot :=
  mkSlot i t h p cons solar 0 0 (cons - solar).

Definition tl_day : timeline :=
  [ day_slot 0 "00:30" "00" 10 0 0;
    day_slot 1 "00:45" "00" 50 110 0;
    day_slot 2 "01:00" "01" 60 940 0 ].

(** A one-slot timeline that drives the simulator below zero. *)
Definition tl_drain : timeline := [ day_slot 0 "00:00" "00" 10 300 0 ].

(** ** A day with a profitable buy/sell pair *)

(** Live mode: the run starts at 00:00 with 500 Wh in the battery. *)
Definition tl_arb : timeline :=
  [ day_slot 0 "00:00" "00" 10 100 0;
    day_slot 1 "00:15" "00" 200 100 0 ].

(** The plan phases 1 to 3 leave for that day: the load is imported. *)
Definition planned_slot (i : nat) (t h : string) (p cons solar grid batt : Q) : slot :=
  mkSlot i t h p cons solar grid batt (cons - solar).

Definition tl_arb_planned : timeline :=
  [ planned_slot 0 "00:00" "00" 10 100 0 100 500;
    planned_slot 1 "00:15" "00" 200 100 0 100 500 ].

(** ** An hour whose reallocation is rolled back *)

(** The settings of the day with a rate limit of 550 Wh per quarter. *)
Definition cfg_tight : Settings := {|
  BATTERY_ENERGY_WH := 1000;
  MAX_BATTERY_OUTPUT_PER_QUARTER_WH := 550;
  LOW_SOC_THROTTLE_WH := 200;
  LOW_SOC_MAX_OUTPUT_PER_QUARTER_WH := 500;
  ADDITIONAL_FEES_TAX_ORE := 40;
  ADDITIONAL_FEES_GRID_ORE := 30;
  BIAS_WH_PER_QUARTER := 0;
  MIN_BATTERY_BUFFER_WH := 150;
  TRY_KEEP_HOURS_BELOW_WH := Some 400;
  PREVIOUS_MONTHLY_HOUR_PEAK_POWER_KW := 4;
  ENABLE_ARBITRAGE := true;
  MIN_PRICE_DIFF_ORE_FOR_SELLING := 20;
  BATTERY_CYCLE_COST_ORE := 5
|}.

(** Both quarters discharge 400 Wh; moving the hour's import to the cheap
    second quarter would have the first discharge 600 Wh. *)
Definition tl_tight : timeline :=
  [ planned_slot 0 "00:00" "00" 50 600 0 200 600;
    planned_slot 1 "00:15" "00" 10 600 0 200 200 ].

(** ** An hour whose import moves to the cheap quarter *)

(** Hour 00 imports 300 Wh in its dear first quarter and 100 Wh in its cheap
    second one, against a load of 100 Wh each; hour 01 runs on the battery. *)
Definition tl_shift : timeline :=
  [ planned_slot 0 "00:00" "00" 50 100 0 300 700;
    planned_slot 1 "00:15" "00" 10 100 0 100 700;
    planned_slot 2 "01:00" "01" 20 200 0 0 500 ].

(** [tl_shift] after the intra-hour reallocation. *)
Definition tl_shifted : timeline :=
  [ planned_slot 0 "00:00" "00" 50 100 0 100 700;
    planned_slot 1 "00:15" "00" 10 100 0 300 700;
    planned_slot 2 "01:00" "01" 20 200 0 0 500 ].

(** ** An hour that imports more than its slots can take *)

(** One quarter that imports 2000 Wh against a load of 100 Wh. *)
Definition tl_over : timeline :=
  [ planned_slot 0 "00:00" "00" 10 100 0 2000 1000 ].

(** ** A swap that gains nothing *)

(** The spread between the two quarters is the cycling cost of [cfg_day]. *)
Definition tl_even : timeline :=
  [ planned_slot 0 "00:00" "00" 50 110 0 100 890;
    planned_slot 1 "00:15" "00" 55 500 0 100 490 ].

(** ** Re-running the cheap-hour fill *)

(** The cheap first quarter exports 100 Wh against a load of 2000 Wh. *)
Definition tl_export : timeline :=
  [ planned_slot 0 "00:00" "00" 1 2000 0 (-100) 1000;
    planned_slot 1 "00:15" "00" 10 500 0 500 1000 ].

(** The same hour with an import of 100 Wh in the first quarter, followed
    by a quarter that exports its solar surplus. *)
Definition tl_fill : timeline :=
  [ planned_slot 0 "00:00" "00" 1 2000 0 100 1000;
    planned_slot 1 "00:15" "00" 10 500 0 500 1000;
    planned_slot 2 "01:00" "01" 5 0 300 (-300) 1000 ].



(** * Definitions for further properties *)

Section Properties.

Context (cfg : Settings).

Abbreviation CAP := (BATTERY_ENERGY_WH cfg).
Abbreviation MAXOUT := (MAX_BATTERY_OUTPUT_PER_QUARTER_WH cfg).
Abbreviation BIAS := (BIAS_WH_PER_QUARTER cfg).
Abbreviation RESERVE := (MIN_BATTERY_BUFFER_WH cfg).
Abbreviation THROTTLE := (LOW_SOC_THROTTLE_WH cfg).
Abbreviation LOWMAX := (LOW_SOC_MAX_OUTPUT_PER_QUARTER_WH cfg).

(** A ceiling [mid] passes the test of a bisection step of
    [calculate_min_peak_limit]: every slot's discharge above the usable
    ceiling is within the rate limit, and the energy above the ceiling is
    within the available energy. *)
Definition peak_feasible (tl : timeline) (available_energy_wh mid : Q) : Prop :=
  Forall (λ x, Qmax 0 (base_net_load_wh x - Qmax 0 (mid - BIAS)) <= MAXOUT) tl
  ∧ Qsum (map (λ x, Qmax 0 (base_net_load_wh x - (mid - BIAS))) tl)
    <= available_energy_wh.

(** The width of the search interval after [n] halvings. *)
Fixpoint halved (n : nat) (w : Q) : Q :=
  match n with O => w | S n' => halved n' (w / 2) end.

(** The second timeline is the first with the import of some slots raised:
    the slots differ at most in [grid_wh], which is nowhere lower. *)
Definition import_raised (tl tl' : timeline) : Prop :=
  Forall2 (λ x y, y = set_grid_wh (grid_wh y) x ∧ grid_wh x <= grid_wh y) tl tl'.

(** Slot [i] meets the test of the safety pass: it discharges more than
    the low-charge rate while the replayed charge entering it is below the
    throttle threshold. *)
Definition throttle_violation (tl : timeline) (soc : Q) (i : nat) : Prop :=
  ∃ x start,
    tl !! i = Some x
    ∧ charge_before soc (sim cfg soc (map grid_wh tl) tl) i = Some start
    ∧ LOWMAX < discharge cfg x
    ∧ start < THROTTLE.

(** The second timeline is the first with the import of some slots raised
    towards their load: the slots differ at most in [grid_wh], which is
    nowhere lower, and the realized import of a slot is at most the larger
    of what it was and the slot's load. *)
Definition import_raised_to_load (tl tl' : timeline) : Prop :=
  Forall2 (λ x y, y = set_grid_wh (grid_wh y) x
                  ∧ grid_wh x <= grid_wh y
                  ∧ grid_wh y + BIAS <= Qmax (grid_wh x + BIAS) (base_net_load_wh x))
          tl tl'.

(** Two timelines with the same input data: the slots differ at most in
    the planned [grid_wh] and the tracked [batt_wh]. *)
Definition same_inputs (tl tl' : timeline) : Prop :=
  Forall2 (λ x y, y = set_batt_wh (batt_wh y) (set_grid_wh (grid_wh y) x)) tl tl'.

(** A plan with the tracked charge of every slot set to the simulator's
    replay of the planned imports. *)
Definition replayed (tl : timeline) (soc : Q) : timeline :=
  zip_with set_batt_wh (sim cfg soc (map grid_wh tl) tl) tl.

(** What holds of a history entry of a run on the timeline [tl] from the
    charge [soc]: its timeline has the input data of [tl], its tracked
    charge is the replay of its own imports, and it records the starting
    charge and the monthly peak. *)
Definition snapshot_ok (tl : timeline) (soc : Q) (s : snapshot) : Prop :=
  same_inputs tl (snap_timeline s)
  ∧ current_profile cfg (snap_timeline s) soc = Ok (map batt_wh (snap_timeline s))
  ∧ battery_wh s = soc
  ∧ peak_limit s = PREVIOUS_PEAK_WH cfg.

(** The order of Python's [<=] and [<] on strings. *)
Definition str_le (a b : string) : Prop := String.leb a b = true.
Definition str_lt (a b : string) : Prop := String.ltb a b = true.

(** The price [fetch_prices_as_quarters] gives the quarter at [minute]
    past [hour]: its own price in the response, else the price of the full
    hour, else [0]. *)
Definition quarter_price (raw_prices : gmap string Q) (hour minute : Z) : Q :=
  match raw_prices !! (fmt_02d hour ++ ":" ++ fmt_02d minute)%string with
  | Some p => p
  | None =>
      match raw_prices !! (fmt_02d hour ++ ":00")%string with
      | Some p => p
      | None => 0
      end
  end.

(** The value a schedule holds at time [t] is [w]: the schedule has a key
    at or before [t], and [w] is the entry of the latest such key. *)
Definition schedule_value (schedule : gmap string Q) (t : string) (w : Q) : Prop :=
  ∃ k, schedule !! k = Some w
       ∧ str_le k t
       ∧ ∀ k', is_Some (schedule !! k') → str_le k' t → str_le k' k.

(** The schedule has no key at or before [t]. *)
Definition schedule_unset (schedule : gmap string Q) (t : string) : Prop :=
  ∀ k, is_Some (schedule !! k) → ¬ str_le k t.

(** The level a schedule loop holds after the keys [keys], from the level
    [init]: that of the last key the schedule has, passed through [f]. *)
Definition level (schedule : gmap string Q) (f : Q → Q) (keys : list string) (init : Q)
  : Q :=
  fold_left (λ w t, match schedule !! t with Some v => f v | None => w end) keys init.

(** A slot as [setup_timeline] appends it: nothing planned, nothing
    tracked, the load net of the solar production, the hour taken from the
    time label. *)
Definition fresh_slot (x : slot) : Prop :=
  hour_of (time x) = Ok (hour x)
  ∧ grid_wh x = 0
  ∧ batt_wh x = 0
  ∧ base_net_load_wh x = cons_wh x - solar_wh x.

(** The quarter table with the price of every quarter given by [qp]. *)
Definition table_of (qp : Z → Z → Q) : gmap string Q :=
  fold_left
    (λ quarter_prices hour,
       fold_left (λ quarter_prices minute,
                    <[(fmt_02d hour ++ ":" ++ fmt_02d minute)%string := qp hour minute]>
                      quarter_prices)
                 [0; 15; 30; 45]%Z quarter_prices)
    (map Z.of_nat (seq 0 24)) ∅.

(** The energy cost of a plan in öre, as [generate_reports] totals it: per
    slot the realized import in kWh times the price. *)
Definition plan_cost (tl : timeline) : Q :=
  Qsum (map (λ x, (grid_wh x + BIAS) / 1000 * price x) tl).

(** The spread of a swap of the log of the swap pass. *)
Definition swap_spread (entry : timeline * (nat * nat)) : Q :=
  spread_idx (fst entry) (fst (snd entry)) (snd (snd entry)).

End Properties.

(** ** A feed and the settings of a live run *)

(** [int] on a string of ASCII digits. *)
Fixpoint digits_value (s : string) (acc : Z) : option Z :=
  match s with
  | EmptyString => Some acc
  | String c rest =>
      let n := Z.of_N (N_of_ascii c) in
      if ((48 <=? n) && (n <=? 57))%Z then digits_value rest (10 * acc + (n - 48))%Z
      else None
  end.

Definition int_of_digits (s : string) : option Z :=
  match s with
  | EmptyString => None
  | _ => digits_value s 0
  end.

(** Hourly prices for the first three hours of the day, in SEK per kWh. *)
Definition feed_night : list (string * Q) :=
  [ ("00:00"%string, 1 # 10); ("01:00"%string, 2 # 10); ("02:00"%string, 5 # 10) ].

(** A run started at 00:37, up to 02:00, with consumption steps at 00:00
    and 01:00 and solar production from 01:30. *)
Definition ss_live : SetupSettings := {|
  SIMULATION_START_TIME_DEFAULT := "00:00";
  SIMULATION_END_TIME := "02:00";
  OPTIMIZE_FROM_TIME := Some "00:37"%string;
  OPTIMIZE_OVERRIDE_CURRENT_SOC_KWH := Some (1 # 2);
  NIGHT_CHARGE_WINDOW_START := "00:00";
  NIGHT_CHARGE_WINDOW_END := "02:00";
  CHARGE_DURATION_HOURS := 1;
  DEFAULT_INITIAL_PRICE_ORE := 100;
  HOUSE_CONSUMPTION_FUDGE_FACTOR := 1;
  CONSUMPTION_SCHEDULE_RAW :=
    {[ "00:00"%string := 400; "01:00"%string := 800 ]};
  SOLAR_PRODUCTION_SCHEDULE_RAW := {[ "01:30"%string := 200 ]}
|}.

(** The same settings with a charge duration of seven and a half minutes. *)
Definition ss_short : SetupSettings := {|
  SIMULATION_START_TIME_DEFAULT := "00:00";
  SIMULATION_END_TIME := "02:00";
  OPTIMIZE_FROM_TIME := Some "00:37"%string;
  OPTIMIZE_OVERRIDE_CURRENT_SOC_KWH := Some (1 # 2);
  NIGHT_CHARGE_WINDOW_START := "00:00";
  NIGHT_CHARGE_WINDOW_END := "02:00";
  CHARGE_DURATION_HOURS := 1 # 8;
  DEFAULT_INITIAL_PRICE_ORE := 100;
  HOUSE_CONSUMPTION_FUDGE_FACTOR := 1;
  CONSUMPTION_SCHEDULE_RAW :=
    {[ "00:00"%string := 400; "01:00"%string := 800 ]};
  SOLAR_PRODUCTION_SCHEDULE_RAW := {[ "01:30"%string := 200 ]}
|}.

(** The timeline of the live run: the six quarters from 00:30 to 01:45. *)
Definition tl_live : timeline :=
  Eval vm_compute in
    match setup_timeline cfg_day ss_live int_of_digits (Some feed_night) with
    | Setup_ok tl _ _ => tl
    | _ => []
    end.

(** ** A plan that meets the test of the safety pass *)

(** The first quarter discharges the battery to 150 Wh, below the throttle
    threshold of 200 Wh; the second discharges 510 Wh, above the low-charge
    rate of 500 Wh. *)
Definition tl_throttle : timeline :=
  [ planned_slot 0 "00:00" "00" 10 900 0 50 150;
    planned_slot 1 "00:15" "00" 50 600 0 90 (-360) ].

(** The plan the safety pass leaves: 51 Wh more in the first quarter. *)
Definition tl_throttle_safe : timeline :=
  Eval vm_compute in
    match phase_2_safety_checks cfg_day tl_throttle 1000 with
    | Ok tl => tl
    | Raise _ => []
    end.

(** [tl_even] after a safety fill of 50 Wh up to its second quarter. *)
Definition tl_even_filled : timeline :=
  Eval vm_compute in
    match distribute_smart_safety_fill cfg_day tl_even 50 1 900 with
    | Ok tl => tl
    | Raise _ => []
    end.

(** [tl_fill] after the cheap-hour fill. *)
Definition tl_fill_filled : timeline :=
  Eval vm_compute in
    match phase_smart_fill_cheap_hours cfg_day tl_fill 1000 4000 with
    | Ok tl => tl
    | Raise _ => []
    end.

(** ** The stages of a run on [tl_day] from a full battery *)

Definition tl_day_safe : timeline :=
  Eval vm_compute in
    match phase_2_safety_checks cfg_day
            (fst (phase_1_peak_shaving cfg_day tl_day 1000)) 1000 with
    | Ok tl => tl
    | Raise _ => []
    end.

Definition tl_day_filled : timeline :=
  Eval vm_compute in
    match phase_smart_fill_cheap_hours cfg_day tl_day_safe 1000 4000 with
    | Ok tl => tl
    | Raise _ => []
    end.

Definition plan_day : timeline :=
  Eval vm_compute in
    match run_optimizer cfg_day (Some (tl_day, 1000, 50)) false with
    | Ok (Returned_timeline tl, _) => tl
    | _ => []
    end.

Definition history_day : list snapshot :=
  Eval vm_compute in
    match run_optimizer cfg_day (Some (tl_day, 1000, 50)) true with
    | Ok (Returned_history history, _) => history
    | _ => []
    end.

(** The phase functions a run with arbitrage calls. *)
Definition all_phases : list string :=
  [ "phase_1_peak_shaving"; "phase_2_safety_checks";
    "phase_smart_fill_cheap_hours"; "phase_optimize_within_hours";
    "phase_3_price_optimization"; "phase_4_active_arbitrage" ]%string.

(** [tl_even] after a safety fill of 50 Wh up to its first quarter. *)
Definition tl_even_filled_first : timeline :=
  Eval vm_compute in
    match distribute_smart_safety_fill cfg_day tl_even 50 0 900 with
    | Ok tl => tl
    | Raise _ => []
    end.

(** * Proofs *)

(** ** Comparisons *)

Lemma Qltb_true (a b : Q) : Qltb a b = true ↔ a < b.
Proof.
  unfold Qltb. rewrite negb_true_iff. split.
  - intros H. destruct (Qlt_le_dec a b) as [|Hle]; [done|].
    apply Qle_bool_iff in Hle. congruence.
  - intros H. destruct (Qle_bool b a) eqn:E; [|done].
    apply Qle_bool_iff in E. lra.
Qed.

Lemma Qltb_false (a b : Q) : Qltb a b = false ↔ b <= a.
Proof.
  unfold Qltb. rewrite negb_false_iff. apply Qle_bool_iff.
Qed.

Lemma Qle_bool_false (a b : Q) : Qle_bool a b = false ↔ b < a.
Proof.
  rewrite <- Qltb_true. unfold Qltb. by destruct (Qle_bool a b).
Qed.

(** Case analysis on every comparison of the goal, innermost first, each
    turned into the inequality it decides. *)
Ltac no_if t :=
  lazymatch t with
  | context [if _ then _ else _] => fail
  | _ => idtac
  end.

Ltac qcases :=
  repeat match goal with
  | |- context [Qltb ?a ?b] =>
      no_if a; no_if b;
      let E := fresh "E" in
      destruct (Qltb a b) eqn:E;
      [apply Qltb_true in E | apply Qltb_false in E]
  | |- context [Qle_bool ?a ?b] =>
      no_if a; no_if b;
      let E := fresh "E" in
      destruct (Qle_bool a b) eqn:E;
      [apply Qle_bool_iff in E | apply Qle_bool_false in E]
  end.

Ltac qhyps :=
  repeat match goal with
  | H : Qltb _ _ = true |- _ => apply Qltb_true in H
  | H : Qltb _ _ = false |- _ => apply Qltb_false in H
  | H : Qle_bool _ _ = true |- _ => apply Qle_bool_iff in H
  | H : Qle_bool _ _ = false |- _ => apply Qle_bool_false in H
  end.

(** Case analysis on every [Qmin] and [Qmax] of the goal and the
    hypotheses. *)
Ltac qminmax :=
  repeat match goal with
  | |- context [Qmin ?a ?b] =>
      let H := fresh in let m := fresh "m" in let Em := fresh in
      pose proof (Q.min_spec a b) as H;
      remember (Qmin a b) as m eqn:Em in *; clear Em;
      destruct H as [[? ?]|[? ?]]
  | |- context [Qmax ?a ?b] =>
      let H := fresh in let m := fresh "m" in let Em := fresh in
      pose proof (Q.max_spec a b) as H;
      remember (Qmax a b) as m eqn:Em in *; clear Em;
      destruct H as [[? ?]|[? ?]]
  | H0 : context [Qmin ?a ?b] |- _ =>
      let H := fresh in let m := fresh "m" in let Em := fresh in
      pose proof (Q.min_spec a b) as H;
      remember (Qmin a b) as m eqn:Em in *; clear Em;
      destruct H as [[? ?]|[? ?]]
  | H0 : context [Qmax ?a ?b] |- _ =>
      let H := fresh in let m := fresh "m" in let Em := fresh in
      pose proof (Q.max_spec a b) as H;
      remember (Qmax a b) as m eqn:Em in *; clear Em;
      destruct H as [[? ?]|[? ?]]
  end.

Lemma py_min_spec (a b : Q) : py_min a b == Qmin a b.
Proof.
  unfold py_min. qcases.
  - symmetry. apply Q.min_r. lra.
  - symmetry. apply Q.min_l. lra.
Qed.

Lemma py_min_le_l (a b : Q) : py_min a b <= a.
Proof. unfold py_min. qcases; lra. Qed.

Lemma py_min_le_r (a b : Q) : py_min a b <= b.
Proof. unfold py_min. qcases; lra. Qed.

Lemma py_min_cases (a b : Q) :
  (py_min a b = a ∧ a <= b) ∨ (py_min a b = b ∧ b < a).
Proof. unfold py_min. qcases; [right|left]; split; (done || lra). Qed.

Lemma py_max_cases (a b : Q) :
  (py_max a b = a ∧ b <= a) ∨ (py_max a b = b ∧ a < b).
Proof. unfold py_max. qcases; [right|left]; split; (done || lra). Qed.

Lemma getitem_Ok {A} (l : list A) (i : nat) (x : A) :
  getitem l i = Ok x ↔ l !! i = Some x.
Proof. unfold getitem. destruct (l !! i); split; congruence. Qed.

Lemma getitem_lookup {A} (l : list A) (i : nat) (x : A) :
  l !! i = Some x → getitem l i = Ok x.
Proof. apply getitem_Ok. Qed.

Section Proofs.

Context (cfg : Settings).

Abbreviation CAP := (BATTERY_ENERGY_WH cfg).
Abbreviation MAXOUT := (MAX_BATTERY_OUTPUT_PER_QUARTER_WH cfg).
Abbreviation BIAS := (BIAS_WH_PER_QUARTER cfg).
Abbreviation RESERVE := (MIN_BATTERY_BUFFER_WH cfg).
Abbreviation THROTTLE := (LOW_SOC_THROTTLE_WH cfg).
Abbreviation LOWMAX := (LOW_SOC_MAX_OUTPUT_PER_QUARTER_WH cfg).
Abbreviation CYCLE := (BATTERY_CYCLE_COST_ORE cfg).

Lemma profile_loop_sim (tl : timeline) (grid_cmds : list Q) :
  ∀ curr i acc,
    (length grid_cmds ≤ length (drop i tl))%nat →
    profile_loop cfg tl curr i grid_cmds acc = Ok (acc ++ sim cfg curr grid_cmds (drop i tl)).
Proof.
  induction grid_cmds as [|g gs IH]; intros curr i acc Hlen; simpl.
  - by rewrite app_nil_r.
  - destruct (drop i tl) as [|x xs] eqn:Hd; [simpl in Hlen; lia|].
    assert (Hx : tl !! i = Some x).
    { rewrite <- (Nat.add_0_r i), <- lookup_drop, Hd. done. }
    rewrite (getitem_lookup _ _ _ Hx). cbn.
    assert (Hd' : drop (S i) tl = xs).
    { pose proof (drop_S _ _ _ Hx) as E. rewrite Hd in E. by inversion E. }
    rewrite IH.
    + rewrite Hd', <- app_assoc. done.
    + rewrite Hd'. simpl in Hlen. lia.
Qed.

Lemma calculate_profile_sim (soc : Q) (grid_cmds : list Q) (tl : timeline) :
  (length grid_cmds ≤ length tl)%nat →
  calculate_battery_profile_from_list cfg soc grid_cmds tl = Ok (sim cfg soc grid_cmds tl).
Proof.
  intros H. unfold calculate_battery_profile_from_list.
  rewrite profile_loop_sim; by rewrite ?drop_0.
Qed.

Lemma current_profile_sim (tl : timeline) (soc : Q) :
  current_profile cfg tl soc = Ok (sim cfg soc (map grid_wh tl) tl).
Proof.
  unfold current_profile. apply calculate_profile_sim. by rewrite length_map.
Qed.

Lemma sim_length (grid_cmds : list Q) :
  ∀ curr tl, (length grid_cmds ≤ length tl)%nat →
             length (sim cfg curr grid_cmds tl) = length grid_cmds.
Proof.
  induction grid_cmds as [|g gs IH]; intros curr [|x xs] H; simpl in *; try lia.
  rewrite IH; lia.
Qed.

Lemma next_charge_min (curr g : Q) (x : slot) :
  next_charge cfg curr g x == Qmin CAP (curr + (g + BIAS) - base_net_load_wh x).
Proof.
  unfold next_charge. cbv zeta. qcases.
  - symmetry. apply Q.min_l. lra.
  - rewrite Q.min_r by lra. lra.
Qed.

Lemma next_charge_le_cap (curr g : Q) (x : slot) : next_charge cfg curr g x <= CAP.
Proof. unfold next_charge. cbv zeta. qcases; lra. Qed.

Lemma sim_lookup (grid_cmds : list Q) :
  ∀ curr tl i g x,
    grid_cmds !! i = Some g → tl !! i = Some x →
    ∃ prev, charge_before curr (sim cfg curr grid_cmds tl) i = Some prev
            ∧ sim cfg curr grid_cmds tl !! i = Some (next_charge cfg prev g x).
Proof.
  induction grid_cmds as [|g0 gs IH]; intros curr [|x0 xs] i g x Hg Hx;
    try done.
  destruct i as [|i]; simpl in *.
  - simplify_eq. eauto.
  - destruct (IH (next_charge cfg curr g0 x0) xs i g x Hg Hx) as (prev & Hp & Hs).
    exists prev. split; [|done].
    destruct i; simpl in *; congruence.
Qed.


(** ** The battery profile simulator *)

(** C1. For every starting charge and every sequence of grid commands no
    longer than the timeline, [calculate_battery_profile_from_list] returns
    a profile of the same length whose entry [i] is
    [min(capacity, previous + (grid_cmds[i] + bias) - base_net_load[i])],
    where [previous] is the starting charge for [i = 0] and entry [i - 1]
    otherwise.  Only the upper clamp is applied: an accumulated value below
    zero is returned as it is, so the output can be negative. *)
Theorem C1_profile_recurrence (soc : Q) (grid_cmds : list Q) (tl : timeline)
    (Hlen : (length grid_cmds ≤ length tl)%nat) :
  ∃ profile,
    calculate_battery_profile_from_list cfg soc grid_cmds tl = Ok profile
    ∧ length profile = length grid_cmds
    ∧ ∀ i g x, grid_cmds !! i = Some g → tl !! i = Some x →
        ∃ prev b,
          charge_before soc profile i = Some prev
          ∧ profile !! i = Some b
          ∧ b == Qmin CAP (prev + (g + BIAS) - base_net_load_wh x)
          ∧ (prev + (g + BIAS) - base_net_load_wh x < 0 → b < 0).
Proof.
  exists (sim cfg soc grid_cmds tl). split; [by apply calculate_profile_sim|].
  split; [by apply sim_length|].
  intros i g x Hg Hx.
  destruct (sim_lookup grid_cmds soc tl i g x Hg Hx) as (prev & Hp & Hs).
  exists prev, (next_charge cfg prev g x). repeat split; try done.
  - apply next_charge_min.
  - intros Hneg. unfold next_charge. cbv zeta. qcases; lra.
Qed.

Lemma sim_le_cap (grid_cmds : list Q) :
  ∀ curr tl, Forall (λ b, b <= CAP) (sim cfg curr grid_cmds tl).
Proof.
  induction grid_cmds as [|g gs IH]; intros curr [|x xs]; simpl; try constructor.
  - apply next_charge_le_cap.
  - apply IH.
Qed.

Lemma fold_py_max_le (l : list Q) (bound : Q) :
  ∀ m, m <= bound → Forall (λ b, b <= bound) l → fold_left py_max l m <= bound.
Proof.
  induction l as [|y l IH]; intros m Hm Hl; simpl; [done|].
  inversion Hl; subst. apply IH; [|done].
  destruct (py_max_cases m y) as [[-> _]|[-> _]]; done.
Qed.

(** ** The cheap-hour fill *)

Lemma check_capacity_true (x : slot) (tl : timeline) (soc : Q) :
  check_capacity cfg (x :: tl) soc = Ok true.
Proof.
  unfold check_capacity. rewrite current_profile_sim. cbn.
  pose proof (sim_le_cap (map grid_wh (x :: tl)) soc (x :: tl)) as Hall.
  simpl in Hall. inversion Hall as [|? ? Hhd Htl]; subst.
  f_equal. apply Qle_bool_iff. by apply fold_py_max_le.
Qed.

Lemma add_grid_Ok_cons (tl tl' : timeline) (i : nat) (v : Q) :
  add_grid tl i v = Ok tl' → ∃ x rest, tl' = x :: rest.
Proof.
  unfold add_grid. destruct (getitem tl i) as [y|] eqn:E; [|done].
  cbn. intros [= <-]. apply getitem_Ok in E.
  destruct tl as [|x0 tl]; [done|].
  destruct i; simpl; eauto.
Qed.

Lemma fill_loop_keep_eq (soc limit_wh : Q) (cands : list nat) :
  ∀ tl hourly_usage,
    fill_loop cfg soc limit_wh cands tl hourly_usage
    = fill_loop_keep cfg limit_wh cands tl hourly_usage.
Proof.
  induction cands as [|i rest IH]; intros tl hu; simpl; [done|].
  destruct (getitem tl i) as [item|]; [|done]. cbn.
  destruct (Qltb _ 1); [apply IH|].
  destruct (Qltb _ 1); [apply IH|].
  destruct (add_grid tl i _) as [tl'|] eqn:Ea; [|done]. cbn.
  destruct (dict_add hu _ _) as [hu'|]; [|done]. cbn.
  destruct (add_grid_Ok_cons _ _ _ _ Ea) as (x & xs & ->).
  rewrite check_capacity_true. cbn. apply IH.
Qed.

(** C9. The capacity re-check of the cheap-hour fill always succeeds: on
    every non-empty timeline [check_capacity] returns [True], because the
    simulator clamps every profile entry at capacity.  Hence the rollback
    branch is never taken: the loop of the phase computes what the same
    loop without re-check and rollback computes, every tentative increase
    being kept. *)
Theorem C9_capacity_recheck_never_fails
    (x : slot) (tl : timeline) (soc limit_wh : Q) :
  check_capacity cfg (x :: tl) soc = Ok true
  ∧ ∀ cands tl' hourly_usage,
      fill_loop cfg soc limit_wh cands tl' hourly_usage
      = fill_loop_keep cfg limit_wh cands tl' hourly_usage.
Proof.
  split; [apply check_capacity_true|].
  intros. apply fill_loop_keep_eq.
Qed.

(** ** The controller *)

(** C10. When [setup_timeline] delivers no timeline (price data
    unavailable) or a timeline with zero slots, [run_optimizer] returns at
    once without raising: the empty history list when the history is
    requested, [None] otherwise, and no phase function has been called. *)
Theorem C10_empty_input_runs_no_phase (return_history : bool) (soc base_price : Q) :
  run_optimizer cfg None return_history
  = Ok (if return_history then Returned_history [] else Returned_None, [])
  ∧ run_optimizer cfg (Some ([], soc, base_price)) return_history
    = Ok (if return_history then Returned_history [] else Returned_None, []).
Proof. split; reflexivity. Qed.

(** ** Phase 1: peak shaving *)

(** The discharge phase 1 settles on for a slot entered with charge
    [curr_soc], as [peak_shave] computes it. *)
Lemma peak_shave_cons (optimal curr_soc : Q) (item : slot) (rest : timeline) :
  ∃ dis,
    peak_shave cfg optimal curr_soc (item :: rest)
    = set_batt_wh (curr_soc - dis)
        (set_grid_wh (base_net_load_wh item - dis - BIAS) item)
      :: peak_shave cfg optimal (curr_soc - dis) rest
    ∧ (0 <= MAXOUT → 0 <= dis ∧ dis <= MAXOUT)
    ∧ (RESERVE <= curr_soc → RESERVE <= curr_soc - dis)
    ∧ (0 <= MAXOUT → curr_soc < RESERVE → dis = 0)
    ∧ (0 <= MAXOUT → RESERVE <= curr_soc →
       curr_soc - full_discharge cfg optimal item < RESERVE →
       dis == curr_soc - RESERVE
       ∧ import_ceiling cfg optimal < base_net_load_wh item - dis).
Proof.
  cbn [peak_shave]. eexists. split; [reflexivity|].
  unfold full_discharge, import_ceiling, py_max. cbv zeta.
  set (ug := if Qltb (optimal - BIAS) 0 then 0 else optimal - BIAS).
  split; [intros ?; split; qcases; lra|].
  split; [intros ?; qcases; lra|].
  split; [intros ? ?; qcases; first [done | exfalso; lra]|].
  intros H0 H1 H2.
  destruct (Q.max_spec 0 (base_net_load_wh item - ug)) as [[? Hx]|[? Hx]];
    destruct (Q.min_spec MAXOUT (Qmax 0 (base_net_load_wh item - ug)))
      as [[? Hn]|[? Hn]];
    split; qcases; lra.
Qed.

Lemma discharge_set (x : slot) (dis soc : Q) :
  discharge cfg (set_batt_wh soc (set_grid_wh (base_net_load_wh x - dis - BIAS) x))
  == dis.
Proof. unfold discharge. simpl. lra. Qed.

Lemma charge_before_cons (soc b : Q) (l : list Q) (j : nat) :
  charge_before soc (b :: l) (S j) = charge_before b l j.
Proof. by destruct j. Qed.

Lemma peak_shave_length (optimal : Q) (tl : timeline) :
  ∀ curr, length (peak_shave cfg optimal curr tl) = length tl.
Proof. induction tl as [|x tl IH]; intros curr; simpl; [done|]. by rewrite IH. Qed.

Lemma peak_shave_spec (optimal : Q) (Hrate : 0 <= MAXOUT) (tl : timeline) :
  ∀ curr,
    let tl' := peak_shave cfg optimal curr tl in
    Forall (λ x, 0 <= discharge cfg x ∧ discharge cfg x <= MAXOUT) tl'
    ∧ Forall (λ x, Qmin curr RESERVE <= batt_wh x) tl'
    ∧ Qsum (map (discharge cfg) tl') <= Qmax 0 (curr - RESERVE)
    ∧ (RESERVE <= curr →
       ∀ i x x' prev,
         tl !! i = Some x → tl' !! i = Some x' →
         charge_before curr (map batt_wh tl') i = Some prev →
         prev - full_discharge cfg optimal x < RESERVE →
         discharge cfg x' == prev - RESERVE
         ∧ import_ceiling cfg optimal < grid_wh x' + BIAS).
Proof.
  induction tl as [|item rest IH]; intros curr tl'.
  - subst tl'. simpl. split; [constructor|]. split; [constructor|]. split.
    + unfold Qsum. simpl. qminmax; lra.
    + intros ? i ? ? ? Hi. by destruct i.
  - destruct (peak_shave_cons optimal curr item rest)
      as (dis & Heq & Hdis & Hres & Hzero & Hcap).
    subst tl'. rewrite Heq. clear Heq.
    destruct (IH (curr - dis)) as (IH1 & IH2 & IH3 & IH4). clear IH.
    destruct (Hdis Hrate) as [Hd0 Hd1].
    assert (Hmin : Qmin curr RESERVE <= Qmin (curr - dis) RESERVE).
    { destruct (Qlt_le_dec curr RESERVE) as [Hlt|Hge].
      - rewrite (Hzero Hrate Hlt). qminmax; lra.
      - specialize (Hres Hge). qminmax; lra. }
    split; [|split; [|split]].
    + constructor; [|done]. rewrite discharge_set. done.
    + constructor.
      * simpl. destruct (Qlt_le_dec curr RESERVE) as [Hlt|Hge].
        -- rewrite (Hzero Hrate Hlt). qminmax; lra.
        -- specialize (Hres Hge). qminmax; lra.
      * eapply Forall_impl; [exact IH2|]. intros y Hy. simpl in Hy. lra.
    + cbn [map]. change (Qsum (?a :: ?l)) with (a + Qsum l).
      rewrite discharge_set.
      destruct (Qlt_le_dec curr RESERVE) as [Hlt|Hge].
      * rewrite (Hzero Hrate Hlt) in *. qminmax; lra.
      * specialize (Hres Hge). qminmax; lra.
    + intros Hge i x x' prev Hx Hx' Hprev Hfull.
      destruct i as [|j].
      * simpl in Hx, Hx', Hprev. simplify_eq.
        destruct (Hcap Hrate Hge Hfull) as [Hc1 Hc2].
        rewrite discharge_set. split; [done|]. simpl. lra.
      * cbn [map] in Hprev. rewrite charge_before_cons in Hprev.
        simpl in Hx, Hx', Hprev.
        eapply (IH4 (Hres Hge) j); eauto.
Qed.

(** C6. After [phase_1_peak_shaving] with a non-negative rate
    limit, for every slot the discharge is at least 0 and at most the
    per-slot rate limit; the tracked state of charge never falls below the
    smaller of the starting charge and the reserve; the cumulative discharge
    does not exceed the starting charge minus the reserve, floored at zero.
    When the starting charge is at least the reserve this is the claim as
    worded, and a slot whose full discharge would breach the reserve
    discharges exactly the charge above the reserve while its realized
    import exceeds the ceiling. *)
Theorem C6_peak_shaving_feasible (tl : timeline) (soc : Q)
    (Hrate : 0 <= MAXOUT) :
  let optimal := phase_1_optimal cfg tl soc in
  let tl' := fst (phase_1_peak_shaving cfg tl soc) in
  length tl' = length tl
  ∧ Forall (λ x, 0 <= discharge cfg x ∧ discharge cfg x <= MAXOUT) tl'
  ∧ Forall (λ x, Qmin soc RESERVE <= batt_wh x) tl'
  ∧ Qsum (map (discharge cfg) tl') <= Qmax 0 (soc - RESERVE)
  ∧ (RESERVE <= soc →
     peak_shaving_claim cfg tl soc
     ∧ ∀ i x x' prev,
         tl !! i = Some x → tl' !! i = Some x' →
         charge_before soc (map batt_wh tl') i = Some prev →
         prev - full_discharge cfg optimal x < RESERVE →
         discharge cfg x' == prev - RESERVE
         ∧ import_ceiling cfg optimal < grid_wh x' + BIAS).
Proof.
  intros optimal tl'.
  destruct (peak_shave_spec optimal Hrate tl soc) as (H1 & H2 & H3 & H4).
  subst tl'. unfold phase_1_peak_shaving. cbn [fst]. fold optimal.
  split; [apply peak_shave_length|].
  repeat (split; [done|]).
  intros Hge. split; [|by apply H4].
  unfold peak_shaving_claim, phase_1_peak_shaving. cbn [fst]. fold optimal.
  split; [done|]. split.
  - eapply Forall_impl; [exact H2|]. intros y Hy. simpl in Hy. qminmax; lra.
  - qminmax; lra.
Qed.

(** ** Loops *)

Lemma enumerate_lookup {A} (l : list A) (k i : nat) (x : A) :
  enumerate l !! k = Some (i, x) ↔ i = k ∧ l !! k = Some x.
Proof.
  unfold enumerate. rewrite lookup_zip_with_Some. split.
  - intros (a & b & [= -> ->] & Ha & Hb).
    apply lookup_seq in Ha as [-> _]. done.
  - intros [-> Hx]. exists k, x. split; [done|]. split; [|done].
    apply lookup_seq. split; [done|]. by apply lookup_lt_Some in Hx.
Qed.

Lemma enumerate_elem {A} (l : list A) (i : nat) (x : A) :
  (i, x) ∈ enumerate l ↔ l !! i = Some x.
Proof.
  rewrite list_elem_of_lookup. split.
  - intros [k Hk]. apply enumerate_lookup in Hk as [-> Hx]. done.
  - intros Hx. exists i. by apply enumerate_lookup.
Qed.

(** A loop whose body either leaves the state alone or raises [e]. *)
Lemma foldM_fixed {A S} (body : S → A → res S) (s0 : S) (e : exn) (l : list A) :
  (∀ x, x ∈ l → body s0 x = Ok s0 ∨ body s0 x = Raise e) →
  (foldM body s0 l = Ok s0 ∨ foldM body s0 l = Raise e)
  ∧ ((∃ x, x ∈ l ∧ body s0 x = Raise e) → foldM body s0 l = Raise e).
Proof.
  induction l as [|y l IH]; intros Hbody.
  - split; [by left|]. intros (x & Hx & _). by apply elem_of_nil in Hx.
  - destruct IH as [IH1 IH2].
    { intros x Hx. apply Hbody. by right. }
    simpl. destruct (Hbody y) as [Hy|Hy]; [by left| |].
    + rewrite Hy. cbn. split; [done|].
      intros (x & Hx & Hr). apply elem_of_cons in Hx as [->|Hx].
      * congruence.
      * apply IH2. eauto.
    + rewrite Hy. cbn. split; [by right|done].
Qed.

(** ** Phase 4: active arbitrage *)

Lemma arb_path_ok_spec (prof : list Q) (ks : list nat) :
  (∀ k, k ∈ ks → (k < length prof)%nat) →
  arb_path_ok cfg prof ks = Ok (forallb (room_for_50 cfg prof) ks).
Proof.
  induction ks as [|k ks IH]; intros Hks; simpl; [done|].
  destruct (lookup_lt_is_Some_2 prof k) as [p Hp]; [apply Hks; by left|].
  rewrite (getitem_lookup _ _ _ Hp). cbn. unfold room_for_50 at 1. rewrite Hp.
  unfold Qltb. destruct (Qle_bool (p + 50) CAP); simpl; [|done].
  apply IH. intros k' Hk'. apply Hks. by right.
Qed.

Lemma seq_range (a n k : nat) : k ∈ seq a n → (a ≤ k < a + n)%nat.
Proof. intros H. apply list_elem_of_In, in_seq in H. lia. Qed.

(** On the initial search state the inner body either skips the pair or
    raises [NameError]. *)
Lemma arb_inner_skip_or_raise (prof : list Q) (tl : timeline)
    (t_b t_s : nat) (item_b item_s : slot) :
  length prof = length tl → tl !! t_s = Some item_s →
  arb_inner cfg prof t_b item_b (None, 0) (t_s, item_s) = Ok (None, 0)
  ∨ arb_inner cfg prof t_b item_b (None, 0) (t_s, item_s) = Raise NameError.
Proof.
  intros Hlen Hs. unfold arb_inner.
  destruct (t_s <=? t_b)%nat eqn:Hbs; [by left|].
  apply Nat.leb_gt in Hbs.
  destruct (Qltb _ (MIN_PRICE_DIFF_ORE_FOR_SELLING cfg)); [by left|].
  destruct (Qltb MAXOUT _); [by left|].
  apply lookup_lt_Some in Hs.
  destruct (lookup_lt_is_Some_2 prof (t_s - 1)) as [p Hp]; [lia|].
  rewrite (getitem_lookup _ _ _ Hp). cbn.
  destruct (_ && _); [by left|].
  rewrite arb_path_ok_spec.
  2:{ intros k Hk. apply seq_range in Hk. lia. }
  cbn. destruct (forallb _ _); simpl; [|by left].
  destruct (Qltb 0 _); [by right|by left].
Qed.

(** The conditions of the inner body, for a pair it does not skip. *)
Lemma arb_inner_raises (prof : list Q) (t_b t_s : nat) (item_b item_s : slot)
    (start_s : Q) :
  (t_b < t_s)%nat →
  MIN_PRICE_DIFF_ORE_FOR_SELLING cfg <= arb_profit cfg item_b item_s →
  0 < arb_profit cfg item_b item_s →
  discharge cfg item_s + 50 <= MAXOUT →
  prof !! (t_s - 1)%nat = Some start_s →
  (THROTTLE <= start_s ∨ discharge cfg item_s + 50 <= LOWMAX) →
  forallb (room_for_50 cfg prof) (seq t_b (t_s - t_b)) = true →
  arb_inner cfg prof t_b item_b (None, 0) (t_s, item_s) = Raise NameError.
Proof.
  intros Hbs Hmin Hpos Hrate Hp Hthr Hpath. unfold arb_inner.
  unfold arb_profit, discharge in *.
  destruct (t_s <=? t_b)%nat eqn:E; [apply Nat.leb_le in E; lia|].
  destruct (Qltb _ (MIN_PRICE_DIFF_ORE_FOR_SELLING cfg)) eqn:E1;
    [qhyps; lra|].
  destruct (Qltb MAXOUT _) eqn:E2; [qhyps; lra|].
  rewrite (getitem_lookup _ _ _ Hp). cbn.
  destruct (_ && _) eqn:E3.
  { apply andb_true_iff in E3 as [E3 E4]. qhyps. lra. }
  rewrite arb_path_ok_spec.
  2:{ intros k Hk. apply seq_range in Hk. apply lookup_lt_Some in Hp. lia. }
  cbn. rewrite Hpath. simpl.
  destruct (Qltb 0 _) eqn:E5; [done|]. qhyps. lra.
Qed.

Lemma arb_outer_skip_or_raise (tl : timeline) (soc : Q)
    (hourly_usage : gmap string Q) (prof : list Q) (t_b : nat) (item_b : slot) :
  length prof = length tl → tl !! t_b = Some item_b →
  arb_outer cfg tl soc hourly_usage prof (None, 0) (t_b, item_b) = Ok (None, 0)
  ∨ arb_outer cfg tl soc hourly_usage prof (None, 0) (t_b, item_b) = Raise NameError.
Proof.
  intros Hlen Hb. unfold arb_outer.
  destruct (Qltb _ 50); [by left|].
  assert (Hstart : ∃ p, (if (t_b =? 0)%nat then Ok soc else getitem prof (t_b - 1)) = Ok p).
  { destruct (t_b =? 0)%nat eqn:E; [eauto|]. apply Nat.eqb_neq in E.
    apply lookup_lt_Some in Hb.
    destruct (lookup_lt_is_Some_2 prof (t_b - 1)) as [p Hp]; [lia|].
    exists p. by apply getitem_lookup. }
  destruct Hstart as [p ->]. cbn.
  destruct (Qle_bool _ p); [by left|].
  apply foldM_fixed. intros [t_s item_s] Hs. apply enumerate_elem in Hs.
  by eapply arb_inner_skip_or_raise.
Qed.

Lemma charge_before_getitem (soc : Q) (prof : list Q) (i : nat) (p : Q) :
  charge_before soc prof i = Some p →
  (if (i =? 0)%nat then Ok soc else getitem prof (i - 1)) = Ok p.
Proof.
  destruct i as [|j]; simpl; [congruence|].
  rewrite Nat.sub_0_r. apply getitem_lookup.
Qed.

(** The scan of phase 4 never returns a pair: it finds none or raises. *)
Lemma find_best_arb_none_or_raise (tl : timeline) (soc : Q)
    (hourly_usage : gmap string Q) :
  find_best_arb cfg tl soc hourly_usage = Ok None
  ∨ find_best_arb cfg tl soc hourly_usage = Raise NameError.
Proof.
  unfold find_best_arb. rewrite current_profile_sim. cbn.
  set (prof := sim cfg soc (map grid_wh tl) tl).
  assert (Hlen : length prof = length tl).
  { subst prof. rewrite sim_length; rewrite length_map; done. }
  destruct (foldM_fixed (arb_outer cfg tl soc hourly_usage prof) (None, 0)
              NameError (enumerate tl)) as [[H|H] _].
  - intros [t_b item_b] Hb. apply enumerate_elem in Hb.
    by apply arb_outer_skip_or_raise.
  - rewrite H. by left.
  - rewrite H. by right.
Qed.

(** A pair that satisfies the conditions with a positive profit makes the
    scan raise. *)
Lemma find_best_arb_raises (tl : timeline) (soc : Q) (b s : nat)
    (item_b item_s : slot) :
  tl !! b = Some item_b → tl !! s = Some item_s →
  arb_pair_ok cfg tl soc b s = true →
  0 < arb_profit cfg item_b item_s →
  find_best_arb cfg tl soc (get_hourly_usage_map cfg tl) = Raise NameError.
Proof.
  intros Hb Hs Hok Hpos. unfold find_best_arb. rewrite current_profile_sim. cbn.
  unfold arb_pair_ok in Hok. rewrite Hb, Hs in Hok.
  set (prof := sim cfg soc (map grid_wh tl) tl) in *.
  assert (Hlen : length prof = length tl).
  { subst prof. rewrite sim_length; rewrite length_map; done. }
  destruct (charge_before soc prof b) as [start_b|] eqn:Hsb; [|done].
  destruct (charge_before soc prof s) as [start_s|] eqn:Hss; [|done].
  repeat (apply andb_true_iff in Hok as [Hok ?]).
  apply Nat.ltb_lt in Hok.
  destruct (foldM_fixed (arb_outer cfg tl soc (get_hourly_usage_map cfg tl) prof)
              (None, 0) NameError (enumerate tl)) as [_ Hraise].
  { intros [t_b x_b] Hx. apply enumerate_elem in Hx.
    by apply arb_outer_skip_or_raise. }
  rewrite Hraise; [done|].
  exists (b, item_b). split; [by apply enumerate_elem|].
  unfold arb_outer.
  destruct (Qltb _ 50) eqn:E1; [qhyps; lra|].
  rewrite (charge_before_getitem _ _ _ _ Hsb). cbn.
  destruct (Qle_bool _ start_b) eqn:E2; [qhyps; lra|].
  destruct (foldM_fixed (arb_inner cfg prof b item_b) (None, 0) NameError
              (enumerate tl)) as [_ Hraise'].
  { intros [t_s x_s] Hx. apply enumerate_elem in Hx.
    by eapply arb_inner_skip_or_raise. }
  apply Hraise'. exists (s, item_s). split; [by apply enumerate_elem|].
  destruct s as [|s']; [lia|]. simpl in Hss.
  eapply arb_inner_raises; try done; qhyps; try done.
  - replace (S s' - 1)%nat with s' by lia. exact Hss.
  - match goal with H : _ || _ = true |- _ =>
      apply orb_true_iff in H as [H|H]; qhyps; [by left|by right] end.
Qed.

(** Phase 4 never shifts energy: when it returns, no pair was accepted and
    the timeline is the one it was given. *)
Lemma arb_while_unchanged (n : nat) (tl : timeline) (soc : Q)
    (hourly_usage : gmap string Q) (accepted : nat) (r : timeline * nat) :
  arb_while cfg n tl soc hourly_usage accepted = Ok r → r = (tl, accepted).
Proof.
  destruct n as [|n]; simpl; [congruence|].
  destruct (find_best_arb_none_or_raise tl soc hourly_usage) as [-> | ->]; cbn;
    congruence.
Qed.

(** C3. A timeline on which some buy/sell pair satisfies the conditions of
    the active-arbitrage pass with a positive profit makes
    [phase_4_active_arbitrage] raise [NameError]: no pair is selected and
    no energy is shifted. *)
Theorem C3_active_arbitrage_raises (tl : timeline) (soc base_price : Q)
    (b s : nat) (item_b item_s : slot)
    (Hb : tl !! b = Some item_b) (Hs : tl !! s = Some item_s)
    (Hok : arb_pair_ok cfg tl soc b s = true)
    (Hpos : 0 < arb_profit cfg item_b item_s) :
  phase_4_active_arbitrage cfg tl soc base_price = Raise NameError.
Proof.
  unfold phase_4_active_arbitrage, phase_4_arbs. simpl.
  by rewrite (find_best_arb_raises tl soc b s item_b item_s).
Qed.

(** ** Sums *)

Lemma fold_left_Qplus (l : list Q) : ∀ a, fold_left Qplus l a == a + Qsum l.
Proof.
  induction l as [|x l IH]; intros a; simpl.
  - unfold Qsum. simpl. lra.
  - rewrite IH. unfold Qsum. simpl. lra.
Qed.

Lemma py_sum_Qsum (l : list Q) : py_sum l == Qsum l.
Proof. unfold py_sum. rewrite fold_left_Qplus. lra. Qed.

Lemma Qsum_cons (x : Q) (l : list Q) : Qsum (x :: l) = x + Qsum l.
Proof. reflexivity. Qed.

Lemma Qsum_perm (l l' : list Q) : l ≡ₚ l' → Qsum l == Qsum l'.
Proof.
  induction 1 as [|x l l' _ IH|x y l|l l' l'' _ IH1 _ IH2].
  - reflexivity.
  - rewrite !Qsum_cons, IH. reflexivity.
  - rewrite !Qsum_cons. lra.
  - by rewrite IH1.
Qed.

Lemma Qsum_map_ext {A} (f g : A → Q) (l : list A) :
  (∀ x, x ∈ l → f x == g x) → Qsum (map f l) == Qsum (map g l).
Proof.
  induction l as [|x l IH]; intros H; simpl; [reflexivity|].
  rewrite !Qsum_cons, IH, (H x); [reflexivity|by left|].
  intros y Hy. apply H. by right.
Qed.

Lemma Qsum_map_le {A} (f g : A → Q) (l : list A) :
  (∀ x, x ∈ l → f x <= g x) → Qsum (map f l) <= Qsum (map g l).
Proof.
  induction l as [|x l IH]; intros H; simpl; [unfold Qsum; simpl; lra|].
  rewrite !Qsum_cons.
  assert (f x <= g x) by (apply H; by left).
  assert (Qsum (map f l) <= Qsum (map g l)).
  { apply IH. intros y Hy. apply H. by right. }
  lra.
Qed.

(** ** Slots selected from [enumerate] *)

Lemma filter_enumerate_elem {A} (P : nat * A → bool) (l : list A) (i : nat) (x : A) :
  (i, x) ∈ List.filter P (enumerate l) ↔ l !! i = Some x ∧ P (i, x) = true.
Proof.
  rewrite list_elem_of_In, filter_In, <- list_elem_of_In, enumerate_elem. done.
Qed.

Lemma NoDup_fst_filter {A} (P : nat * A → bool) (l : list (nat * A)) :
  NoDup (map fst l) → NoDup (map fst (List.filter P l)).
Proof.
  induction l as [|c l IH]; simpl; intros H; [constructor|].
  apply NoDup_cons in H as [Hc Hl].
  destruct (P c); simpl; [|by apply IH].
  apply NoDup_cons. split; [|by apply IH].
  intros Hin. apply Hc.
  apply list_elem_of_fmap in Hin as (c' & -> & Hc').
  apply list_elem_of_fmap. exists c'. split; [done|].
  apply list_elem_of_In in Hc'. apply filter_In in Hc' as [Hc' _].
  by apply list_elem_of_In.
Qed.

Lemma fst_enumerate {A} (l : list A) : map fst (enumerate l) = seq 0 (length l).
Proof. unfold enumerate. apply fst_zip. by rewrite length_seq. Qed.

Lemma hour_indices_NoDup (tl : timeline) (h : string) : NoDup (hour_indices tl h).
Proof.
  unfold hour_indices. apply NoDup_fst_filter.
  rewrite fst_enumerate. apply NoDup_seq.
Qed.

Lemma hour_indices_elem (tl : timeline) (h : string) (i : nat) :
  i ∈ hour_indices tl h ↔ ∃ x, tl !! i = Some x ∧ hour x = h.
Proof.
  unfold hour_indices. rewrite list_elem_of_fmap. split.
  - intros ([j x] & -> & Hx). apply filter_enumerate_elem in Hx as [Hx Hh].
    exists x. split; [done|]. by apply String.eqb_eq in Hh.
  - intros (x & Hx & Hh). exists (i, x). split; [done|].
    apply filter_enumerate_elem. split; [done|]. by apply String.eqb_eq.
Qed.

(** The indicator sum over a list is the sum over the selected entries. *)
Lemma Qsum_filter_zip (P : slot → bool) (f : slot → Q) (l : timeline) :
  ∀ s,
    Qsum (map (λ x, if P x then f x else 0) l)
    == Qsum (map (λ c : nat * slot, f (snd c))
               (List.filter (λ c : nat * slot, P (snd c)) (zip (seq s (length l)) l))).
Proof.
  induction l as [|x l IH]; intros s; simpl; [reflexivity|].
  rewrite Qsum_cons, (IH (S s)).
  destruct (P x); simpl; [by rewrite Qsum_cons|lra].
Qed.

(** The selected positions depend on the hours only. *)
Lemma fst_filter_zip_hours (h : string) (l l' : timeline) :
  Forall2 (λ x y, hour x = hour y) l l' →
  ∀ s,
    map fst (List.filter (λ c : nat * slot, String.eqb (hour (snd c)) h)
               (zip (seq s (length l)) l))
    = map fst (List.filter (λ c : nat * slot, String.eqb (hour (snd c)) h)
                 (zip (seq s (length l')) l')).
Proof.
  induction 1 as [|x y l l' Hxy _ IH]; intros s; simpl; [done|].
  rewrite Hxy. destruct (String.eqb (hour y) h); simpl; by rewrite (IH (S s)).
Qed.

Lemma get_all_spec (tl : timeline) (l : list (nat * slot)) :
  Forall (λ c, tl !! fst c = Some (snd c)) l →
  get_all tl (map fst l) = Ok (map snd l).
Proof.
  induction 1 as [|c l Hc _ IH]; simpl; [done|].
  rewrite (getitem_lookup _ _ _ Hc). cbn. rewrite IH. done.
Qed.

(** The slots of hour [h], in timeline order. *)
Lemma hour_quarters (tl : timeline) (h : string) :
  let sel := List.filter (λ c : nat * slot, String.eqb (hour (snd c)) h) (enumerate tl) in
  hour_indices tl h = map fst sel
  ∧ get_all tl (hour_indices tl h) = Ok (map snd sel)
  ∧ Forall (λ c, tl !! fst c = Some (snd c) ∧ hour (snd c) = h) sel.
Proof.
  intros sel.
  assert (Hsel : Forall (λ c, tl !! fst c = Some (snd c) ∧ hour (snd c) = h) sel).
  { apply Forall_forall. intros [i x] Hx.
    apply filter_enumerate_elem in Hx as [Hx Hh]. simpl.
    split; [done|]. by apply String.eqb_eq in Hh. }
  split; [done|]. split; [|done].
  apply get_all_spec. eapply Forall_impl; [exact Hsel|]. by intros c [? _].
Qed.

(** ** Writing grid values back *)

Lemma set_grid_wh_twice (g g' : Q) (x : slot) :
  set_grid_wh g' (set_grid_wh g x) = set_grid_wh g' x.
Proof. reflexivity. Qed.

Lemma set_grid_wh_same (x : slot) : set_grid_wh (grid_wh x) x = x.
Proof. by destruct x. Qed.

Lemma store_grid_Ok (tl tl' : timeline) (i : nat) (g : Q) :
  store_grid tl i g = Ok tl' ↔
  ∃ x, tl !! i = Some x ∧ tl' = <[i := set_grid_wh g x]> tl.
Proof.
  unfold store_grid. destruct (getitem tl i) as [x|] eqn:E; cbn.
  - apply getitem_Ok in E. split.
    + intros [= <-]. eauto.
    + intros (y & Hy & ->). congruence.
  - split; [done|]. intros (y & Hy & _).
    apply getitem_lookup in Hy. congruence.
Qed.

(** A loop that stores [f i] at every position [i] of a list. *)
Lemma store_fold_spec (body : timeline → nat → res timeline) (f : nat → res Q) :
  (∀ tl i, body tl i = (g ← f i; store_grid tl i g)) →
  ∀ indices tl tl',
    foldM body tl indices = Ok tl' →
    length tl' = length tl
    ∧ (∀ j, j ∉ indices → tl' !! j = tl !! j)
    ∧ (∀ j, j ∈ indices →
         ∃ g x, f j = Ok g ∧ tl !! j = Some x ∧ tl' !! j = Some (set_grid_wh g x)).
Proof.
  intros Hbody. induction indices as [|i rest IH]; intros tl tl'; simpl.
  - intros [= <-]. split; [done|]. split; [done|].
    intros j Hj. by apply elem_of_nil in Hj.
  - rewrite Hbody. destruct (f i) as [g|] eqn:Ef; [|done]. cbn.
    destruct (store_grid tl i g) as [tl1|] eqn:Es; [|done]. cbn.
    apply store_grid_Ok in Es as (x & Hx & ->).
    intros Hfold. destruct (IH _ _ Hfold) as (Hlen & Hout & Hin). clear IH.
    rewrite length_insert in Hlen.
    split; [done|]. split.
    + intros j Hj. apply not_elem_of_cons in Hj as [Hji Hj].
      rewrite (Hout j Hj). by rewrite list_lookup_insert_ne.
    + intros j Hj. destruct (decide (j ∈ rest)) as [Hr|Hr].
      * destruct (Hin j Hr) as (g' & x1 & Hf' & Hx1 & Hx').
        destruct (decide (i = j)) as [->|Hne].
        -- rewrite list_lookup_insert_eq in Hx1 by (by eapply lookup_lt_Some).
           simplify_eq. exists g', x. by rewrite Hx'.
        -- rewrite list_lookup_insert_ne in Hx1 by done. eauto.
      * apply elem_of_cons in Hj as [->|Hj]; [|done].
        exists g, x. split; [done|]. split; [done|].
        rewrite (Hout i Hr). apply list_lookup_insert_eq. by eapply lookup_lt_Some.
Qed.

Lemma store_fold_total (body : timeline → nat → res timeline) (f : nat → res Q) :
  (∀ tl i, body tl i = (g ← f i; store_grid tl i g)) →
  ∀ indices tl,
    (∀ i, i ∈ indices → (i < length tl)%nat ∧ ∃ g, f i = Ok g) →
    ∃ tl', foldM body tl indices = Ok tl'.
Proof.
  intros Hbody. induction indices as [|i rest IH]; intros tl Hall; simpl; [eauto|].
  destruct (Hall i) as [Hi [g Hg]]; [by left|].
  rewrite Hbody, Hg. cbn.
  destruct (lookup_lt_is_Some_2 tl i Hi) as [x Hx].
  unfold store_grid. rewrite (getitem_lookup _ _ _ Hx). cbn.
  apply IH. intros j Hj. rewrite length_insert. apply Hall. by right.
Qed.

(** The dict [original_grids]. *)
Lemma original_grids_spec (tl : timeline) (indices : list nat) :
  ∀ d og,
    foldM (λ (d : gmap nat Q) i, x ← getitem tl i; Ok (<[i := grid_wh x]> d)) d indices
    = Ok og →
    ∀ i, i ∈ indices → ∃ x, tl !! i = Some x ∧ og !! i = Some (grid_wh x).
Proof.
  induction indices as [|i rest IH]; intros d og; simpl.
  - intros _ j Hj. by apply elem_of_nil in Hj.
  - destruct (getitem tl i) as [x|] eqn:Ex; [|done]. cbn.
    apply getitem_Ok in Ex. intros Hfold j Hj.
    destruct (decide (j ∈ rest)) as [Hr|Hr]; [by eapply IH|].
    apply elem_of_cons in Hj as [->|Hj]; [|done].
    exists x. split; [done|].
    clear IH. revert d Hfold Hr.
    induction rest as [|k rest IH']; intros d; simpl.
    + intros [= <-] _. apply lookup_insert_eq.
    + destruct (getitem tl k) as [y|]; [|done]. cbn.
      intros Hfold Hr. apply not_elem_of_cons in Hr as [Hne Hr].
      destruct (decide (i = k)); [done|].
      rewrite insert_insert_ne in Hfold by done. by eapply IH'.
Qed.

Lemma original_grids_total (tl : timeline) (indices : list nat) :
  ∀ d, (∀ i, i ∈ indices → (i < length tl)%nat) →
       ∃ og, foldM (λ (d : gmap nat Q) i, x ← getitem tl i; Ok (<[i := grid_wh x]> d))
               d indices = Ok og.
Proof.
  induction indices as [|i rest IH]; intros d Hall; simpl; [eauto|].
  destruct (lookup_lt_is_Some_2 tl i) as [x Hx]; [apply Hall; by left|].
  rewrite (getitem_lookup _ _ _ Hx). cbn. apply IH.
  intros j Hj. apply Hall. by right.
Qed.

Lemma track_slot_lookup (tl : timeline) (soc : Q) (i : nat) (x : slot) :
  tl !! i = Some x →
  track_slot cfg tl soc i = Ok (soc - (base_net_load_wh x - (grid_wh x + BIAS))).
Proof. intros Hx. unfold track_slot. by rewrite (getitem_lookup _ _ _ Hx). Qed.

Lemma track_fold_total (tl : timeline) (indices : list nat) :
  ∀ soc, (∀ i, i ∈ indices → (i < length tl)%nat) →
         ∃ soc', foldM (track_slot cfg tl) soc indices = Ok soc'.
Proof.
  induction indices as [|i rest IH]; intros soc Hall; cbn [foldM]; [eauto|].
  destruct (lookup_lt_is_Some_2 tl i) as [x Hx]; [apply Hall; by left|].
  rewrite (track_slot_lookup _ _ _ _ Hx). cbn. apply IH.
  intros j Hj. apply Hall. by right.
Qed.

Lemma validate_slot_lookup (tl : timeline) (st : Q * bool) (i : nat) (x : slot) :
  tl !! i = Some x → ∃ st', validate_slot cfg tl st i = Ok st'.
Proof.
  intros Hx. destruct st as [temp_soc valid]. unfold validate_slot.
  rewrite (getitem_lookup _ _ _ Hx). cbn. eauto.
Qed.

Lemma validate_fold_total (tl : timeline) (indices : list nat) :
  ∀ st, (∀ i, i ∈ indices → (i < length tl)%nat) →
        ∃ st', foldM (validate_slot cfg tl) st indices = Ok st'.
Proof.
  induction indices as [|i rest IH]; intros st Hall; cbn [foldM]; [eauto|].
  destruct (lookup_lt_is_Some_2 tl i) as [x Hx]; [apply Hall; by left|].
  destruct (validate_slot_lookup tl st i x Hx) as [st' ->]. cbn. apply IH.
  intros j Hj. apply Hall. by right.
Qed.

(** Writing a tentative assignment to the slots at [indices] and then the
    saved grids back gives the timeline one started from. *)
Lemma store_then_restore (tl tl1 tl2 : timeline) (indices : list nat)
    (write restore : timeline → nat → res timeline)
    (f : nat → res Q) (og : gmap nat Q) :
  (∀ tl i, write tl i = (g ← f i; store_grid tl i g)) →
  (∀ tl i, restore tl i = (g ← getkey og i; store_grid tl i g)) →
  (∀ i, i ∈ indices → ∃ x, tl !! i = Some x ∧ og !! i = Some (grid_wh x)) →
  foldM write tl indices = Ok tl1 →
  foldM restore tl1 indices = Ok tl2 →
  tl2 = tl.
Proof.
  intros Hw Hr Hog H1 H2.
  destruct (store_fold_spec write f Hw _ _ _ H1) as (Hlen1 & Hout1 & Hin1).
  destruct (store_fold_spec restore (getkey og) Hr _ _ _ H2) as (Hlen2 & Hout2 & Hin2).
  apply list_eq. intros j.
  destruct (decide (j ∈ indices)) as [Hj|Hj].
  - destruct (Hin1 j Hj) as (g1 & x & _ & Hx & Hx1).
    destruct (Hin2 j Hj) as (g2 & x1 & Hg2 & Hx1' & Hx2).
    destruct (Hog j Hj) as (x' & Hx' & Hogj).
    simplify_eq. unfold getkey in Hg2. rewrite Hogj in Hg2. simplify_eq.
    rewrite Hx2, Hx. f_equal. rewrite set_grid_wh_twice. apply set_grid_wh_same.
  - by rewrite (Hout2 j Hj), (Hout1 j Hj).
Qed.

(** ** Sorting *)

Lemma insert_by_perm {A} (key : A → Q) (x : A) (l : list A) :
  insert_by key x l ≡ₚ x :: l.
Proof.
  induction l as [|y l IH]; simpl; [done|].
  destruct (Qle_bool (key x) (key y)); [done|].
  rewrite IH. apply Permutation_swap.
Qed.

Lemma sort_by_perm {A} (key : A → Q) (l : list A) : sort_by key l ≡ₚ l.
Proof.
  induction l as [|x l IH]; simpl; [done|].
  unfold sort_by in *. simpl. rewrite insert_by_perm. by rewrite IH.
Qed.

(** ** The allocation of an hour's budget *)

Lemma dict_get_Some {K} `{Countable K} (d : gmap K Q) (k : K) (v : Q) :
  d !! k = Some v → dict_get d k = v.
Proof. unfold dict_get. by intros ->. Qed.

Lemma py_min_nonneg (a b : Q) : 0 <= a → 0 <= b → 0 <= py_min a b.
Proof. intros. unfold py_min. qcases; lra. Qed.

Lemma py_max_spec (a b : Q) : py_max a b == Qmax a b.
Proof.
  unfold py_max. qcases.
  - symmetry. apply Q.max_r. lra.
  - symmetry. apply Q.max_l. lra.
Qed.

(** The dict comprehension gives every quarter the allocation [0]. *)
Lemma allocated_init (l : list slot) :
  ∀ (a : gmap nat Q) k,
    k ∈ map index l →
    fold_left (λ (a : gmap nat Q) q, <[index q := 0]> a) l a !! k = Some 0.
Proof.
  induction l as [|q0 l IH]; intros a k Hk; simpl.
  - by apply elem_of_nil in Hk.
  - destruct (decide (k ∈ map index l)) as [Hl|Hl]; [by apply IH|].
    cbn [map] in Hk. apply elem_of_cons in Hk as [->|Hk]; [|done].
    clear IH. revert a Hl. induction l as [|q1 l IH]; intros a Hl; simpl.
    + apply lookup_insert_eq.
    + cbn [map] in Hl. apply not_elem_of_cons in Hl as [Hne Hl].
      rewrite insert_insert_ne by done. by apply IH.
Qed.

(** The first loop: the budget goes to the quarters' own loads. *)
Lemma allocate_load_fold (l : list slot) :
  ∀ (alloc : gmap nat Q) (rem : Q),
    NoDup (map index l) →
    0 <= rem →
    ∃ alloc' rem',
      fold_left allocate_load l (alloc, rem) = (alloc', rem')
      ∧ 0 <= rem' ∧ rem' <= rem
      ∧ (∀ k, is_Some (alloc !! k) → is_Some (alloc' !! k))
      ∧ (∀ k, k ∉ map index l → alloc' !! k = alloc !! k)
      ∧ (∀ q, q ∈ l → ∃ v, alloc' !! index q = Some v
                           ∧ 0 <= v ∧ v <= Qmax 0 (base_net_load_wh q)
                           ∧ (0 < rem' → v == Qmax 0 (base_net_load_wh q)))
      ∧ Qsum (map (λ q, dict_get alloc' (index q)) l) + rem' == rem.
Proof.
  induction l as [|q l IH]; intros alloc rem Hnd Hrem.
  - exists alloc, rem. simpl. repeat (split; [done || lra|]).
    split; [intros q Hq; by apply elem_of_nil in Hq|].
    unfold Qsum. simpl. lra.
  - cbn [map] in Hnd. apply NoDup_cons in Hnd as [Hq Hnd].
    cbn [fold_left]. unfold allocate_load at 2.
    set (max_take := py_max 0 (base_net_load_wh q)).
    set (take := py_min rem max_take).
    assert (Hmax : max_take == Qmax 0 (base_net_load_wh q)) by apply py_max_spec.
    assert (Hmax0 : 0 <= max_take) by (rewrite Hmax; apply Q.le_max_l).
    assert (Ht0 : 0 <= take) by (by apply py_min_nonneg).
    assert (Ht1 : take <= rem) by apply py_min_le_l.
    assert (Ht2 : take <= max_take) by apply py_min_le_r.
    destruct (IH (<[index q := take]> alloc) (rem - take) Hnd)
      as (alloc' & rem' & Hfold & Hr0 & Hr1 & Hdom & Hout & Hval & Hsum); [lra|].
    exists alloc', rem'. split; [done|]. split; [done|]. split; [lra|].
    assert (Hhead : alloc' !! index q = Some take).
    { rewrite (Hout _ Hq). apply lookup_insert_eq. }
    split; [|split; [|split]].
    + intros k Hk. apply Hdom.
      destruct (decide (index q = k)) as [<-|Hne].
      * rewrite lookup_insert_eq. eauto.
      * by rewrite lookup_insert_ne.
    + intros k Hk. cbn [map] in Hk. apply not_elem_of_cons in Hk as [Hne Hk].
      rewrite (Hout k Hk). by rewrite lookup_insert_ne.
    + intros q' Hq'. apply elem_of_cons in Hq' as [->|Hq']; [|by apply Hval].
      exists take. split; [done|]. split; [done|]. split; [lra|].
      intros Hpos. rewrite <- Hmax.
      destruct (py_min_cases rem max_take) as [[E _]|[E _]]; fold take in E;
        rewrite E in *; lra.
    + cbn [map]. rewrite Qsum_cons, (dict_get_Some _ _ _ Hhead). lra.
Qed.

Lemma getkey_lookup {K} `{Countable K} {A} (d : gmap K A) (k : K) (v : A) :
  d !! k = Some v → getkey d k = Ok v.
Proof. unfold getkey. by intros ->. Qed.

Lemma Qsum_keys_insert_out (l : list slot) (alloc : gmap nat Q) (k : nat) (v : Q) :
  k ∉ map index l →
  Qsum (map (λ q, dict_get (<[k := v]> alloc) (index q)) l)
  = Qsum (map (λ q, dict_get alloc (index q)) l).
Proof.
  intros Hk. f_equal. apply map_ext_in. intros q Hq.
  unfold dict_get. rewrite lookup_insert_ne; [done|].
  intros ->. apply Hk. apply list_elem_of_fmap. exists q.
  split; [done|]. by apply list_elem_of_In.
Qed.

Lemma Qsum_keys_ext (l : list slot) (alloc alloc' : gmap nat Q) :
  (∀ q, q ∈ l → alloc' !! index q = alloc !! index q) →
  Qsum (map (λ q, dict_get alloc' (index q)) l)
  = Qsum (map (λ q, dict_get alloc (index q)) l).
Proof.
  intros H. f_equal. apply map_ext_in. intros q Hq.
  unfold dict_get. rewrite H; [done|]. by apply list_elem_of_In.
Qed.

(** The second loop: what is left goes into the charging headroom. *)
Lemma allocate_charge_spec (l : list slot) :
  ∀ (alloc : gmap nat Q) (rem : Q),
    NoDup (map index l) →
    (∀ q, q ∈ l → ∃ v, alloc !! index q = Some v ∧ 0 <= v) →
    0 <= rem →
    ∃ alloc' rem',
      allocate_charge cfg l alloc rem = Ok (alloc', rem')
      ∧ 0 <= rem'
      ∧ (∀ k, is_Some (alloc !! k) → is_Some (alloc' !! k))
      ∧ (∀ k, k ∉ map index l → alloc' !! k = alloc !! k)
      ∧ Qsum (map (λ q, dict_get alloc' (index q)) l) + rem'
        == Qsum (map (λ q, dict_get alloc (index q)) l) + rem
      ∧ (0 <= MAXOUT →
         (∀ q, q ∈ l → dict_get alloc (index q) == Qmax 0 (base_net_load_wh q)) →
         0 < rem' →
         ∀ q, q ∈ l →
           dict_get alloc' (index q) == Qmax 0 (base_net_load_wh q + MAXOUT)).
Proof.
  induction l as [|q l IH]; intros alloc rem Hnd Hval Hrem.
  - exists alloc, rem. simpl. repeat (split; [done || lra|]).
    intros _ _ _ q Hq. by apply elem_of_nil in Hq.
  - cbn [map] in Hnd. apply NoDup_cons in Hnd as [Hq Hnd].
    destruct (Hval q) as (v & Hv & Hv0); [by left|].
    cbn [allocate_charge]. rewrite (getkey_lookup _ _ _ Hv). cbn.
    set (room := base_net_load_wh q + MAXOUT - v).
    destruct (Qltb 0 room) eqn:Eroom.
    + (* the quarter takes [take] more *)
      apply Qltb_true in Eroom. cbn.
      set (take := py_min rem room).
      assert (Ht0 : 0 <= take) by (apply py_min_nonneg; lra).
      assert (Ht1 : take <= rem) by apply py_min_le_l.
      assert (Ht2 : take <= room) by apply py_min_le_r.
      set (alloc1 := <[index q := v + take]> alloc).
      assert (Hhead1 : alloc1 !! index q = Some (v + take))
        by apply lookup_insert_eq.
      assert (Hsum1 : Qsum (map (λ q, dict_get alloc1 (index q)) l)
                      = Qsum (map (λ q, dict_get alloc (index q)) l))
        by (by apply Qsum_keys_insert_out).
      destruct (Qle_bool (rem - take) 0) eqn:Estop.
      * apply Qle_bool_iff in Estop.
        exists alloc1, (rem - take).
        split; [done|]. split; [lra|]. split; [|split; [|split]].
        -- intros k Hk. subst alloc1.
           destruct (decide (index q = k)) as [<-|Hne].
           ++ rewrite lookup_insert_eq. eauto.
           ++ by rewrite lookup_insert_ne.
        -- intros k Hk. cbn [map] in Hk. apply not_elem_of_cons in Hk as [Hne Hk].
           subst alloc1. by rewrite lookup_insert_ne.
        -- cbn [map]. rewrite !Qsum_cons, Hsum1.
           rewrite (dict_get_Some _ _ _ Hhead1), (dict_get_Some _ _ _ Hv). lra.
        -- intros _ _ Hpos. lra.
      * apply Qle_bool_false in Estop.
        destruct (IH alloc1 (rem - take) Hnd)
          as (alloc' & rem' & Hrun & Hr0 & Hdom & Hout & Hsum & Hfull); [|lra|].
        { intros q' Hq'. destruct (Hval q') as (v' & Hv' & Hv'0); [by right|].
          exists v'. split; [|done]. subst alloc1.
          rewrite lookup_insert_ne; [done|].
          intros E. apply Hq. rewrite E. apply list_elem_of_fmap. eauto. }
        exists alloc', rem'. split; [done|]. split; [done|].
        assert (Hhead : alloc' !! index q = Some (v + take)).
        { rewrite (Hout _ Hq). done. }
        split; [|split; [|split]].
        -- intros k Hk. apply Hdom. subst alloc1.
           destruct (decide (index q = k)) as [<-|Hne].
           ++ rewrite lookup_insert_eq. eauto.
           ++ by rewrite lookup_insert_ne.
        -- intros k Hk. cbn [map] in Hk. apply not_elem_of_cons in Hk as [Hne Hk].
           rewrite (Hout k Hk). subst alloc1. by rewrite lookup_insert_ne.
        -- cbn [map]. rewrite !Qsum_cons.
           rewrite (dict_get_Some _ _ _ Hhead), (dict_get_Some _ _ _ Hv).
           rewrite Hsum1 in Hsum. lra.
        -- intros Hmax Hload Hpos q' Hq'.
           apply elem_of_cons in Hq' as [->|Hq'].
           ++ rewrite (dict_get_Some _ _ _ Hhead).
              destruct (py_min_cases rem room) as [[E _]|[E _]]; fold take in E.
              { rewrite E in Estop. lra. }
              rewrite E. subst room.
              assert (Hl := Hload q (ltac:(by left))).
              rewrite (dict_get_Some _ _ _ Hv) in Hl.
              qminmax; lra.
           ++ apply Hfull; try done.
              intros q'' Hq''. rewrite <- (Hload q'') by (by right).
              unfold dict_get. subst alloc1. rewrite lookup_insert_ne; [done|].
              intros E. apply Hq. rewrite E. apply list_elem_of_fmap. eauto.
    + (* no room in this quarter *)
      apply Qltb_false in Eroom. cbn.
      destruct (Qle_bool rem 0) eqn:Estop.
      * apply Qle_bool_iff in Estop.
        exists alloc, rem. repeat (split; [done || lra|]).
        intros _ _ Hpos. lra.
      * apply Qle_bool_false in Estop.
        destruct (IH alloc rem Hnd)
          as (alloc' & rem' & Hrun & Hr0 & Hdom & Hout & Hsum & Hfull); [|lra|].
        { intros q' Hq'. apply Hval. by right. }
        exists alloc', rem'. split; [done|]. split; [done|].
        assert (Hhead : alloc' !! index q = Some v).
        { rewrite (Hout _ Hq). done. }
        split; [done|]. split; [|split].
        -- intros k Hk. cbn [map] in Hk. apply not_elem_of_cons in Hk as [Hne Hk].
           by apply Hout.
        -- cbn [map]. rewrite !Qsum_cons.
           rewrite (dict_get_Some _ _ _ Hhead), (dict_get_Some _ _ _ Hv). lra.
        -- intros Hmax Hload Hpos q' Hq'.
           apply elem_of_cons in Hq' as [->|Hq'].
           ++ rewrite (dict_get_Some _ _ _ Hhead). subst room.
              assert (Hl := Hload q (ltac:(by left))).
              rewrite (dict_get_Some _ _ _ Hv) in Hl.
              qminmax; lra.
           ++ apply Hfull; try done.
              intros q'' Hq''. apply Hload. by right.
Qed.

(** The allocation of an hour: the budget is spread over the quarters, and
    what is left over could not be placed in any of them. *)
Lemma allocate_hour_spec (quarters : list slot) (total : Q) :
  NoDup (map index quarters) →
  0 < total →
  ∃ alloc rem,
    allocate_hour cfg quarters total = Ok (alloc, rem)
    ∧ 0 <= rem
    ∧ (∀ q, q ∈ quarters → is_Some (alloc !! index q))
    ∧ Qsum (map (λ q, dict_get alloc (index q)) quarters) + rem == total
    ∧ (0 <= MAXOUT → 0 < rem →
       Qsum (map (λ q, Qmax 0 (base_net_load_wh q + MAXOUT)) quarters) < total).
Proof.
  intros Hnd Htotal. unfold allocate_hour.
  set (qs := sort_by price quarters).
  assert (Hperm : qs ≡ₚ quarters) by apply sort_by_perm.
  assert (Hnd' : NoDup (map index qs)) by (by rewrite Hperm).
  set (alloc0 := fold_left (λ (a : gmap nat Q) q, <[index q := 0]> a) qs ∅).
  destruct (allocate_load_fold qs alloc0 total Hnd')
    as (alloc1 & rem1 & Hfold & Hr0 & Hr1 & Hdom1 & _ & Hval1 & Hsum1); [lra|].
  rewrite Hfold.
  assert (Hsumperm : ∀ f : slot → Q, Qsum (map f qs) == Qsum (map f quarters)).
  { intros f. apply Qsum_perm. by apply Permutation_map. }
  destruct (Qltb 0 rem1) eqn:E.
  - apply Qltb_true in E.
    destruct (allocate_charge_spec qs alloc1 rem1 Hnd')
      as (alloc2 & rem2 & Hrun & Hr2 & Hdom2 & _ & Hsum2 & Hfull); [|lra|].
    { intros q Hq. destruct (Hval1 q Hq) as (v & Hv & Hv0 & _). eauto. }
    exists alloc2, rem2. split; [done|]. split; [done|].
    split; [|split].
    + intros q Hq. apply Hdom2. rewrite <- Hperm in Hq.
      destruct (Hval1 q Hq) as (v & Hv & _). eauto.
    + rewrite <- Hsumperm. lra.
    + intros Hmax Hpos. rewrite <- Hsumperm.
      assert (Hcap : Qsum (map (λ q, Qmax 0 (base_net_load_wh q + MAXOUT)) qs)
                     == Qsum (map (λ q, dict_get alloc2 (index q)) qs)).
      { apply Qsum_map_ext. intros q Hq. symmetry. apply Hfull; try done.
        intros q' Hq'. destruct (Hval1 q' Hq') as (v & Hv & _ & _ & Hv1).
        rewrite (dict_get_Some _ _ _ Hv). by apply Hv1. }
      rewrite Hcap. lra.
  - apply Qltb_false in E.
    exists alloc1, rem1. split; [done|]. split; [done|].
    split; [|split].
    + intros q Hq. rewrite <- Hperm in Hq.
      destruct (Hval1 q Hq) as (v & Hv & _). eauto.
    + rewrite <- Hsumperm. lra.
    + intros _ Hpos. lra.
Qed.

(** ** One hour of the intra-hour reallocation *)

Lemma bind_Ok {A B} (a : A) (f : A → res B) : (Ok a ≫= f) = f a.
Proof. reflexivity. Qed.

Lemma same_but_grid_of_lookup (tl tl' : timeline) :
  length tl' = length tl →
  (∀ j x, tl !! j = Some x → ∃ g, tl' !! j = Some (set_grid_wh g x)) →
  same_but_grid tl tl'.
Proof.
  intros Hlen Hl. apply Forall2_same_length_lookup_2; [done|].
  intros j x y Hx Hy. destruct (Hl j x Hx) as [g Hg]. by simplify_eq.
Qed.

Lemma same_but_grid_lookup (tl tl' : timeline) (j : nat) (x : slot) :
  same_but_grid tl tl' → tl !! j = Some x →
  ∃ g, tl' !! j = Some (set_grid_wh g x).
Proof.
  intros Hs Hx. destruct (Forall2_lookup_l _ _ _ _ _ Hs Hx) as (y & Hy & E).
  exists (grid_wh y). by rewrite <- E.
Qed.

Lemma same_but_grid_refl (tl : timeline) : same_but_grid tl tl.
Proof.
  apply Forall2_same_length_lookup_2; [done|].
  intros j x y Hx Hy. simplify_eq. symmetry. apply set_grid_wh_same.
Qed.

Lemma same_but_grid_trans (tl tl' tl'' : timeline) :
  same_but_grid tl tl' → same_but_grid tl' tl'' → same_but_grid tl tl''.
Proof.
  intros H1 H2. apply same_but_grid_of_lookup.
  - apply Forall2_length in H1, H2. congruence.
  - intros j x Hx. destruct (same_but_grid_lookup _ _ _ _ H1 Hx) as [g Hg].
    destruct (same_but_grid_lookup _ _ _ _ H2 Hg) as [g' Hg'].
    exists g'. by rewrite Hg'.
Qed.

Lemma same_but_grid_hours (tl tl' : timeline) :
  same_but_grid tl tl' → Forall2 (λ x y, hour x = hour y) tl tl'.
Proof. intros H. eapply Forall2_impl; [exact H|]. by intros x y ->. Qed.

Lemma same_but_grid_well_indexed (tl tl' : timeline) :
  same_but_grid tl tl' → well_indexed tl → well_indexed tl'.
Proof.
  intros Hs Hw j y Hy.
  destruct (Forall2_lookup_r _ _ _ _ _ Hs Hy) as (x & Hx & ->).
  simpl. by apply Hw.
Qed.

Lemma same_but_grid_hour_indices (tl tl' : timeline) (h : string) :
  same_but_grid tl tl' → hour_indices tl' h = hour_indices tl h.
Proof.
  intros Hs. unfold hour_indices, enumerate. symmetry.
  apply fst_filter_zip_hours. by apply same_but_grid_hours.
Qed.

(** The four steps of a tentative assignment. *)
Lemma tentative_hour_Ok (tl tl1 : timeline) (soc total : Q) (indices : list nat)
    (quarters : list slot) (og : gmap nat Q) (v : Q * bool) :
  tentative_hour cfg tl soc indices quarters total = Ok (tl1, og, v) ↔
  ∃ alloc rem,
    allocate_hour cfg quarters total = Ok (alloc, rem)
    ∧ foldM (λ (d : gmap nat Q) i, x ← getitem tl i; Ok (<[i := grid_wh x]> d))
        ∅ indices = Ok og
    ∧ foldM (λ tl i, a ← getkey alloc i; store_grid tl i (a - BIAS)) tl indices
      = Ok tl1
    ∧ foldM (validate_slot cfg tl1) (soc, true) (merge_sort Nat.le indices) = Ok v.
Proof.
  unfold tentative_hour. split.
  - destruct (allocate_hour cfg quarters total) as [[alloc rem]|] eqn:Ea; [|done].
    rewrite bind_Ok. cbv beta iota.
    destruct (foldM _ ∅ indices) as [og'|] eqn:Eo; [|done].
    rewrite bind_Ok. cbv beta.
    destruct (foldM _ tl indices) as [tl1'|] eqn:Ew; [|done].
    rewrite bind_Ok. cbv beta.
    destruct (foldM _ (soc, true) _) as [v'|] eqn:Ev; [|done].
    rewrite bind_Ok. cbv beta.
    intros [= <- <- <-]. exists alloc, rem. done.
  - intros (alloc & rem & Ha & Ho & Hw & Hv).
    rewrite Ha, bind_Ok. cbv beta iota.
    rewrite Ho, bind_Ok. cbv beta.
    rewrite Hw, bind_Ok. cbv beta.
    rewrite Hv, bind_Ok. done.
Qed.

Lemma write_body_eq (alloc : gmap nat Q) (tl : timeline) (i : nat) :
  (a ← getkey alloc i; store_grid tl i (a - BIAS))
  = (g ← (a ← getkey alloc i; Ok (a - BIAS)); store_grid tl i g).
Proof. by destruct (getkey alloc i). Qed.

(** Whatever an hour's step does, it only changes [grid_wh], and only at
    the positions it was given. *)
Lemma reallocate_hour_frame (tl tl' : timeline) (soc soc' : Q) (indices : list nat) :
  reallocate_hour cfg tl soc indices = Ok (tl', soc') →
  length tl' = length tl
  ∧ (∀ j, j ∉ indices → tl' !! j = tl !! j)
  ∧ (∀ j x, tl !! j = Some x → ∃ g, tl' !! j = Some (set_grid_wh g x)).
Proof.
  assert (Hsame : length tl = length tl
    ∧ (∀ j, j ∉ indices → tl !! j = tl !! j)
    ∧ (∀ j x, tl !! j = Some x → ∃ g, tl !! j = Some (set_grid_wh g x))).
  { split; [done|]. split; [done|]. intros j x Hx. exists (grid_wh x).
    by rewrite set_grid_wh_same. }
  unfold reallocate_hour.
  destruct (get_all tl indices) as [quarters|]; [|done]. cbn.
  destruct (Qle_bool _ 0).
  { destruct (foldM _ soc indices); [|done]. cbn. by intros [= <- <-]. }
  destruct (tentative_hour _ _ _ _ _ _) as [[[tl1 og] v]|] eqn:Et; [|done]. cbn.
  apply tentative_hour_Ok in Et as (alloc & rem & Ha & Hog & Hw & Hv).
  destruct (store_fold_spec _ _ (write_body_eq alloc) _ _ _ Hw)
    as (Hlen & Hout & Hin).
  destruct (snd v).
  - intros [= <- <-]. split; [done|]. split; [done|].
    intros j x Hx. destruct (decide (j ∈ indices)) as [Hj|Hj].
    + destruct (Hin j Hj) as (g & x' & _ & Hx' & Hx1). simplify_eq. eauto.
    + exists (grid_wh x). rewrite (Hout j Hj), set_grid_wh_same. done.
  - destruct (foldM _ tl1 indices) as [tl2|] eqn:Hr; [|done]. cbn.
    assert (tl2 = tl) as ->.
    { apply (store_then_restore tl tl1 tl2 indices _ _
               (λ i, a ← getkey alloc i; Ok (a - BIAS)) og
               (write_body_eq alloc) (λ _ _, eq_refl)
               (original_grids_spec tl indices ∅ og Hog) Hw Hr). }
    destruct (foldM _ soc indices); [|done]. cbn. by intros [= <- <-].
Qed.

Lemma intra_hour_frame (tl tl' : timeline) (soc soc' : Q) (h : string) :
  intra_hour cfg (tl, soc) h = Ok (tl', soc') →
  same_but_grid tl tl'
  ∧ (∀ j x, tl !! j = Some x → hour x ≠ h → tl' !! j = Some x).
Proof.
  unfold intra_hour. intros Hrun.
  assert (Hre : (tl', soc') = (tl, soc)
                ∨ reallocate_hour cfg tl soc (hour_indices tl h) = Ok (tl', soc')).
  { destruct (hour_indices tl h); [left; congruence|by right]. }
  destruct Hre as [[= -> ->]|Hre]; [split; [apply same_but_grid_refl|done]|].
  destruct (reallocate_hour_frame _ _ _ _ _ Hre) as (Hlen & Hout & Hin).
  split; [by apply same_but_grid_of_lookup|].
  intros j x Hx Hh. rewrite Hout; [done|].
  intros Hj. apply hour_indices_elem in Hj as (y & Hy & Hyh). congruence.
Qed.

(** ** The loop over the hours *)

Lemma foldM_app {A S} (body : S → A → res S) (l1 l2 : list A) :
  ∀ s, foldM body s (l1 ++ l2) = (s' ← foldM body s l1; foldM body s' l2).
Proof.
  induction l1 as [|x l1 IH]; intros s; simpl; [done|].
  destruct (body s x); cbn; [apply IH|done].
Qed.

Lemma insert_str_perm (x : string) (l : list string) : insert_str x l ≡ₚ x :: l.
Proof.
  induction l as [|y l IH]; simpl; [done|].
  destruct (String.leb x y); [done|]. rewrite IH. apply Permutation_swap.
Qed.

Lemma sorted_set_perm (l : list string) : sorted_set l ≡ₚ remove_dups l.
Proof.
  unfold sorted_set. induction (remove_dups l) as [|x l' IH]; simpl; [done|].
  by rewrite insert_str_perm, IH.
Qed.

Lemma sorted_set_NoDup (l : list string) : NoDup (sorted_set l).
Proof. rewrite sorted_set_perm. apply NoDup_remove_dups. Qed.

Lemma hours_fold_frame (hs : list string) :
  ∀ tl soc tl' soc',
    foldM (intra_hour cfg) (tl, soc) hs = Ok (tl', soc') →
    same_but_grid tl tl' ∧ ∀ h, h ∉ hs → hour_kept h tl tl'.
Proof.
  induction hs as [|h0 hs IH]; intros tl soc tl' soc'; cbn [foldM].
  - intros [= <- <-]. split; [apply same_but_grid_refl|]. by intros h _ j x.
  - destruct (intra_hour cfg (tl, soc) h0) as [[tl1 soc1]|] eqn:E; [|done].
    rewrite bind_Ok. intros Hrest.
    destruct (intra_hour_frame _ _ _ _ _ E) as [Hs1 Hf1].
    destruct (IH _ _ _ _ Hrest) as [Hs2 Hf2].
    split; [by eapply same_but_grid_trans|].
    intros h Hh j x Hx Hxh. apply not_elem_of_cons in Hh as [Hne Hh].
    apply (Hf2 h Hh); [|done]. apply Hf1; [done|congruence].
Qed.

Lemma hour_sum_kept (f : slot → Q) (h : string) (tl tl' : timeline) :
  same_but_grid tl tl' → hour_kept h tl tl' →
  map (λ x, if String.eqb (hour x) h then f x else 0) tl'
  = map (λ x, if String.eqb (hour x) h then f x else 0) tl.
Proof.
  intros Hs Hk. apply list_eq. intros j. rewrite !list_lookup_fmap.
  destruct (tl !! j) as [x|] eqn:Hx.
  - destruct (same_but_grid_lookup _ _ _ _ Hs Hx) as [g Hg].
    destruct (String.eqb (hour x) h) eqn:Eh.
    + apply String.eqb_eq in Eh. rewrite (Hk j x Hx Eh). simpl.
      apply String.eqb_eq in Eh. by rewrite Eh.
    + rewrite Hg. simpl. by rewrite Eh.
  - apply Forall2_length in Hs. apply lookup_ge_None in Hx.
    rewrite (proj2 (lookup_ge_None tl' j)); [done|lia].
Qed.

(** The running charge after tracking the slots of an hour. *)
Lemma track_fold_sum (tl : timeline) (sel : list (nat * slot)) :
  Forall (λ c, tl !! fst c = Some (snd c)) sel →
  ∀ soc soc',
    foldM (track_slot cfg tl) soc (map fst sel) = Ok soc' →
    soc' == soc - Qsum (map (λ c, discharge cfg (snd c)) sel).
Proof.
  induction 1 as [|c sel Hc _ IH]; intros soc soc'; cbn [map foldM].
  - intros [= <-]. unfold Qsum. simpl. lra.
  - rewrite (track_slot_lookup _ _ _ _ Hc), bind_Ok. intros Hrest.
    rewrite (IH _ _ Hrest), Qsum_cons. unfold discharge. lra.
Qed.

Lemma track_hour_sum (tl : timeline) (h : string) (soc soc' : Q) :
  foldM (track_slot cfg tl) soc (hour_indices tl h) = Ok soc' →
  soc' == soc - hour_discharge cfg tl h.
Proof.
  destruct (hour_quarters tl h) as (Hi & _ & Hsel). rewrite Hi. intros Hrun.
  rewrite (track_fold_sum tl _ (Forall_impl _ _ _ Hsel (λ c H, proj1 H)) _ _ Hrun).
  unfold hour_discharge.
  rewrite (Qsum_filter_zip (λ x, String.eqb (hour x) h) (discharge cfg) tl 0).
  reflexivity.
Qed.

Lemma hour_verdict_nonempty (tl : timeline) (soc : Q) (h : string) (b : bool) :
  hour_verdict cfg tl soc h = Ok (Some b) → hour_indices tl h ≠ [].
Proof. unfold hour_verdict. intros Hv E. rewrite E in Hv. done. Qed.

(** An hour whose tentative assignment fails the validation is left as it
    was, and its discharge is tracked on the restored values. *)
Lemma invalid_hour_step (tl : timeline) (soc : Q) (h : string) :
  hour_verdict cfg tl soc h = Ok (Some false) →
  ∃ soc',
    intra_hour cfg (tl, soc) h = Ok (tl, soc')
    ∧ foldM (track_slot cfg tl) soc (hour_indices tl h) = Ok soc'.
Proof.
  unfold hour_verdict, intra_hour.
  destruct (hour_quarters tl h) as (Hi & Hq & Hsel).
  intros Hv.
  assert (Hre : ∃ soc',
    reallocate_hour cfg tl soc (hour_indices tl h) = Ok (tl, soc')
    ∧ foldM (track_slot cfg tl) soc (hour_indices tl h) = Ok soc').
  { unfold reallocate_hour. revert Hv. rewrite Hq, !bind_Ok. cbv beta zeta.
    destruct (Qle_bool _ 0); [done|].
    destruct (tentative_hour _ _ _ _ _ _) as [[[tl1 og] v]|] eqn:Et; [|done].
    rewrite !bind_Ok. cbv beta iota zeta. intros [= Hvalid].
    cbn [snd] in Hvalid. rewrite Hvalid.
    apply tentative_hour_Ok in Et as (alloc & rem & Ha & Hog & Hw & _).
    pose proof (original_grids_spec tl _ ∅ og Hog) as Hogs.
    destruct (store_fold_spec _ _ (write_body_eq alloc) _ _ _ Hw)
      as (Hlen & _ & _).
    destruct (store_fold_total
                (λ tl i, g ← getkey og i; store_grid tl i g) (getkey og)
                (λ _ _, eq_refl) (hour_indices tl h) tl1) as [tl2 Hr].
    { intros i Hin. destruct (Hogs i Hin) as (x & Hx & Hgi).
      split; [rewrite Hlen; by eapply lookup_lt_Some|].
      exists (grid_wh x). by apply getkey_lookup. }
    rewrite Hr, bind_Ok.
    assert (tl2 = tl) as ->.
    { apply (store_then_restore tl tl1 tl2 (hour_indices tl h) _ _
               (λ i, a ← getkey alloc i; Ok (a - BIAS)) og
               (write_body_eq alloc) (λ _ _, eq_refl) Hogs Hw Hr). }
    destruct (track_fold_total tl (hour_indices tl h) soc) as [soc' Ht].
    { intros i Hin. destruct (Hogs i Hin) as (x & Hx & _).
      by eapply lookup_lt_Some. }
    exists soc'. by rewrite Ht, bind_Ok. }
  destruct Hre as (soc' & Hre & Ht). exists soc'. split; [|done].
  pose proof (hour_verdict_nonempty _ _ _ _ Hv) as Hne.
  by destruct (hour_indices tl h).
Qed.

(** C5. In the intra-hour reallocation, an hour whose tentative assignment
    fails the validation is rolled back: every slot of that hour is, after
    the phase, exactly what it was before the phase; the step of that hour
    leaves the timeline as it found it, and the running charge estimate it
    passes on is the one tracked on those original values, the incoming
    estimate less the discharge of the hour's slots. *)
Theorem C5_invalid_hour_rolled_back
    (tl tl_k tl_final : timeline) (soc soc_k : Q)
    (before after : list string) (h : string)
    (Hhours : sorted_set (map hour tl) = before ++ h :: after)
    (Hbefore : foldM (intra_hour cfg) (tl, soc) before = Ok (tl_k, soc_k))
    (Hinvalid : hour_verdict cfg tl_k soc_k h = Ok (Some false))
    (Hrun : phase_optimize_within_hours cfg tl soc = Ok tl_final) :
  (∀ i x, tl !! i = Some x → hour x = h → tl_final !! i = Some x)
  ∧ ∃ soc',
      intra_hour cfg (tl_k, soc_k) h = Ok (tl_k, soc')
      ∧ foldM (track_slot cfg tl_k) soc_k (hour_indices tl_k h) = Ok soc'
      ∧ soc' == soc_k - hour_discharge cfg tl h.
Proof.
  pose proof (sorted_set_NoDup (map hour tl)) as Hnd. rewrite Hhours in Hnd.
  apply NoDup_app in Hnd as (_ & Hnb & Hnd).
  apply NoDup_cons in Hnd as [Hna _].
  assert (Hb : h ∉ before).
  { intros Hin. apply (Hnb h Hin). by left. }
  destruct (hours_fold_frame _ _ _ _ _ Hbefore) as [Hs1 Hk1].
  destruct (invalid_hour_step _ _ _ Hinvalid) as (soc' & Hstep & Htrack).
  unfold phase_optimize_within_hours in Hrun. cbv zeta in Hrun.
  rewrite Hhours, foldM_app, Hbefore, bind_Ok in Hrun.
  cbn [foldM] in Hrun. rewrite Hstep, bind_Ok in Hrun.
  destruct (foldM (intra_hour cfg) (tl_k, soc') after) as [[tl_f soc_f]|] eqn:Ea;
    [|done].
  rewrite bind_Ok in Hrun. cbn [fst] in Hrun. simplify_eq.
  destruct (hours_fold_frame _ _ _ _ _ Ea) as [Hs2 Hk2].
  split.
  - intros i x Hx Hh. apply (Hk2 h Hna); [|done]. by apply (Hk1 h Hb).
  - exists soc'. split; [done|]. split; [done|].
    rewrite (track_hour_sum _ _ _ _ Htrack). unfold hour_discharge.
    by rewrite (hour_sum_kept (discharge cfg) h tl tl_k Hs1 (Hk1 h Hb)).
Qed.

(** ** The import volume of an hour *)

Lemma hour_import_sel (tl : timeline) (h : string) :
  hour_import cfg tl h
  == Qsum (map (λ c : nat * slot, grid_wh (snd c) + BIAS)
             (List.filter (λ c : nat * slot, String.eqb (hour (snd c)) h)
                (enumerate tl))).
Proof.
  unfold hour_import, enumerate.
  apply (Qsum_filter_zip (λ x, String.eqb (hour x) h) (λ x, grid_wh x + BIAS) tl 0).
Qed.

Lemma hour_room_sel (tl : timeline) (h : string) :
  hour_room cfg tl h
  == Qsum (map (λ c : nat * slot, Qmax 0 (base_net_load_wh (snd c) + MAXOUT))
             (List.filter (λ c : nat * slot, String.eqb (hour (snd c)) h)
                (enumerate tl))).
Proof.
  unfold hour_room, enumerate.
  apply (Qsum_filter_zip (λ x, String.eqb (hour x) h)
           (λ x, Qmax 0 (base_net_load_wh x + MAXOUT)) tl 0).
Qed.

(** One hour, on a timeline whose [index] keys are the positions: the step
    returns, the hour's import does not grow, and it is kept whenever it
    fits the room of the hour's slots. *)
Lemma reallocate_hour_spec (tl : timeline) (soc : Q) (h : string) :
  well_indexed tl →
  ∃ tl' soc',
    reallocate_hour cfg tl soc (hour_indices tl h) = Ok (tl', soc')
    ∧ hour_import cfg tl' h <= hour_import cfg tl h
    ∧ (0 <= MAXOUT → hour_import cfg tl h <= hour_room cfg tl h →
       hour_import cfg tl' h == hour_import cfg tl h).
Proof.
  intros Hwf.
  destruct (hour_quarters tl h) as (Hi & Hq & Hsel).
  set (sel := List.filter (λ c : nat * slot, String.eqb (hour (snd c)) h)
                (enumerate tl)) in *.
  set (indices := hour_indices tl h) in *.
  set (quarters := map snd sel) in *.
  assert (Hrange : ∀ i, i ∈ indices → (i < length tl)%nat).
  { intros i Hin. apply hour_indices_elem in Hin as (x & Hx & _).
    by eapply lookup_lt_Some. }
  assert (Hkeys : map index quarters = indices).
  { subst quarters. rewrite Hi, map_map. apply map_ext_Forall.
    eapply Forall_impl; [exact Hsel|]. intros c [Hc _]. simpl. by apply Hwf. }
  unfold reallocate_hour. rewrite Hq, bind_Ok. cbv beta zeta.
  set (total := py_sum (map (λ q, grid_wh q + BIAS) quarters)).
  assert (Htotal : total == hour_import cfg tl h).
  { subst total quarters. rewrite py_sum_Qsum, hour_import_sel, map_map. reflexivity. }
  assert (Hskip : ∃ soc', foldM (track_slot cfg tl) soc indices = Ok soc')
    by (by apply track_fold_total).
  destruct Hskip as [soc_skip Hskip].
  destruct (Qle_bool total 0) eqn:Etot.
  { exists tl, soc_skip. rewrite Hskip, bind_Ok.
    split; [done|]. split; [lra|]. intros _ _. reflexivity. }
  apply Qle_bool_false in Etot.
  destruct (allocate_hour_spec quarters total) as
    (alloc & rem & Ha & Hrem & Hdom & Hsum & Hfull); [|done|].
  { rewrite Hkeys. apply hour_indices_NoDup. }
  destruct (original_grids_total tl indices ∅ Hrange) as [og Hog].
  assert (Hkey : ∀ i, i ∈ indices → ∃ a, alloc !! i = Some a).
  { intros i Hin. rewrite <- Hkeys in Hin.
    apply list_elem_of_fmap in Hin as (q & -> & Hq'). by apply Hdom. }
  destruct (store_fold_total _ _ (write_body_eq alloc) indices tl) as [tl1 Hw].
  { intros i Hin. split; [by apply Hrange|].
    destruct (Hkey i Hin) as [a Ha']. exists (a - BIAS).
    by rewrite (getkey_lookup _ _ _ Ha'). }
  destruct (store_fold_spec _ _ (write_body_eq alloc) _ _ _ Hw)
    as (Hlen & Hout & Hin).
  destruct (validate_fold_total tl1 (merge_sort Nat.le indices) (soc, true))
    as [v Hv].
  { intros i Hi'. rewrite merge_sort_Permutation in Hi'.
    rewrite Hlen. by apply Hrange. }
  assert (Ht : tentative_hour cfg tl soc indices quarters total = Ok (tl1, og, v)).
  { apply tentative_hour_Ok. exists alloc, rem. done. }
  rewrite Ht, bind_Ok. cbv beta iota zeta.
  destruct (snd v).
  - (* the tentative assignment stands *)
    exists tl1, (fst v). split; [done|].
    assert (Hs : same_but_grid tl tl1).
    { apply same_but_grid_of_lookup; [done|]. intros j x Hx.
      destruct (decide (j ∈ indices)) as [Hj|Hj].
      - destruct (Hin j Hj) as (g & x' & _ & Hx' & Hx1). simplify_eq. eauto.
      - exists (grid_wh x). by rewrite (Hout j Hj), set_grid_wh_same. }
    assert (Hnew : hour_import cfg tl1 h == total - rem).
    { rewrite hour_import_sel.
      destruct (hour_quarters tl1 h) as (Hi1 & _ & Hsel1).
      rewrite (same_but_grid_hour_indices _ _ _ Hs) in Hi1. fold indices in Hi1.
      set (sel1 := List.filter (λ c : nat * slot, String.eqb (hour (snd c)) h)
                     (enumerate tl1)) in *.
      transitivity (Qsum (map (λ c : nat * slot, dict_get alloc (fst c)) sel1)).
      - apply Qsum_map_ext. intros [i y] Hc. cbn [fst snd].
        assert (Hc1 : tl1 !! i = Some y).
        { rewrite Forall_forall in Hsel1. by apply (Hsel1 (i, y)). }
        assert (Hci : i ∈ indices).
        { rewrite Hi1. apply list_elem_of_fmap. by exists (i, y). }
        destruct (Hin _ Hci) as (g & x & Hg & _ & Hx1).
        destruct (Hkey _ Hci) as [a Ha'].
        rewrite (getkey_lookup _ _ _ Ha'), bind_Ok in Hg.
        rewrite (dict_get_Some _ _ _ Ha'). simplify_eq. simpl. lra.
      - rewrite <- (map_map fst (dict_get alloc)), <- Hi1, <- Hkeys, map_map. lra. }
    split; [lra|]. intros Hmax Hfit.
    destruct (Qlt_le_dec 0 rem) as [Hpos|Hzero]; [|lra].
    specialize (Hfull Hmax Hpos).
    rewrite hour_room_sel in Hfit. fold sel in Hfit.
    subst quarters. rewrite map_map in Hfull. simpl in Hfull. lra.
  - (* rolled back *)
    destruct (store_fold_total
                (λ tl i, g ← getkey og i; store_grid tl i g) (getkey og)
                (λ _ _, eq_refl) indices tl1) as [tl2 Hr].
    { intros i Hi'.
      destruct (original_grids_spec tl indices ∅ og Hog i Hi') as (x & Hx & Hgi).
      split; [rewrite Hlen; by apply Hrange|].
      exists (grid_wh x). by apply getkey_lookup. }
    rewrite Hr, bind_Ok.
    assert (tl2 = tl) as ->.
    { apply (store_then_restore tl tl1 tl2 indices _ _
               (λ i, a ← getkey alloc i; Ok (a - BIAS)) og
               (write_body_eq alloc) (λ _ _, eq_refl)
               (original_grids_spec tl indices ∅ og Hog) Hw Hr). }
    exists tl, soc_skip. rewrite Hskip, bind_Ok.
    split; [done|]. split; [lra|]. intros _ _. reflexivity.
Qed.

Lemma hour_room_same (tl tl' : timeline) (h : string) :
  same_but_grid tl tl' → hour_room cfg tl' h = hour_room cfg tl h.
Proof.
  intros Hs. unfold hour_room. f_equal.
  induction Hs as [|x y l l' Hxy _ IH]; simpl; [done|].
  rewrite IH, Hxy. done.
Qed.

Lemma hour_import_kept (tl tl' : timeline) (h : string) :
  same_but_grid tl tl' → hour_kept h tl tl' →
  hour_import cfg tl' h = hour_import cfg tl h.
Proof.
  intros Hs Hk. unfold hour_import.
  by rewrite (hour_sum_kept (λ x, grid_wh x + BIAS) h tl tl' Hs Hk).
Qed.

Lemma intra_hour_spec (tl : timeline) (soc : Q) (h : string) :
  well_indexed tl →
  ∃ tl' soc',
    intra_hour cfg (tl, soc) h = Ok (tl', soc')
    ∧ same_but_grid tl tl'
    ∧ (∀ h', h' ≠ h → hour_kept h' tl tl')
    ∧ hour_import cfg tl' h <= hour_import cfg tl h
    ∧ (0 <= MAXOUT → hour_import cfg tl h <= hour_room cfg tl h →
       hour_import cfg tl' h == hour_import cfg tl h).
Proof.
  intros Hwf.
  assert (Hrun : ∃ tl' soc',
    intra_hour cfg (tl, soc) h = Ok (tl', soc')
    ∧ hour_import cfg tl' h <= hour_import cfg tl h
    ∧ (0 <= MAXOUT → hour_import cfg tl h <= hour_room cfg tl h →
       hour_import cfg tl' h == hour_import cfg tl h)).
  { destruct (reallocate_hour_spec tl soc h Hwf) as (tl' & soc' & Hre & Hle & Heq).
    unfold intra_hour. destruct (hour_indices tl h) eqn:E.
    - exists tl, soc. split; [done|]. split; [lra|]. intros _ _. reflexivity.
    - exists tl', soc'. done. }
  destruct Hrun as (tl' & soc' & Hrun & Hle & Heq).
  exists tl', soc'. split; [done|].
  destruct (intra_hour_frame _ _ _ _ _ Hrun) as [Hs Hf].
  split; [done|]. split; [|done].
  intros h' Hne j x Hx Hh. apply Hf; [done|congruence].
Qed.

Lemma hours_fold_spec (hs : list string) :
  NoDup hs →
  ∀ tl soc,
    well_indexed tl →
    ∃ tl' soc',
      foldM (intra_hour cfg) (tl, soc) hs = Ok (tl', soc')
      ∧ ∀ h, hour_import cfg tl' h <= hour_import cfg tl h
             ∧ (0 <= MAXOUT → hour_import cfg tl h <= hour_room cfg tl h →
                hour_import cfg tl' h == hour_import cfg tl h).
Proof.
  induction 1 as [|h0 hs Hh0 Hnd IH]; intros tl soc Hwf; cbn [foldM].
  - exists tl, soc. split; [done|]. intros h. split; [lra|]. intros _ _. reflexivity.
  - destruct (intra_hour_spec tl soc h0 Hwf)
      as (tl1 & soc1 & Hstep & Hs1 & Hk1 & Hle1 & Heq1).
    rewrite Hstep, bind_Ok.
    destruct (IH tl1 soc1 (same_but_grid_well_indexed _ _ Hs1 Hwf))
      as (tl' & soc' & Hrest & Hall).
    exists tl', soc'. split; [done|]. intros h.
    destruct (hours_fold_frame _ _ _ _ _ Hrest) as [Hs2 Hk2].
    destruct (decide (h = h0)) as [->|Hne].
    + rewrite (hour_import_kept tl1 tl' h0 Hs2 (Hk2 h0 Hh0)). done.
    + destruct (Hall h) as [Hle Heq].
      rewrite (hour_import_kept tl tl1 h Hs1 (Hk1 h Hne)) in Hle, Heq.
      rewrite (hour_room_same tl tl1 h Hs1) in Heq. done.
Qed.

(** C4. On a timeline whose [index] keys are the slots'
    positions, the intra-hour reallocation returns a timeline that differs
    from the given one in [grid_wh] only, and for every clock hour the sum
    of [grid_wh + bias] over the hour's slots does not grow; it is the sum
    before the phase whenever that sum does not exceed the room of the hour,
    the sum over its slots of [max(0, base_net_load + rate limit)] (for a
    non-negative rate limit). *)
Theorem C4_hour_import_kept_within_room (tl : timeline) (soc : Q)
    (Hwf : well_indexed tl) :
  ∃ tl',
    phase_optimize_within_hours cfg tl soc = Ok tl'
    ∧ same_but_grid tl tl'
    ∧ ∀ h, hour_import cfg tl' h <= hour_import cfg tl h
           ∧ (0 <= MAXOUT → hour_import cfg tl h <= hour_room cfg tl h →
              hour_import cfg tl' h == hour_import cfg tl h).
Proof.
  destruct (hours_fold_spec _ (sorted_set_NoDup (map hour tl)) tl soc Hwf)
    as (tl' & soc' & Hrun & Hall).
  exists tl'. unfold phase_optimize_within_hours. cbv zeta.
  rewrite Hrun, bind_Ok. split; [done|]. split; [|done].
  by destruct (hours_fold_frame _ _ _ _ _ Hrun).
Qed.

(** ** Phase 3: the swap pass *)

Lemma swap_path_ok_spec (prof : list Q) (ks : list nat) :
  (∀ k, k ∈ ks → (k < length prof)%nat) →
  swap_path_ok cfg prof ks = Ok (forallb (below_cap cfg prof) ks).
Proof.
  induction ks as [|k ks IH]; intros Hks; simpl; [done|].
  destruct (lookup_lt_is_Some_2 prof k) as [p Hp]; [apply Hks; by left|].
  rewrite (getitem_lookup _ _ _ Hp). cbn. unfold below_cap at 1. rewrite Hp.
  unfold Qltb. destruct (Qle_bool (CAP - 1) p); simpl; [done|].
  apply IH. intros k' Hk'. apply Hks. by right.
Qed.

Lemma start_soc_charge_before (soc : Q) (prof : list Q) (i : nat) :
  (i ≤ length prof)%nat →
  ∃ p, charge_before soc prof i = Some p
       ∧ (if (i =? 0)%nat then Ok soc else getitem prof (i - 1)) = Ok p.
Proof.
  intros Hi. destruct i as [|j]; simpl; [eauto|].
  destruct (lookup_lt_is_Some_2 prof j) as [p Hp]; [lia|].
  exists p. split; [done|]. rewrite Nat.sub_0_r. by apply getitem_lookup.
Qed.

(** The inner body takes the pair when it passes the discharge-side
    conditions with a spread above the best so far. *)
Lemma swap_inner_eq (soc : Q) (prof : list Q) (tl : timeline)
    (t_c t_e : nat) (item_c item_e : slot) (st : option (nat * nat) * Q) :
  length prof = length tl → tl !! t_e = Some item_e →
  swap_inner cfg soc prof t_c item_c st (t_e, item_e)
  = Ok (if swap_sell_ok cfg soc prof t_c item_c t_e item_e
           && Qltb (snd st) (price item_e - price item_c)
        then (Some (t_c, t_e), price item_e - price item_c) else st).
Proof.
  intros Hlen He. apply lookup_lt_Some in He.
  unfold swap_inner, swap_sell_ok, discharge, Qltb.
  destruct (t_c =? t_e)%nat; simpl; [done|].
  destruct (Qle_bool CYCLE _); simpl; [|done].
  destruct (Qle_bool MAXOUT _); simpl; [done|].
  destruct (start_soc_charge_before soc prof t_e) as (p & -> & ->); [lia|].
  rewrite bind_Ok.
  destruct (Qle_bool THROTTLE p), (Qle_bool LOWMAX _); simpl; try done.
  all: rewrite Nat.ltb_antisym; destruct (t_c <=? t_e)%nat eqn:Ece; simpl; [|done].
  all: apply Nat.leb_le in Ece.
  all: rewrite swap_path_ok_spec;
    [|intros k Hk; apply seq_range in Hk; lia].
  all: rewrite bind_Ok; destruct (forallb _ _); simpl; [|done].
  all: by destruct (negb (Qle_bool _ (snd st))).
Qed.

Lemma swap_outer_eq (tl : timeline) (soc swap_ceiling_wh : Q) (prof : list Q)
    (t_c : nat) (item_c : slot) (st : option (nat * nat) * Q) :
  swap_outer cfg tl soc swap_ceiling_wh prof st (t_c, item_c)
  = if swap_buy_ok cfg swap_ceiling_wh item_c
    then foldM (swap_inner cfg soc prof t_c item_c) st (enumerate tl)
    else Ok st.
Proof.
  unfold swap_outer, swap_buy_ok, discharge, Qltb.
  destruct (Qle_bool _ 0); simpl; [done|].
  by destruct (Qle_bool swap_ceiling_wh _).
Qed.

Lemma swap_pair_ok_lookup (tl : timeline) (soc ceil : Q) (c e : nat) :
  swap_pair_ok cfg tl soc ceil c e = true →
  ∃ item_c item_e,
    tl !! c = Some item_c ∧ tl !! e = Some item_e
    ∧ swap_buy_ok cfg ceil item_c = true
    ∧ swap_sell_ok cfg soc (sim cfg soc (map grid_wh tl) tl) c item_c e item_e = true.
Proof.
  unfold swap_pair_ok. destruct (tl !! c) as [ic|]; [|done].
  destruct (tl !! e) as [ie|]; [|done].
  intros H. apply andb_true_iff in H as [H1 H2]. by exists ic, ie.
Qed.

Lemma search_valid_weaken (tl : timeline) (soc ceil : Q)
    (V V' : nat → nat → Prop) (st : option (nat * nat) * Q) :
  (∀ c e, V' c e → swap_pair_ok cfg tl soc ceil c e = true → V c e) →
  search_valid cfg tl soc ceil V st → search_valid cfg tl soc ceil V' st.
Proof.
  intros HV (H0 & Hbest & Hall). split; [done|]. split; [done|].
  intros c e Hv Hok. apply Hall; [|done]. by apply HV.
Qed.

(** One pair more is visited. *)
Lemma search_valid_step (tl : timeline) (soc ceil : Q) (V : nat → nat → Prop)
    (st : option (nat * nat) * Q) (c e : nat) (item_c item_e : slot) :
  tl !! c = Some item_c → tl !! e = Some item_e →
  swap_buy_ok cfg ceil item_c = true →
  search_valid cfg tl soc ceil V st →
  search_valid cfg tl soc ceil (λ c' e', V c' e' ∨ (c' = c ∧ e' = e))
    (if swap_sell_ok cfg soc (sim cfg soc (map grid_wh tl) tl) c item_c e item_e
        && Qltb (snd st) (price item_e - price item_c)
     then (Some (c, e), price item_e - price item_c) else st).
Proof.
  intros Hc He Hbuy (H0 & Hbest & Hall).
  assert (Hok : swap_pair_ok cfg tl soc ceil c e
                = swap_sell_ok cfg soc (sim cfg soc (map grid_wh tl) tl) c item_c e item_e).
  { unfold swap_pair_ok. by rewrite Hc, He, Hbuy. }
  assert (Hsp : spread_idx tl c e = price item_e - price item_c).
  { unfold spread_idx. by rewrite Hc, He. }
  destruct (swap_sell_ok _ _ _ _ _ _ _) eqn:Esell; simpl.
  - destruct (Qltb (snd st) _) eqn:Elt; qhyps.
    + split; [simpl; lra|]. split; [simpl; split; [done|split; [done|lra]]|].
      intros c' e' [Hv|[-> ->]] Hok'; simpl.
      * specialize (Hall c' e' Hv Hok'). lra.
      * rewrite Hsp. lra.
    + split; [done|]. split; [done|].
      intros c' e' [Hv|[-> ->]] Hok'; [by apply Hall|]. rewrite Hsp. lra.
  - split; [done|]. split; [done|].
    intros c' e' [Hv|[-> ->]] Hok'; [by apply Hall|]. congruence.
Qed.

Lemma zip_seq_cons {A} (s n : nat) (x : A) (xs : list A) :
  zip (seq s (S n)) (x :: xs) = (s, x) :: zip (seq (S s) n) xs.
Proof. reflexivity. Qed.

Section Scan.

Context (tl : timeline) (soc ceil : Q).

Abbreviation prof := (sim cfg soc (map grid_wh tl) tl).

Lemma prof_length : length prof = length tl.
Proof. rewrite sim_length; by rewrite length_map. Qed.

(** The inner loop, for a charge slot that passes its conditions. *)
Lemma swap_inner_scan (V : nat → nat → Prop) (c : nat) (item_c : slot) :
  tl !! c = Some item_c →
  swap_buy_ok cfg ceil item_c = true →
  ∀ xs s st,
    (∀ k x, xs !! k = Some x → tl !! (s + k)%nat = Some x) →
    search_valid cfg tl soc ceil (λ c' e', V c' e' ∨ (c' = c ∧ (e' < s)%nat)) st →
    ∃ st',
      foldM (swap_inner cfg soc prof c item_c) st (zip (seq s (length xs)) xs) = Ok st'
      ∧ search_valid cfg tl soc ceil
          (λ c' e', V c' e' ∨ (c' = c ∧ (e' < s + length xs)%nat)) st'.
Proof.
  intros Hc Hbuy. induction xs as [|x xs IH]; intros s st Hxs Hst.
  - exists st. split; [done|].
    eapply search_valid_weaken; [|exact Hst]. simpl.
    intros c' e' [?|[? ?]] _; [by left|right; split; [done|lia]].
  - cbn [length]. rewrite zip_seq_cons. cbn [foldM].
    assert (Hs : tl !! s = Some x).
    { rewrite <- (Nat.add_0_r s). by apply Hxs. }
    rewrite (swap_inner_eq soc prof tl c s item_c x st prof_length Hs), bind_Ok.
    destruct (IH (S s)
      (if swap_sell_ok cfg soc prof c item_c s x
          && Qltb (snd st) (price x - price item_c)
       then (Some (c, s), price x - price item_c) else st))
      as (st' & Hrun & Hst').
    + intros k y Hy. replace (S s + k)%nat with (s + S k)%nat by lia.
      by apply Hxs.
    + eapply search_valid_weaken;
        [|exact (search_valid_step tl soc ceil _ st c s item_c x Hc Hs Hbuy Hst)].
      simpl. intros c' e' [?|[? ?]] _; [by left; left|].
      destruct (decide (e' = s)) as [->|]; [by right|].
      left; right. split; [done|lia].
    + exists st'. split; [done|].
      eapply search_valid_weaken; [|exact Hst']. simpl.
      intros c' e' [?|[? ?]] _; [by left|right; split; [done|lia]].
Qed.

(** The outer loop. *)
Lemma swap_outer_scan :
  ∀ xs s st,
    (∀ k x, xs !! k = Some x → tl !! (s + k)%nat = Some x) →
    search_valid cfg tl soc ceil (λ c' _, (c' < s)%nat) st →
    ∃ st',
      foldM (swap_outer cfg tl soc ceil prof) st (zip (seq s (length xs)) xs) = Ok st'
      ∧ search_valid cfg tl soc ceil (λ c' _, (c' < s + length xs)%nat) st'.
Proof.
  induction xs as [|x xs IH]; intros s st Hxs Hst.
  - exists st. split; [done|].
    eapply search_valid_weaken; [|exact Hst]. simpl. intros c' e' ? _. lia.
  - cbn [length]. rewrite zip_seq_cons. cbn [foldM].
    assert (Hs : tl !! s = Some x).
    { rewrite <- (Nat.add_0_r s). by apply Hxs. }
    rewrite swap_outer_eq.
    assert (Hstep : ∃ st1,
      (if swap_buy_ok cfg ceil x
       then foldM (swap_inner cfg soc prof s x) st (enumerate tl) else Ok st) = Ok st1
      ∧ search_valid cfg tl soc ceil (λ c' _, (c' < S s)%nat) st1).
    { destruct (swap_buy_ok cfg ceil x) eqn:Hbuy.
      - destruct (swap_inner_scan (λ c' _, (c' < s)%nat) s x Hs Hbuy tl 0 st)
          as (st1 & Hrun & Hst1).
        + by intros k y Hy.
        + eapply search_valid_weaken; [|exact Hst]. simpl.
          intros c' e' [?|[? ?]] _; [done|lia].
        + exists st1. split; [done|].
          eapply search_valid_weaken; [|exact Hst1]. simpl.
          intros c' e' Hlt Hok.
          destruct (decide (c' = s)) as [->|]; [|left; lia].
          right. split; [done|].
          apply swap_pair_ok_lookup in Hok as (_ & ie & _ & He & _).
          by apply lookup_lt_Some in He.
      - exists st. split; [done|].
        eapply search_valid_weaken; [|exact Hst]. simpl.
        intros c' e' Hlt Hok.
        destruct (decide (c' = s)) as [->|]; [|lia].
        apply swap_pair_ok_lookup in Hok as (ic & _ & Hic & _ & Hb & _).
        rewrite Hs in Hic. injection Hic as <-. congruence. }
    destruct Hstep as (st1 & -> & Hst1). rewrite bind_Ok.
    destruct (IH (S s) st1) as (st' & Hrun & Hst').
    + intros k y Hy. replace (S s + k)%nat with (s + S k)%nat by lia.
      by apply Hxs.
    + done.
    + exists st'. split; [done|].
      eapply search_valid_weaken; [|exact Hst']. simpl. intros c' e' ? _. lia.
Qed.

(** A scan returns; the pair it returns is feasible with the largest
    spread, which is positive; when it returns none, no feasible pair has a
    positive spread. *)
Lemma find_best_swap_spec :
  ∃ st,
    find_best_swap cfg tl soc ceil = Ok (fst st)
    ∧ search_valid cfg tl soc ceil (λ _ _, True) st.
Proof.
  unfold find_best_swap. rewrite current_profile_sim, bind_Ok.
  destruct (swap_outer_scan tl 0 (None, 0)) as (st & Hrun & Hst).
  - by intros k x Hx.
  - split; [simpl; lra|]. split; [done|]. intros c e Hlt. simpl in Hlt. lia.
  - exists st. unfold enumerate. rewrite Hrun, bind_Ok. split; [done|].
    eapply search_valid_weaken; [|exact Hst]. simpl.
    intros c e _ Hok.
    apply swap_pair_ok_lookup in Hok as (ic & _ & Hic & _).
    by apply lookup_lt_Some in Hic.
Qed.

End Scan.

Lemma shift_50_Ok (tl : timeline) (s d : nat) :
  (s < length tl)%nat → (d < length tl)%nat → ∃ tl', shift_50 tl s d = Ok tl'.
Proof.
  intros Hs Hd. unfold shift_50, add_grid, sub_grid.
  destruct (lookup_lt_is_Some_2 tl s Hs) as [x Hx].
  rewrite (getitem_lookup _ _ _ Hx), !bind_Ok.
  destruct (lookup_lt_is_Some_2 (<[s := set_grid_wh (grid_wh x + 50) x]> tl) d)
    as [y Hy]; [by rewrite length_insert|].
  rewrite (getitem_lookup _ _ _ Hy), bind_Ok. eauto.
Qed.

Lemma swap_sell_ok_cycle (soc : Q) (prof : list Q) (c e : nat) (item_c item_e : slot) :
  swap_sell_ok cfg soc prof c item_c e item_e = true →
  CYCLE <= price item_e - price item_c.
Proof.
  unfold swap_sell_ok. intros H.
  repeat (apply andb_true_iff in H as [H ?]). by qhyps.
Qed.

(** The loop of the swap pass: it returns after at most [n] accepted
    swaps, each of them a feasible pair of largest spread, and when it
    stops early no improving pair is left. *)
Lemma swap_while_spec (soc ceil : Q) (n : nat) :
  ∀ tl log,
    ∃ tl' new,
      swap_while cfg n tl soc ceil log = Ok (tl', log ++ new)
      ∧ (length new ≤ n)%nat
      ∧ Forall (accepted_swap cfg soc ceil) new
      ∧ ((length new < n)%nat → no_improving_swap cfg tl' soc ceil).
Proof.
  induction n as [|n IH]; intros tl log; cbn [swap_while].
  - exists tl, []. rewrite app_nil_r. split; [done|]. split; [done|].
    split; [constructor|]. simpl. lia.
  - destruct (find_best_swap_spec tl soc ceil) as ([best max] & Hrun & H0 & Hbest & Hall).
    cbn [fst snd] in *. rewrite Hrun, bind_Ok.
    destruct best as [[s d]|].
    + destruct Hbest as (Hok & Hmax & Hpos).
      destruct (swap_pair_ok_lookup _ _ _ _ _ Hok) as (ic & ie & Hic & Hie & _ & Hsell).
      destruct (shift_50_Ok tl s d) as [tl1 Hshift];
        [by eapply lookup_lt_Some|by eapply lookup_lt_Some|].
      rewrite Hshift, bind_Ok.
      destruct (IH tl1 (log ++ [(tl, (s, d))])) as (tl' & new & Hloop & Hlen & Hacc & Hstop).
      exists tl', ((tl, (s, d)) :: new).
      split; [by rewrite Hloop, <- app_assoc|].
      split; [simpl; lia|]. split.
      * constructor; [|done]. unfold accepted_swap. cbn [fst snd].
        split; [done|]. split; [intros c e Hce; rewrite <- Hmax; by apply Hall|].
        split; [by rewrite <- Hmax|].
        apply swap_sell_ok_cycle in Hsell.
        unfold spread_idx. rewrite Hic, Hie. lra.
      * intros Hlt. apply Hstop. simpl in Hlt. lia.
    + exists tl, []. rewrite app_nil_r. split; [done|]. split; [simpl; lia|].
      split; [constructor|]. intros _ c e Hok.
      rewrite <- Hbest. by apply Hall.
Qed.

(** C7. The swap pass returns after at most 500 accepted swaps and
    stops at the first iteration that finds no feasible pair with a positive
    spread; every accepted swap is a feasible pair of largest spread, and
    that spread is positive and at least the cycling cost, so the projected
    gain of the swap, spread less cycling cost, is not negative.  The
    active-arbitrage pass accepts at most 500 pairs. *)
Theorem C7_arbitrage_passes_bounded (tl : timeline)
    (soc swap_ceiling_wh base_price : Q) :
  (∃ tl' log,
     phase_3_swaps cfg tl soc swap_ceiling_wh = Ok (tl', log)
     ∧ (length log ≤ 500)%nat
     ∧ Forall (accepted_swap cfg soc (raise_ceiling cfg tl swap_ceiling_wh)) log
     ∧ ((length log < 500)%nat →
        no_improving_swap cfg tl' soc (raise_ceiling cfg tl swap_ceiling_wh)))
  ∧ (∀ tl' n, phase_4_arbs cfg tl soc base_price = Ok (tl', n) → (n ≤ 500)%nat).
Proof.
  split.
  - unfold phase_3_swaps.
    destruct (swap_while_spec soc (raise_ceiling cfg tl swap_ceiling_wh) 500 tl [])
      as (tl' & log & Hrun & Hlen & Hacc & Hstop).
    exists tl', log. done.
  - unfold phase_4_arbs. intros tl' n Hrun.
    apply arb_while_unchanged in Hrun. injection Hrun as _ ->. lia.
Qed.

(** ** The usage dict of the cheap-hour fill *)

Lemma Qsum_app (l1 l2 : list Q) : Qsum (l1 ++ l2) == Qsum l1 + Qsum l2.
Proof.
  induction l1 as [|x l1 IH]; simpl.
  - unfold Qsum at 2. simpl. lra.
  - rewrite !Qsum_cons, IH. lra.
Qed.

Lemma dict_get_insert (d : gmap string Q) (k h : string) (v : Q) :
  dict_get (<[k := v]> d) h = if String.eqb k h then v else dict_get d h.
Proof.
  unfold dict_get. destruct (String.eqb_spec k h) as [->|Hne].
  - by rewrite lookup_insert_eq.
  - by rewrite lookup_insert_ne.
Qed.

Lemma usage_fold_spec (tl : timeline) :
  ∀ (u : gmap string Q) h,
    dict_get
      (fold_left
         (λ (u : gmap string Q) x,
            let h := hour x in
            let g := grid_wh x + BIAS in
            if Qltb 0 g then <[h := dict_get u h + g]> u else u) tl u) h
    == dict_get u h + hour_usage cfg tl h.
Proof.
  induction tl as [|x tl IH]; intros u h; cbn [fold_left].
  - unfold hour_usage, Qsum. simpl. lra.
  - rewrite IH. unfold hour_usage. cbn [map]. rewrite Qsum_cons. cbv zeta.
    destruct (Qltb 0 (grid_wh x + BIAS)) eqn:E; qhyps.
    + rewrite dict_get_insert.
      destruct (String.eqb_spec (hour x) h) as [->|Hne].
      * rewrite Q.max_r by lra. lra.
      * lra.
    + destruct (String.eqb (hour x) h); [rewrite Q.max_l by lra|]; lra.
Qed.

Lemma usage_map_agrees (tl : timeline) :
  usage_agrees cfg (get_hourly_usage_map cfg tl) tl.
Proof.
  intros h. unfold get_hourly_usage_map. rewrite usage_fold_spec.
  unfold dict_get. rewrite lookup_empty. lra.
Qed.

(** Raising the import of a slot that does not export raises the usage of
    its hour by as much. *)
Lemma hour_usage_insert (tl : timeline) (i : nat) (x : slot) (v : Q) (h : string) :
  tl !! i = Some x → 0 <= grid_wh x + BIAS → 0 <= v →
  hour_usage cfg (<[i := set_grid_wh (grid_wh x + v) x]> tl) h
  == hour_usage cfg tl h + (if String.eqb (hour x) h then v else 0).
Proof.
  intros Hx Hg Hv. unfold hour_usage.
  rewrite insert_take_drop by (by eapply lookup_lt_Some).
  rewrite <- (take_drop_middle tl i x Hx) at 3.
  rewrite !map_app, !Qsum_app. cbn [map]. rewrite !Qsum_cons. simpl.
  destruct (String.eqb (hour x) h); [|lra].
  rewrite !Q.max_r by lra. lra.
Qed.

Lemma dict_add_Ok (d d' : gmap string Q) (k : string) (v : Q) :
  dict_add d k v = Ok d' →
  ∀ h, dict_get d' h = if String.eqb k h then dict_get d k + v else dict_get d h.
Proof.
  unfold dict_add, getkey. destruct (d !! k) as [old|] eqn:E; [|done].
  cbn. intros [= <-] h. rewrite dict_get_insert.
  by rewrite (dict_get_Some _ _ _ E).
Qed.

Lemma add_grid_Ok (tl tl' : timeline) (i : nat) (v : Q) :
  add_grid tl i v = Ok tl' →
  ∃ x, tl !! i = Some x ∧ tl' = <[i := set_grid_wh (grid_wh x + v) x]> tl.
Proof.
  unfold add_grid. destruct (getitem tl i) as [x|] eqn:E; [|done].
  cbn. intros [= <-]. apply getitem_Ok in E. eauto.
Qed.

(** ** The cheap-hour fill and its re-run *)













(** * Further properties of the solver *)

(** ** The simulator on ill-sized and on ordered inputs *)

Lemma profile_loop_raises (tl : timeline) (grid_cmds : list Q) :
  ∀ curr i acc,
    (length (drop i tl) < length grid_cmds)%nat →
    profile_loop cfg tl curr i grid_cmds acc = Raise IndexError.
Proof.
  induction grid_cmds as [|g gs IH]; intros curr i acc Hlen; simpl in *; [lia|].
  unfold getitem. destruct (tl !! i) as [x|] eqn:Hx; [|done].
  cbn. apply IH. rewrite (drop_S _ _ _ Hx) in Hlen. simpl in Hlen. lia.
Qed.

(** X1. With more grid commands than timeline slots the simulator raises
    [IndexError]: the loop reads [timeline[i]] for every command. *)
Theorem profile_raises_on_extra_commands (soc : Q) (grid_cmds : list Q) (tl : timeline)
    (Hlen : (length tl < length grid_cmds)%nat) :
  calculate_battery_profile_from_list cfg soc grid_cmds tl = Raise IndexError.
Proof.
  unfold calculate_battery_profile_from_list. apply profile_loop_raises.
  by rewrite drop_0.
Qed.

Lemma next_charge_mono (curr curr' g g' : Q) (x : slot) :
  curr <= curr' → g <= g' → next_charge cfg curr g x <= next_charge cfg curr' g' x.
Proof. intros H1 H2. unfold next_charge. cbv zeta. qcases; lra. Qed.

Lemma sim_mono (grid_cmds grid_cmds' : list Q) :
  Forall2 Qle grid_cmds grid_cmds' →
  ∀ curr curr' tl, curr <= curr' →
    Forall2 Qle (sim cfg curr grid_cmds tl) (sim cfg curr' grid_cmds' tl).
Proof.
  induction 1 as [|g g' gs gs' Hg Hgs IH]; intros curr curr' tl Hc.
  - destruct tl; constructor.
  - destruct tl as [|x xs]; simpl; constructor.
    + by apply next_charge_mono.
    + apply IH. by apply next_charge_mono.
Qed.

(** X2. The simulator is monotone: a starting charge that is not lower and
    grid commands that are slot by slot not lower give a profile that is in
    no slot lower. *)
Theorem profile_monotone (soc soc' : Q) (grid_cmds grid_cmds' : list Q) (tl : timeline)
    (Hlen : (length grid_cmds ≤ length tl)%nat)
    (Hsoc : soc <= soc') (Hcmds : Forall2 Qle grid_cmds grid_cmds') :
  ∃ profile profile',
    calculate_battery_profile_from_list cfg soc grid_cmds tl = Ok profile
    ∧ calculate_battery_profile_from_list cfg soc' grid_cmds' tl = Ok profile'
    ∧ Forall2 Qle profile profile'.
Proof.
  exists (sim cfg soc grid_cmds tl), (sim cfg soc' grid_cmds' tl).
  split; [by apply calculate_profile_sim|].
  split; [apply calculate_profile_sim; by rewrite <- (Forall2_length _ _ _ Hcmds)|].
  by apply sim_mono.
Qed.

(** ** The active-arbitrage pass never moves energy *)

Lemma arb_while_result (n : nat) (tl : timeline) (soc : Q)
    (hourly_usage : gmap string Q) (accepted : nat) :
  arb_while cfg n tl soc hourly_usage accepted = Ok (tl, accepted)
  ∨ arb_while cfg n tl soc hourly_usage accepted = Raise NameError.
Proof.
  destruct n as [|n]; cbn [arb_while]; [by left|].
  destruct (find_best_arb_none_or_raise tl soc hourly_usage) as [-> | ->]; cbn; auto.
Qed.

Lemma active_arbitrage_result (tl : timeline) (soc base_price : Q) :
  phase_4_active_arbitrage cfg tl soc base_price = Ok tl
  ∨ phase_4_active_arbitrage cfg tl soc base_price = Raise NameError.
Proof.
  unfold phase_4_active_arbitrage, phase_4_arbs.
  destruct (arb_while_result 500 tl soc (get_hourly_usage_map cfg tl) 0)
    as [-> | ->]; cbn; auto.
Qed.

(** X3. [phase_4_active_arbitrage] either returns the timeline it was
    given or raises [NameError]: the only statement that would select a
    pair reads an unbound name, so no pair is ever applied, and no other
    exception can occur. *)
Theorem active_arbitrage_changes_nothing (tl : timeline) (soc base_price : Q) :
  phase_4_active_arbitrage cfg tl soc base_price = Ok tl
  ∨ phase_4_active_arbitrage cfg tl soc base_price = Raise NameError.
Proof. apply active_arbitrage_result. Qed.

(** ** The hourly usage map *)

Lemma usage_fold_keys (tl : timeline) :
  ∀ (u : gmap string Q) h,
    is_Some
      (fold_left
         (λ (u : gmap string Q) x,
            let h := hour x in
            let g := grid_wh x + BIAS in
            if Qltb 0 g then <[h := dict_get u h + g]> u else u) tl u !! h)
    ↔ is_Some (u !! h) ∨ ∃ x, x ∈ tl ∧ hour x = h ∧ 0 < grid_wh x + BIAS.
Proof.
  induction tl as [|x tl IH]; intros u h; cbn [fold_left].
  - split; [auto|]. intros [H|(x & Hx & _)]; [done|]. by apply elem_of_nil in Hx.
  - rewrite IH. cbv zeta. split.
    + intros [Hu|(y & Hy & Hh & Hpos)].
      * destruct (Qltb 0 (grid_wh x + BIAS)) eqn:E; qhyps; [|by left].
        destruct (decide (hour x = h)) as [Heq|Hne].
        -- right. exists x. split; [apply elem_of_cons; by left|done].
        -- left. by rewrite lookup_insert_ne in Hu.
      * right. exists y. split; [apply elem_of_cons; by right|done].
    + intros [Hu|(y & Hy & Hh & Hpos)].
      * left. destruct (Qltb 0 (grid_wh x + BIAS)); [|done].
        destruct (decide (hour x = h)) as [->|Hne].
        -- rewrite lookup_insert_eq. eauto.
        -- by rewrite lookup_insert_ne.
      * apply elem_of_cons in Hy as [->|Hy].
        -- left. apply Qltb_true in Hpos. rewrite Hpos, Hh.
           rewrite lookup_insert_eq. eauto.
        -- right. eauto.
Qed.

Lemma hour_usage_nonneg (tl : timeline) (h : string) : 0 <= hour_usage cfg tl h.
Proof.
  unfold hour_usage. induction tl as [|x tl IH]; cbn [map].
  - unfold Qsum. simpl. lra.
  - rewrite Qsum_cons. destruct (String.eqb (hour x) h); [|lra].
    pose proof (Q.le_max_l 0 (grid_wh x + BIAS)). lra.
Qed.

Lemma hour_usage_pos (tl : timeline) (h : string) (x : slot) :
  x ∈ tl → hour x = h → 0 < grid_wh x + BIAS → 0 < hour_usage cfg tl h.
Proof.
  intros Hx <- Hpos. induction tl as [|y tl IH]; [by apply elem_of_nil in Hx|].
  pose proof (hour_usage_nonneg tl (hour x)) as Hnn.
  unfold hour_usage in *. cbn [map]. rewrite Qsum_cons.
  apply elem_of_cons in Hx as [<-|Hx].
  - rewrite String.eqb_refl. rewrite Q.max_r by lra. lra.
  - specialize (IH Hx). destruct (String.eqb (hour y) (hour x)); [|lra].
    pose proof (Q.le_max_l 0 (grid_wh y + BIAS)). lra.
Qed.

(** X4. [get_hourly_usage_map] has a key for exactly the hours with a
    slot of positive realized import ([grid_wh + bias > 0]); the value of a
    key is the sum of the positive realized imports of the hour's slots and
    is itself positive.  Exporting slots do not lower an hour's figure. *)
Theorem hourly_usage_map_spec (tl : timeline) (h : string) :
  (is_Some (get_hourly_usage_map cfg tl !! h)
   ↔ ∃ x, x ∈ tl ∧ hour x = h ∧ 0 < grid_wh x + BIAS)
  ∧ ∀ v, get_hourly_usage_map cfg tl !! h = Some v →
         v == hour_usage cfg tl h ∧ 0 < v.
Proof.
  assert (Hkeys : is_Some (get_hourly_usage_map cfg tl !! h)
                  ↔ ∃ x, x ∈ tl ∧ hour x = h ∧ 0 < grid_wh x + BIAS).
  { unfold get_hourly_usage_map. rewrite usage_fold_keys. rewrite lookup_empty.
    split; [intros [[? ?]|H]; done|auto]. }
  split; [done|]. intros v Hv.
  pose proof (usage_map_agrees tl h) as Hval.
  rewrite (dict_get_Some _ _ _ Hv) in Hval. split; [done|].
  destruct (proj1 Hkeys (mk_is_Some _ _ Hv)) as (x & Hx & Hh & Hpos).
  rewrite Hval. by eapply hour_usage_pos.
Qed.

(** ** The peak-limit search *)

Lemma rate_possible_spec (mid : Q) (tl : timeline) :
  rate_possible cfg mid tl = true
  ↔ Forall (λ x, Qmax 0 (base_net_load_wh x - Qmax 0 (mid - BIAS)) <= MAXOUT) tl.
Proof.
  induction tl as [|x tl IH]; cbn [rate_possible].
  - split; [constructor|done].
  - cbv zeta. rewrite Forall_cons, <- IH.
    assert (Hhd : Qltb MAXOUT
                    (if Qltb (base_net_load_wh x
                              - (if Qltb (mid - BIAS) 0 then 0 else mid - BIAS)) 0
                     then 0
                     else base_net_load_wh x
                          - (if Qltb (mid - BIAS) 0 then 0 else mid - BIAS)) = false
                  ↔ Qmax 0 (base_net_load_wh x - Qmax 0 (mid - BIAS)) <= MAXOUT).
    { rewrite Qltb_false. split; qcases; intros H; qminmax; lra. }
    destruct (Qltb MAXOUT _) eqn:E.
    + split; [done|]. intros [H _]. apply Hhd in H. congruence.
    + split; [intros H; split; [by apply Hhd|done]|by intros [_ H]].
Qed.

Lemma bisect_test_spec (tl : timeline) (available_energy_wh mid : Q) :
  rate_possible cfg mid tl
  && Qle_bool (py_sum (map (λ x, py_max 0 (base_net_load_wh x - (mid - BIAS))) tl))
              available_energy_wh = true
  ↔ peak_feasible cfg tl available_energy_wh mid.
Proof.
  unfold peak_feasible. rewrite andb_true_iff, rate_possible_spec, Qle_bool_iff.
  rewrite py_sum_Qsum.
  rewrite (Qsum_map_ext (λ x, py_max 0 (base_net_load_wh x - (mid - BIAS)))
                        (λ x, Qmax 0 (base_net_load_wh x - (mid - BIAS))));
    [done|].
  intros x _. apply py_max_spec.
Qed.

(** A higher ceiling needs less from the battery. *)
Lemma peak_feasible_mono (tl : timeline) (available_energy_wh m m' : Q) :
  m <= m' → peak_feasible cfg tl available_energy_wh m →
  peak_feasible cfg tl available_energy_wh m'.
Proof.
  intros Hm [Hrate Htot]. split.
  - eapply Forall_impl; [exact Hrate|]. intros x Hx. simpl in *. qminmax; lra.
  - eapply Qle_trans; [|exact Htot]. apply Qsum_map_le.
    intros x _. qminmax; lra.
Qed.

Lemma bisect_spec (tl : timeline) (available_energy_wh : Q) (n : nat) :
  ∀ low high,
    0 <= low → low < high → high <= 10000 →
    (high < 10000 → peak_feasible cfg tl available_energy_wh high) →
    (∀ m, 0 <= m → peak_feasible cfg tl available_energy_wh m → low <= m) →
    let best := bisect cfg n tl available_energy_wh low high high in
    0 < best ∧ best <= 10000
    ∧ (best < 10000 → peak_feasible cfg tl available_energy_wh best)
    ∧ ∀ m, 0 <= m → peak_feasible cfg tl available_energy_wh m →
           best <= m + halved n (high - low).
Proof.
  induction n as [|n IH]; intros low high Hlow Hlt Hhigh Hfeas Hmin;
    cbn [bisect halved]; cbv zeta.
  - split; [lra|]. split; [done|]. split; [done|].
    intros m Hm Hf. specialize (Hmin m Hm Hf). lra.
  - set (mid := (low + high) / 2).
    assert (Hmid : low < mid ∧ mid < high).
    { unfold mid. split.
      - apply Qlt_shift_div_l; lra.
      - apply Qlt_shift_div_r; lra. }
    destruct (rate_possible cfg mid tl
              && Qle_bool (py_sum (map (λ x, py_max 0 (base_net_load_wh x - (mid - BIAS))) tl))
                          available_energy_wh) eqn:E.
    + apply bisect_test_spec in E.
      destruct (IH low mid) as (H1 & H2 & H3 & H4); try done; try lra.
      split; [done|]. split; [done|]. split; [done|].
      intros m Hm Hf. specialize (H4 m Hm Hf).
      assert (Hw : mid - low == (high - low) / 2) by (unfold mid; field).
      assert (Hh : ∀ k a b, a == b → halved k a == halved k b).
      { clear. induction k as [|k IHk]; intros a b Hab; simpl; [done|].
        apply IHk. by rewrite Hab. }
      rewrite <- (Hh n _ _ Hw). done.
    + assert (Hno : ¬ peak_feasible cfg tl available_energy_wh mid).
      { intros Hf. apply bisect_test_spec in Hf. congruence. }
      destruct (IH mid high) as (H1 & H2 & H3 & H4); try done; try lra.
      { intros m Hm Hf. destruct (Qlt_le_dec m mid) as [Hlt'|]; [|done].
        exfalso. apply Hno. eapply peak_feasible_mono; [|exact Hf]. lra. }
      split; [done|]. split; [done|]. split; [done|].
      intros m Hm Hf. specialize (H4 m Hm Hf).
      assert (Hw : high - mid == (high - low) / 2) by (unfold mid; field).
      assert (Hh : ∀ k a b, a == b → halved k a == halved k b).
      { clear. induction k as [|k IHk]; intros a b Hab; simpl; [done|].
        apply IHk. by rewrite Hab. }
      rewrite <- (Hh n _ _ Hw). done.
Qed.

(** X5. The ceiling returned by [calculate_min_peak_limit] lies in
    (0, 10000]; a result below 10000 passes the test of the search (the
    per-slot discharge above it is within the rate limit and the energy
    above it within the available energy); and it is minimal up to the
    resolution of the 20 bisection steps: no ceiling of 0 or more that
    passes the test is lower by more than 10000 / 2^20. *)
Theorem min_peak_limit_spec (tl : timeline) (available_energy_wh : Q) :
  let best := calculate_min_peak_limit cfg tl available_energy_wh in
  0 < best ∧ best <= 10000
  ∧ (best < 10000 → peak_feasible cfg tl available_energy_wh best)
  ∧ ∀ m, 0 <= m → peak_feasible cfg tl available_energy_wh m →
         best <= m + 10000 / 1048576.
Proof.
  unfold calculate_min_peak_limit.
  destruct (bisect_spec tl available_energy_wh 20 0 10000) as (H1 & H2 & H3 & H4);
    try lra.
  { intros m Hm _. done. }
  split; [done|]. split; [done|]. split; [done|].
  intros m Hm Hf. specialize (H4 m Hm Hf).
  assert (Hw : halved 20 (10000 - 0) == 10000 / 1048576) by (vm_compute; reflexivity).
  rewrite Hw in H4. done.
Qed.

(** ** The safety fill *)

Lemma import_raised_refl (tl : timeline) : import_raised tl tl.
Proof.
  apply Forall2_same_length_lookup_2; [done|].
  intros j x y Hx Hy. simplify_eq. split; [by rewrite set_grid_wh_same|lra].
Qed.

Lemma import_raised_trans (tl tl' tl'' : timeline) :
  import_raised tl tl' → import_raised tl' tl'' → import_raised tl tl''.
Proof.
  intros H1 H2. apply Forall2_same_length_lookup_2.
  - apply Forall2_length in H1, H2. congruence.
  - intros j x z Hx Hz.
    destruct (Forall2_lookup_l _ _ _ _ _ H1 Hx) as (y & Hy & E1 & L1).
    destruct (Forall2_lookup_l _ _ _ _ _ H2 Hy) as (z' & Hz' & E2 & L2).
    simplify_eq. split; [|lra].
    rewrite E2 at 1. rewrite E1. reflexivity.
Qed.

Lemma import_raised_same_but_grid (tl tl' : timeline) :
  import_raised tl tl' → same_but_grid tl tl'.
Proof. intros H. eapply Forall2_impl; [exact H|]. by intros x y [? _]. Qed.

Lemma Qsum_grid_insert (tl : timeline) (i : nat) (x : slot) (g : Q) :
  tl !! i = Some x →
  Qsum (map grid_wh (<[i := set_grid_wh g x]> tl))
  == Qsum (map grid_wh tl) + (g - grid_wh x).
Proof.
  intros Hx. rewrite insert_take_drop by (by eapply lookup_lt_Some).
  rewrite <- (take_drop_middle tl i x Hx) at 3.
  rewrite !map_app, !Qsum_app. cbn [map]. rewrite !Qsum_cons. simpl. lra.
Qed.

Lemma insert_import_raised (tl : timeline) (i : nat) (x : slot) (v : Q) :
  tl !! i = Some x → 0 <= v →
  import_raised tl (<[i := set_grid_wh (grid_wh x + v) x]> tl).
Proof.
  intros Hx Hv. apply Forall2_same_length_lookup_2; [by rewrite length_insert|].
  intros j y z Hy Hz. destruct (decide (i = j)) as [->|Hne].
  - rewrite list_lookup_insert_eq in Hz by (by eapply lookup_lt_Some).
    simplify_eq. simpl. split; [done|lra].
  - rewrite list_lookup_insert_ne in Hz by done. simplify_eq.
    split; [by rewrite set_grid_wh_same|lra].
Qed.

(** What [timeline[i]["grid_wh"] += v] does to the plan. *)
Lemma add_grid_spec (tl tl' : timeline) (i : nat) (v : Q) :
  add_grid tl i v = Ok tl' →
  (i < length tl)%nat
  ∧ same_but_grid tl tl'
  ∧ (0 <= v → import_raised tl tl')
  ∧ Qsum (map grid_wh tl') == Qsum (map grid_wh tl) + v.
Proof.
  intros H. apply add_grid_Ok in H as (x & Hx & ->).
  split; [by eapply lookup_lt_Some|]. split; [|split].
  - apply same_but_grid_of_lookup; [by rewrite length_insert|].
    intros j y Hy. destruct (decide (i = j)) as [->|Hne].
    + rewrite list_lookup_insert_eq by (by eapply lookup_lt_Some).
      simplify_eq. eauto.
    + rewrite list_lookup_insert_ne by done. exists (grid_wh y).
      by rewrite set_grid_wh_same.
  - intros Hv. by apply insert_import_raised.
  - rewrite (Qsum_grid_insert _ _ _ _ Hx). lra.
Qed.

Lemma foldM_inv {A S} (body : S → A → res S) (P : S → Prop) (l : list A) :
  (∀ s a s', a ∈ l → P s → body s a = Ok s' → P s') →
  ∀ s s', P s → foldM body s l = Ok s' → P s'.
Proof.
  induction l as [|a l IH]; intros Hstep s s' Hs; cbn [foldM].
  - by intros [= <-].
  - destruct (body s a) as [s1|] eqn:E; [|done]. rewrite bind_Ok.
    apply IH.
    + intros s2 b s3 Hb. apply Hstep. by right.
    + eapply Hstep; [by left|exact Hs|exact E].
Qed.

Lemma candidate_step_headroom (tl : timeline) (hu : gmap string Q) (end_index : nat)
    (prof : list Q) (ignore : bool) (cands cands' : list cand) (i : nat) :
  (ignore = true → 0 <= MAXOUT) →
  Forall (λ c, 0 <= c_headroom c) cands →
  candidate_step cfg tl hu end_index prof ignore cands i = Ok cands' →
  Forall (λ c, 0 <= c_headroom c) cands'.
Proof.
  intros Hrate Hc. unfold candidate_step.
  destruct (getitem tl i) as [item|]; [|done]. rewrite bind_Ok.
  destruct (match slice prof i (end_index + 1) with
            | [] => Ok CAP
            | _ :: _ => py_max_list (slice prof i (end_index + 1))
            end) as [max_s|]; [|done].
  rewrite bind_Ok. cbv zeta.
  destruct (Qle_bool (CAP - max_s) 1) eqn:E1; [by intros [= <-]|].
  destruct ignore; cbn [negb].
  - intros [= <-]. apply Forall_app. split; [done|]. constructor; [|done].
    simpl. qhyps. apply py_min_nonneg; [lra|by apply Hrate].
  - destruct (Qle_bool (PREVIOUS_PEAK_WH cfg - dict_get hu (hour item)) 1) eqn:E2;
      [by intros [= <-]|].
    intros [= <-]. apply Forall_app. split; [done|]. constructor; [|done].
    simpl. qhyps. apply py_min_nonneg; lra.
Qed.

Lemma get_candidates_headroom (tl : timeline) (hu : gmap string Q) (end_index : nat)
    (soc : Q) (ignore : bool) (cands : list cand) :
  (ignore = true → 0 <= MAXOUT) →
  get_candidates cfg tl hu end_index soc ignore = Ok cands →
  Forall (λ c, 0 <= c_headroom c) cands.
Proof.
  intros Hrate. unfold get_candidates. rewrite current_profile_sim, bind_Ok.
  apply (foldM_inv _ (Forall (λ c, 0 <= c_headroom c))); [|constructor].
  intros s a s' _ Hs. by apply candidate_step_headroom.
Qed.

Lemma sort_by_Forall {A} (key : A → Q) (P : A → Prop) (l : list A) :
  Forall P l → Forall P (sort_by key l).
Proof. intros H. by rewrite sort_by_perm. Qed.

Lemma fill_pass_1_spec (cands : list cand) :
  Forall (λ c, 0 <= c_headroom c) cands →
  ∀ tl hu rem tl' hu' rem',
    0 <= rem →
    fill_pass_1 cands tl hu rem = Ok (tl', hu', rem') →
    import_raised tl tl'
    ∧ Qsum (map grid_wh tl') + rem' == Qsum (map grid_wh tl) + rem
    ∧ 0 <= rem'.
Proof.
  induction 1 as [|c rest Hc Hrest IH]; intros tl hu rem tl' hu' rem' Hrem;
    cbn [fill_pass_1].
  - intros [= <- <- <-]. split; [apply import_raised_refl|]. split; [lra|done].
  - destruct (Qle_bool rem 0) eqn:E.
    + intros [= <- <- <-]. split; [apply import_raised_refl|]. split; [lra|done].
    + qhyps. cbv zeta.
      pose proof (py_min_le_l rem (c_headroom c)) as Hle.
      assert (Hnn : 0 <= py_min rem (c_headroom c)) by (apply py_min_nonneg; lra).
      destruct (add_grid tl (c_index c) _) as [tl1|] eqn:Ea; [|done].
      rewrite bind_Ok.
      destruct (dict_add hu (c_hour c) _) as [hu1|]; [|done].
      rewrite bind_Ok. intros Hrun.
      apply add_grid_spec in Ea as (_ & _ & Hr1 & Hs1).
      assert (Hrem' : 0 <= rem - py_min rem (c_headroom c)) by lra.
      destruct (IH _ _ _ _ _ _ Hrem' Hrun) as (Hr2 & Hs2 & Hn2).
      split; [eapply import_raised_trans; [by apply Hr1|done]|].
      split; [lra|done].
Qed.

Lemma fill_pass_2_spec (cands : list cand) :
  Forall (λ c, 0 <= c_headroom c) cands →
  ∀ tl rem tl' rem',
    0 <= rem →
    fill_pass_2 cands tl rem = Ok (tl', rem') →
    import_raised tl tl'
    ∧ Qsum (map grid_wh tl') + rem' == Qsum (map grid_wh tl) + rem
    ∧ 0 <= rem'.
Proof.
  induction 1 as [|c rest Hc Hrest IH]; intros tl rem tl' rem' Hrem;
    cbn [fill_pass_2].
  - intros [= <- <-]. split; [apply import_raised_refl|]. split; [lra|done].
  - destruct (Qle_bool rem 0) eqn:E.
    + intros [= <- <-]. split; [apply import_raised_refl|]. split; [lra|done].
    + qhyps. cbv zeta.
      pose proof (py_min_le_l rem (c_headroom c)) as Hle.
      assert (Hnn : 0 <= py_min rem (c_headroom c)) by (apply py_min_nonneg; lra).
      destruct (add_grid tl (c_index c) _) as [tl1|] eqn:Ea; [|done].
      rewrite bind_Ok. intros Hrun.
      apply add_grid_spec in Ea as (_ & _ & Hr1 & Hs1).
      assert (Hrem' : 0 <= rem - py_min rem (c_headroom c)) by lra.
      destruct (IH _ _ _ _ Hrem' Hrun) as (Hr2 & Hs2 & Hn2).
      split; [eapply import_raised_trans; [by apply Hr1|done]|].
      split; [lra|done].
Qed.

Lemma safety_fill_spec (tl tl' : timeline) (needed soc : Q) (end_index : nat) :
  0 <= needed → 0 <= MAXOUT →
  distribute_smart_safety_fill cfg tl needed end_index soc = Ok tl' →
  import_raised tl tl'
  ∧ Qsum (map grid_wh tl') == Qsum (map grid_wh tl) + needed.
Proof.
  intros Hneed Hrate. unfold distribute_smart_safety_fill. cbv zeta.
  destruct (get_candidates cfg tl _ end_index soc false) as [c1|] eqn:Ec1; [|done].
  rewrite bind_Ok.
  apply get_candidates_headroom in Ec1; [|done].
  destruct (fill_pass_1 (sort_by c_price c1) tl _ needed) as [[[tl1 hu1] rem1]|] eqn:E1;
    [|done].
  rewrite bind_Ok.
  apply fill_pass_1_spec in E1 as (Hr1 & Hs1 & Hn1); [|by apply sort_by_Forall|done].
  destruct (Qltb 0 rem1) eqn:Erem.
  - destruct (get_candidates cfg tl1 hu1 end_index soc true) as [c2|] eqn:Ec2; [|done].
    rewrite bind_Ok.
    apply get_candidates_headroom in Ec2; [|done].
    destruct (fill_pass_2 (sort_by c_price c2) tl1 rem1) as [[tl2 rem2]|] eqn:E2;
      [|done].
    rewrite bind_Ok.
    apply fill_pass_2_spec in E2 as (Hr2 & Hs2 & Hn2); [|by apply sort_by_Forall|done].
    destruct (Qltb 0 rem2) eqn:Erem2; qhyps.
    + intros Ha. apply add_grid_spec in Ha as (_ & _ & Hr3 & Hs3).
      split; [|lra].
      eapply import_raised_trans; [exact Hr1|].
      eapply import_raised_trans; [exact Hr2|]. apply Hr3. lra.
    + intros [= <-]. split; [by eapply import_raised_trans|]. lra.
  - rewrite bind_Ok, Erem. intros [= <-]. qhyps. split; [done|]. lra.
Qed.

(** X6. Whenever [distribute_smart_safety_fill] returns, for a needed
    energy of 0 or more and a non-negative rate limit, the plan differs
    from the one it was given in [grid_wh] only, no slot's import is
    lowered, and the imports add up to exactly [needed] more than before:
    what the two passes over the candidates cannot place is put on the
    first slot. *)
Theorem safety_fill_adds_needed (tl tl' : timeline) (needed soc : Q) (end_index : nat)
    (Hneed : 0 <= needed) (Hrate : 0 <= MAXOUT)
    (Hrun : distribute_smart_safety_fill cfg tl needed end_index soc = Ok tl') :
  import_raised tl tl'
  ∧ Qsum (map grid_wh tl') == Qsum (map grid_wh tl) + needed.
Proof. exact (safety_fill_spec _ _ _ _ _ Hneed Hrate Hrun). Qed.

(** ** The safety pass *)

Lemma sim_mono_plans (tl tl' : timeline) :
  Forall2 (λ x y, base_net_load_wh x = base_net_load_wh y ∧ grid_wh x <= grid_wh y)
          tl tl' →
  ∀ curr curr', curr <= curr' →
    Forall2 Qle (sim cfg curr (map grid_wh tl) tl) (sim cfg curr' (map grid_wh tl') tl').
Proof.
  induction 1 as [|x y xs ys [Hl Hg] _ IH]; intros curr curr' Hc; simpl;
    constructor.
  - unfold next_charge. rewrite Hl. cbv zeta. qcases; lra.
  - apply IH. unfold next_charge. rewrite Hl. cbv zeta. qcases; lra.
Qed.

Lemma import_raised_profile (tl tl' : timeline) (soc : Q) :
  import_raised tl tl' →
  Forall2 Qle (sim cfg soc (map grid_wh tl) tl) (sim cfg soc (map grid_wh tl') tl').
Proof.
  intros H. apply sim_mono_plans; [|lra].
  eapply Forall2_impl; [exact H|]. intros x y [-> Hg]. by split.
Qed.

Lemma safety_scan_spec (tl : timeline) (soc : Q) (prof : list Q)
    (items : list (nat * slot)) (tl' : timeline) (violation : bool) :
  0 <= MAXOUT →
  safety_scan cfg tl soc prof items = Ok (tl', violation) →
  import_raised tl tl'.
Proof.
  intros Hrate. induction items as [|[i item] rest IH]; cbn [safety_scan].
  - intros [= <- <-]. apply import_raised_refl.
  - destruct (if (i =? 0)%nat then Ok soc else getitem prof (i - 1)) as [start|];
      [|done].
    rewrite bind_Ok. cbv zeta.
    destruct (Qltb LOWMAX _); [|done].
    destruct (Qltb start THROTTLE) eqn:E; [|done]. qhyps.
    destruct (distribute_smart_safety_fill cfg tl _ i soc) as [tl1|] eqn:Ed; [|done].
    rewrite bind_Ok. intros [= <- <-].
    apply safety_fill_spec in Ed as [Hr _]; [done|lra|done].
Qed.

Lemma safety_while_spec (n : nat) :
  0 <= MAXOUT →
  ∀ tl soc tl', safety_while cfg n tl soc = Ok tl' → import_raised tl tl'.
Proof.
  intros Hrate. induction n as [|n IH]; intros tl soc tl'; cbn [safety_while].
  - intros [= <-]. apply import_raised_refl.
  - rewrite current_profile_sim, bind_Ok.
    destruct (safety_scan cfg tl soc _ (enumerate tl)) as [[tl1 v]|] eqn:Es; [|done].
    rewrite bind_Ok. apply safety_scan_spec in Es; [|done].
    destruct v; cbn [negb].
    + intros Hrest. eapply import_raised_trans; [exact Es|]. by eapply IH.
    + by intros [= <-].
Qed.

(** X7. Whenever [phase_2_safety_checks] returns (for a non-negative rate
    limit), the plan differs from the one it was given in [grid_wh] only
    and no slot's import is lowered; the replayed battery profile of the
    result is therefore in no slot below the profile of the input. *)
Theorem safety_checks_only_raise_import (tl tl' : timeline) (soc : Q)
    (Hrate : 0 <= MAXOUT)
    (Hrun : phase_2_safety_checks cfg tl soc = Ok tl') :
  import_raised tl tl'
  ∧ ∃ prof prof',
      current_profile cfg tl soc = Ok prof
      ∧ current_profile cfg tl' soc = Ok prof'
      ∧ Forall2 Qle prof prof'.
Proof.
  assert (Hr : import_raised tl tl') by (by eapply safety_while_spec).
  split; [done|].
  exists (sim cfg soc (map grid_wh tl) tl), (sim cfg soc (map grid_wh tl') tl').
  split; [apply current_profile_sim|]. split; [apply current_profile_sim|].
  by apply import_raised_profile.
Qed.

Lemma safety_scan_idle (tl : timeline) (soc : Q) (items : list (nat * slot)) :
  (∀ i x, (i, x) ∈ items → tl !! i = Some x) →
  (∀ i, ¬ throttle_violation cfg tl soc i) →
  safety_scan cfg tl soc (sim cfg soc (map grid_wh tl) tl) items = Ok (tl, false).
Proof.
  intros Hitems Hno. induction items as [|[i item] rest IH]; cbn [safety_scan];
    [done|].
  assert (Hi : tl !! i = Some item) by (apply Hitems; by left).
  destruct (start_soc_charge_before soc (sim cfg soc (map grid_wh tl) tl) i)
    as (start & Hcb & ->).
  { rewrite sim_length by (by rewrite length_map). rewrite length_map.
    apply lookup_lt_Some in Hi. lia. }
  rewrite bind_Ok. cbv zeta.
  assert (Hrest : safety_scan cfg tl soc (sim cfg soc (map grid_wh tl) tl) rest
                  = Ok (tl, false)).
  { apply IH. intros j x Hx. apply Hitems. by right. }
  destruct (Qltb LOWMAX _) eqn:E1; [|done].
  destruct (Qltb start THROTTLE) eqn:E2; [|done]. qhyps.
  exfalso. apply (Hno i). exists item, start. unfold discharge. by repeat split.
Qed.

(** X8. A plan in which no slot meets the test of the safety pass (a
    discharge above the low-charge rate with a replayed entering charge
    below the throttle threshold) is returned by [phase_2_safety_checks] as
    it is. *)
Theorem safety_checks_keep_safe_plan (tl : timeline) (soc : Q)
    (Hsafe : ∀ i, ¬ throttle_violation cfg tl soc i) :
  phase_2_safety_checks cfg tl soc = Ok tl.
Proof.
  unfold phase_2_safety_checks.
  change (safety_while cfg 10 tl soc) with
    (profile ← current_profile cfg tl soc;
     '(tl1, violation) ← safety_scan cfg tl soc profile (enumerate tl);
     if negb violation then Ok tl1 else safety_while cfg 9 tl1 soc).
  rewrite current_profile_sim, bind_Ok, safety_scan_idle; [done| |done].
  intros i x. apply enumerate_elem.
Qed.

(** ** A fill on a plan without import *)

Lemma usage_fold_idle (tl : timeline) (u : gmap string Q) :
  Forall (λ x, grid_wh x + BIAS <= 0) tl →
  fold_left
    (λ (u : gmap string Q) x,
       let h := hour x in
       let g := grid_wh x + BIAS in
       if Qltb 0 g then <[h := dict_get u h + g]> u else u) tl u = u.
Proof.
  induction 1 as [|x tl Hx _ IH]; cbn [fold_left]; [done|].
  cbv zeta. apply Qltb_false in Hx. by rewrite Hx.
Qed.

Lemma usage_map_empty (tl : timeline) :
  Forall (λ x, grid_wh x + BIAS <= 0) tl → get_hourly_usage_map cfg tl = ∅.
Proof. apply usage_fold_idle. Qed.

Lemma candidate_step_total (tl : timeline) (hu : gmap string Q) (end_index : nat)
    (prof : list Q) (ignore : bool) (cands : list cand) (i : nat) :
  (i < length tl)%nat →
  Forall (λ c, (c_index c < length tl)%nat) cands →
  ∃ cands', candidate_step cfg tl hu end_index prof ignore cands i = Ok cands'
            ∧ Forall (λ c, (c_index c < length tl)%nat) cands'.
Proof.
  intros Hi Hc. unfold candidate_step.
  destruct (lookup_lt_is_Some_2 tl i Hi) as [item Hitem].
  rewrite (getitem_lookup _ _ _ Hitem), bind_Ok.
  assert (Hmax : ∃ max_s, match slice prof i (end_index + 1) with
                          | [] => Ok CAP
                          | _ :: _ => py_max_list (slice prof i (end_index + 1))
                          end = Ok max_s).
  { destruct (slice prof i (end_index + 1)); simpl; eauto. }
  destruct Hmax as [max_s ->]. rewrite bind_Ok. cbv zeta.
  assert (Hnew : ∀ c, c_index c = i →
                      Forall (λ c, (c_index c < length tl)%nat) (cands ++ [c])).
  { intros c Hci. apply Forall_app. split; [done|]. constructor; [lia|done]. }
  destruct (Qle_bool (CAP - max_s) 1); [eauto|].
  destruct ignore; cbn [negb]; [eauto|].
  destruct (Qle_bool _ 1); eauto.
Qed.

Lemma candidates_fold_total (tl : timeline) (hu : gmap string Q) (end_index : nat)
    (prof : list Q) (ignore : bool) (l : list nat) :
  (∀ i, i ∈ l → (i < length tl)%nat) →
  ∀ cands,
    Forall (λ c, (c_index c < length tl)%nat) cands →
    ∃ cands',
      foldM (candidate_step cfg tl hu end_index prof ignore) cands l = Ok cands'
      ∧ Forall (λ c, (c_index c < length tl)%nat) cands'.
Proof.
  induction l as [|i l IH]; intros Hl cands Hc; cbn [foldM]; [eauto|].
  destruct (candidate_step_total tl hu end_index prof ignore cands i)
    as (c1 & -> & Hc1); [apply Hl; by left|done|].
  rewrite bind_Ok. apply IH; [|done]. intros j Hj. apply Hl. by right.
Qed.

(** The slot at [end_index] is a candidate of the first pass when the
    profile has more than 1 Wh of room there and no import is counted for
    any hour. *)
Lemma last_candidate (tl : timeline) (end_index : nat) (soc b : Q) :
  sim cfg soc (map grid_wh tl) tl !! end_index = Some b →
  b < CAP - 1 → 1 < PREVIOUS_PEAK_WH cfg →
  ∃ cs c,
    get_candidates cfg tl ∅ end_index soc false = Ok (cs ++ [c])
    ∧ Forall (λ c, (c_index c < length tl)%nat) (cs ++ [c]).
Proof.
  intros Hb Hroom Hpeak.
  assert (Hend : (end_index < length tl)%nat).
  { apply lookup_lt_Some in Hb. rewrite sim_length in Hb by (by rewrite length_map).
    by rewrite length_map in Hb. }
  unfold get_candidates. rewrite current_profile_sim, bind_Ok.
  rewrite Nat.add_1_r, seq_S, foldM_app. simpl.
  destruct (candidates_fold_total tl ∅ end_index
              (sim cfg soc (map grid_wh tl) tl) false (seq 0 end_index)) with (cands := @nil cand)
    as (cs & Hcs & Hall); [|constructor|].
  { intros i Hi. apply elem_of_seq in Hi. lia. }
  rewrite Hcs, bind_Ok.
  destruct (lookup_lt_is_Some_2 tl end_index Hend) as [item Hitem].
  unfold candidate_step. rewrite (getitem_lookup _ _ _ Hitem), !bind_Ok.
  assert (Hrel : slice (sim cfg soc (map grid_wh tl) tl) end_index (end_index + 1)
                 = [b]).
  { unfold slice. replace (end_index + 1 - end_index)%nat with 1%nat by lia.
    by rewrite (drop_S _ _ _ Hb). }
  rewrite Hrel. cbn [py_max_list fold_left]. rewrite bind_Ok. cbv zeta.
  assert (E1 : Qle_bool (CAP - b) 1 = false) by (apply Qle_bool_false; lra).
  rewrite E1.
  assert (E2 : Qle_bool (PREVIOUS_PEAK_WH cfg - dict_get (∅ : gmap string Q) (hour item)) 1
               = false).
  { apply Qle_bool_false. unfold dict_get. rewrite lookup_empty. lra. }
  rewrite E2. eexists _, _. split; [reflexivity|].
  apply Forall_app. split; [done|]. constructor; [done|constructor].
Qed.

(** X9. When no slot of the plan has a positive realized import,
    [distribute_smart_safety_fill] raises [KeyError] as soon as it has
    something to place (needed energy above 0, more than 1 Wh of room in
    the profile at [end_index], a monthly peak above 1 Wh): the first pass
    adds the import it places to [hourly_usage[hour]], and the usage map
    has a key only for hours with a positive import. *)
Theorem safety_fill_raises_without_import
    (tl : timeline) (needed soc b : Q) (end_index : nat)
    (Hneed : 0 < needed)
    (Hnone : Forall (λ x, grid_wh x + BIAS <= 0) tl)
    (Hend : sim cfg soc (map grid_wh tl) tl !! end_index = Some b)
    (Hroom : b < CAP - 1)
    (Hpeak : 1 < PREVIOUS_PEAK_WH cfg) :
  distribute_smart_safety_fill cfg tl needed end_index soc = Raise KeyError.
Proof.
  unfold distribute_smart_safety_fill. cbv zeta.
  rewrite (usage_map_empty tl Hnone).
  destruct (last_candidate tl end_index soc b Hend Hroom Hpeak) as (cs & c & -> & Hall).
  rewrite bind_Ok.
  destruct (sort_by c_price (cs ++ [c])) as [|c0 rest] eqn:Es.
  { pose proof (sort_by_perm c_price (cs ++ [c])) as Hp. rewrite Es in Hp.
    apply Permutation_length in Hp. rewrite length_app in Hp. simpl in Hp. lia. }
  assert (Hc0 : (c_index c0 < length tl)%nat).
  { assert (Hin : c0 ∈ cs ++ [c]).
    { rewrite <- (sort_by_perm c_price (cs ++ [c])), Es. by left. }
    rewrite Forall_forall in Hall. by apply Hall. }
  cbn [fill_pass_1].
  assert (E : Qle_bool needed 0 = false) by (apply Qle_bool_false; lra).
  rewrite E. cbv zeta.
  destruct (lookup_lt_is_Some_2 tl (c_index c0) Hc0) as [x Hx].
  unfold add_grid. rewrite (getitem_lookup _ _ _ Hx), !bind_Ok.
  unfold dict_add, getkey. rewrite lookup_empty. done.
Qed.

(** ** The cheap-hour fill only adds import *)

Lemma hour_usage_insert_le (tl : timeline) (i : nat) (x : slot) (v : Q) (h : string) :
  tl !! i = Some x → 0 <= v →
  hour_usage cfg (<[i := set_grid_wh (grid_wh x + v) x]> tl) h
  <= hour_usage cfg tl h + (if String.eqb (hour x) h then v else 0).
Proof.
  intros Hx Hv. unfold hour_usage.
  rewrite insert_take_drop by (by eapply lookup_lt_Some).
  rewrite <- (take_drop_middle tl i x Hx) at 3.
  rewrite !map_app, !Qsum_app. cbn [map]. rewrite !Qsum_cons. simpl.
  destruct (String.eqb (hour x) h); [|lra].
  qminmax; lra.
Qed.

Lemma fill_keep_raises (limit_wh : Q) (tl0 : timeline) (cands : list nat) :
  ∀ tl hu tl' hu',
    import_raised_to_load cfg tl0 tl →
    (∀ h, hour_usage cfg tl h <= dict_get hu h
          ∧ dict_get hu h <= Qmax (hour_usage cfg tl0 h) limit_wh) →
    fill_loop_keep cfg limit_wh cands tl hu = Ok (tl', hu') →
    import_raised_to_load cfg tl0 tl'
    ∧ ∀ h, hour_usage cfg tl' h <= dict_get hu' h
           ∧ dict_get hu' h <= Qmax (hour_usage cfg tl0 h) limit_wh.
Proof.
  induction cands as [|i rest IH]; intros tl hu tl' hu' Hr Hu; cbn [fill_loop_keep].
  - by intros [= <- <-].
  - destruct (getitem tl i) as [item|] eqn:Hitem; [|done]. rewrite bind_Ok.
    apply getitem_Ok in Hitem. cbv zeta.
    destruct (Qltb _ 1) eqn:Ep; [by apply IH|]. qhyps.
    destruct (Qltb _ 1) eqn:El; [by apply IH|]. qhyps.
    set (take := py_min (limit_wh - dict_get hu (hour item))
                        (base_net_load_wh item - (grid_wh item + BIAS))).
    assert (Htake : 1 <= take ∧ take <= limit_wh - dict_get hu (hour item)
                    ∧ take <= base_net_load_wh item - (grid_wh item + BIAS)).
    { unfold take. pose proof (py_min_le_l (limit_wh - dict_get hu (hour item))
                                 (base_net_load_wh item - (grid_wh item + BIAS))).
      pose proof (py_min_le_r (limit_wh - dict_get hu (hour item))
                    (base_net_load_wh item - (grid_wh item + BIAS))).
      split; [|done]. unfold py_min. qcases; lra. }
    destruct Htake as (Ht1 & Htp & Htl).
    destruct (add_grid tl i take) as [tl1|] eqn:Ea; [|done]. rewrite bind_Ok.
    destruct (dict_add hu (hour item) take) as [hu1|] eqn:Ed; [|done].
    rewrite bind_Ok.
    apply add_grid_Ok in Ea as (x & Hx & ->). simplify_eq.
    pose proof (dict_add_Ok _ _ _ _ Ed) as Hhu1.
    apply IH.
    + destruct (Forall2_lookup_r _ _ _ _ _ Hr Hitem) as (x0 & Hx0 & E0 & L0 & B0).
      unfold import_raised_to_load.
      rewrite <- (list_insert_id tl0 i x0 Hx0).
      apply Forall2_insert; [done|].
      rewrite E0 in *. simpl in *. split; [done|]. split; [lra|].
      qminmax; lra.
    + intros h. destruct (Hu h) as [Hu1 Hu2].
      pose proof (hour_usage_insert_le tl i item take h Hitem ltac:(lra)) as Hle.
      rewrite Hhu1. revert Hle.
      destruct (String.eqb (hour item) h) eqn:Eh; intros Hle.
      * apply String.eqb_eq in Eh. rewrite Eh in *.
        split; [lra|]. qminmax; lra.
      * split; [lra|done].
Qed.

Lemma import_raised_to_load_raised (tl tl' : timeline) :
  import_raised_to_load cfg tl tl' → import_raised tl tl'.
Proof. intros H. eapply Forall2_impl; [exact H|]. by intros x y (? & ? & _). Qed.

Lemma cheap_fill_spec (tl tl' : timeline) (soc limit_wh : Q) :
  phase_smart_fill_cheap_hours cfg tl soc limit_wh = Ok tl' →
  import_raised_to_load cfg tl tl'
  ∧ ∀ h, hour_usage cfg tl' h <= Qmax (hour_usage cfg tl h) limit_wh.
Proof.
  intros Hrun.
  unfold phase_smart_fill_cheap_hours in Hrun. cbv zeta in Hrun.
  rewrite fill_loop_keep_eq in Hrun.
  destruct (fill_loop_keep cfg limit_wh _ tl _) as [[tl1 hu1]|] eqn:E; [|done].
  rewrite bind_Ok in Hrun. injection Hrun as <-. cbn [fst].
  apply (fill_keep_raises limit_wh tl) in E as [Hr Hu].
  - split; [done|]. intros h. destruct (Hu h). lra.
  - apply Forall2_same_length_lookup_2; [done|].
    intros j x y Hx Hy. simplify_eq. split; [by rewrite set_grid_wh_same|].
    split; [lra|]. apply Q.le_max_l.
  - intros h. pose proof (usage_map_agrees tl h) as Ha. split; [lra|].
    rewrite Ha. apply Q.le_max_l.
Qed.

(** X10. Whenever [phase_smart_fill_cheap_hours] returns, the plan differs
    from the one it was given in [grid_wh] only; no slot's import is
    lowered, and a slot's realized import is at most the larger of what it
    was and the slot's load; the positive import of every hour is at most
    the larger of what it was and the limit; and the replayed battery
    profile of the result is in no slot below the profile of the input. *)
Theorem cheap_fill_only_adds (tl tl' : timeline) (soc limit_wh : Q)
    (Hrun : phase_smart_fill_cheap_hours cfg tl soc limit_wh = Ok tl') :
  import_raised_to_load cfg tl tl'
  ∧ (∀ h, hour_usage cfg tl' h <= Qmax (hour_usage cfg tl h) limit_wh)
  ∧ ∃ prof prof',
      current_profile cfg tl soc = Ok prof
      ∧ current_profile cfg tl' soc = Ok prof'
      ∧ Forall2 Qle prof prof'.
Proof.
  destruct (cheap_fill_spec _ _ _ _ Hrun) as [Hr Hu].
  split; [done|]. split; [done|].
  exists (sim cfg soc (map grid_wh tl) tl), (sim cfg soc (map grid_wh tl') tl').
  split; [apply current_profile_sim|]. split; [apply current_profile_sim|].
  by apply import_raised_profile, import_raised_to_load_raised.
Qed.

(** ** The cheap-hour fill on a plan without import *)

Lemma fill_keep_empty_usage (limit_wh : Q) (tl : timeline) (cands : list nat) :
  1 <= limit_wh →
  (∀ j, j ∈ cands → (j < length tl)%nat) →
  (∃ i x, i ∈ cands ∧ tl !! i = Some x
          ∧ 1 <= base_net_load_wh x - (grid_wh x + BIAS)) →
  fill_loop_keep cfg limit_wh cands tl ∅ = Raise KeyError.
Proof.
  intros Hlimit. induction cands as [|j rest IH]; intros Hlt (i & x & Hi & Hx & Hroom).
  { by apply elem_of_nil in Hi. }
  cbn [fill_loop_keep].
  destruct (lookup_lt_is_Some_2 tl j) as [item Hitem]; [apply Hlt; by left|].
  rewrite (getitem_lookup _ _ _ Hitem), bind_Ok. cbv zeta.
  assert (Ep : Qltb (limit_wh - dict_get (∅ : gmap string Q) (hour item)) 1 = false).
  { apply Qltb_false. unfold dict_get. rewrite lookup_empty. lra. }
  rewrite Ep. clear Ep.
  destruct (Qltb _ 1) eqn:El; qhyps.
  - apply IH; [intros k Hk; apply Hlt; by right|].
    apply elem_of_cons in Hi as [->|Hi]; [|eauto].
    simplify_eq. lra.
  - unfold add_grid. rewrite (getitem_lookup _ _ _ Hitem), !bind_Ok.
    unfold dict_add, getkey. rewrite lookup_empty. done.
Qed.

Lemma cheap_candidates_elem (tl : timeline) (i : nat) :
  i ∈ cheap_candidates tl
  ↔ ∃ x, tl !! i = Some x ∧ price x < average_price tl.
Proof.
  unfold cheap_candidates. cbv zeta.
  rewrite (Permutation_map fst (sort_by_perm _ _)).
  rewrite list_elem_of_fmap. split.
  - intros ([j x] & -> & Hin). apply filter_enumerate_elem in Hin as [Hx Hp].
    simpl in *. exists x. split; [done|]. by apply Qltb_true.
  - intros (x & Hx & Hp). exists (i, x). split; [done|].
    apply filter_enumerate_elem. split; [done|]. by apply Qltb_true.
Qed.

(** X11. When no slot of the plan has a positive realized import,
    [phase_smart_fill_cheap_hours] raises [KeyError] as soon as it has
    something to place (a limit of 1 Wh or more and a slot priced below
    the average with 1 Wh or more of load not imported): the import it
    places is added to [hourly_usage[hour]], and the usage map has a key
    only for hours with a positive import. *)
Theorem cheap_fill_raises_without_import
    (tl : timeline) (soc limit_wh : Q) (i : nat) (x : slot)
    (Hnone : Forall (λ x, grid_wh x + BIAS <= 0) tl)
    (Hlimit : 1 <= limit_wh)
    (Hi : tl !! i = Some x)
    (Hcheap : price x < average_price tl)
    (Hload : 1 <= base_net_load_wh x - (grid_wh x + BIAS)) :
  phase_smart_fill_cheap_hours cfg tl soc limit_wh = Raise KeyError.
Proof.
  unfold phase_smart_fill_cheap_hours. cbv zeta.
  rewrite fill_loop_keep_eq, (usage_map_empty tl Hnone).
  rewrite fill_keep_empty_usage; [done|done| |].
  - intros j Hj. apply cheap_candidates_elem in Hj as (y & Hy & _).
    by eapply lookup_lt_Some.
  - exists i, x. split; [|done]. apply cheap_candidates_elem. eauto.
Qed.

(** ** Peak shaving and the simulator agree *)

Lemma peak_shave_replay (optimal : Q) (Hrate : 0 <= MAXOUT) (tl : timeline) :
  ∀ curr curr',
    curr' == curr → curr <= CAP →
    Forall2 Qeq
      (sim cfg curr' (map grid_wh (peak_shave cfg optimal curr tl))
           (peak_shave cfg optimal curr tl))
      (map batt_wh (peak_shave cfg optimal curr tl)).
Proof.
  induction tl as [|item rest IH]; intros curr curr' Heq Hcap.
  - constructor.
  - destruct (peak_shave_cons optimal curr item rest) as (dis & -> & Hdis & _).
    destruct (Hdis Hrate) as [Hd0 Hd1].
    cbn [map sim grid_wh batt_wh set_batt_wh set_grid_wh].
    assert (Hnext : next_charge cfg curr' (base_net_load_wh item - dis - BIAS)
                      (set_batt_wh (curr - dis)
                         (set_grid_wh (base_net_load_wh item - dis - BIAS) item))
                    == curr - dis).
    { unfold next_charge. simpl. qcases; lra. }
    constructor; [done|].
    apply IH; [done|lra].
Qed.

Lemma peak_shave_same_inputs (optimal : Q) (tl : timeline) :
  ∀ curr, same_inputs tl (peak_shave cfg optimal curr tl).
Proof.
  induction tl as [|item rest IH]; intros curr; cbn [peak_shave]; constructor.
  - done.
  - apply IH.
Qed.

(** X12. [phase_1_peak_shaving] changes the planned [grid_wh] and the
    tracked [batt_wh] of the slots and nothing else.  For a starting charge
    within the capacity (and a non-negative rate limit) the charge it
    tracks is the one the simulator replays from the imports it plans:
    phase 1 never charges, so the simulator's upper clamp stays idle. *)
Theorem peak_shaving_tracks_the_replay (tl : timeline) (soc : Q)
    (Hrate : 0 <= MAXOUT) (Hcap : soc <= CAP) :
  let tl' := fst (phase_1_peak_shaving cfg tl soc) in
  same_inputs tl tl'
  ∧ ∃ prof, current_profile cfg tl' soc = Ok prof
            ∧ Forall2 Qeq prof (map batt_wh tl').
Proof.
  cbn [phase_1_peak_shaving fst]. cbv zeta. cbn [fst].
  split; [apply peak_shave_same_inputs|].
  eexists. split; [apply current_profile_sim|].
  apply peak_shave_replay; [done|reflexivity|done].
Qed.

(** ** The swap pass conserves the import *)

Lemma raise_ceiling_fold (tl : timeline) :
  ∀ m,
    let r := fold_left (λ curr_max x,
                          let g := grid_wh x + BIAS in
                          if Qltb curr_max g then g else curr_max) tl m in
    m <= r ∧ Forall (λ x, grid_wh x + BIAS <= r) tl.
Proof.
  induction tl as [|x tl IH]; intros m; cbn [fold_left]; cbv zeta.
  - split; [lra|constructor].
  - destruct (IH (if Qltb m (grid_wh x + BIAS) then grid_wh x + BIAS else m))
      as [H1 H2].
    cbv zeta in H1, H2. revert H1 H2.
    set (r := fold_left _ tl _). intros H1 H2.
    destruct (Qltb m (grid_wh x + BIAS)) eqn:E; qhyps.
    + split; [lra|]. constructor; [lra|done].
    + split; [lra|]. constructor; [lra|done].
Qed.

Lemma raise_ceiling_spec (tl : timeline) (swap_ceiling_wh : Q) :
  swap_ceiling_wh <= raise_ceiling cfg tl swap_ceiling_wh
  ∧ Forall (λ x, grid_wh x + BIAS <= raise_ceiling cfg tl swap_ceiling_wh) tl.
Proof.
  unfold raise_ceiling. cbv zeta.
  destruct (raise_ceiling_fold tl 0) as [_ H]. cbv zeta in H. revert H.
  set (r := fold_left _ tl 0). intros H.
  destruct (Qltb swap_ceiling_wh r) eqn:E; qhyps.
  - split; [lra|done].
  - split; [lra|]. eapply Forall_impl; [exact H|]. intros x Hx. simpl in Hx. lra.
Qed.

Lemma sub_grid_Ok (tl tl' : timeline) (i : nat) (v : Q) :
  sub_grid tl i v = Ok tl' →
  ∃ x, tl !! i = Some x ∧ tl' = <[i := set_grid_wh (grid_wh x - v) x]> tl.
Proof.
  unfold sub_grid. destruct (getitem tl i) as [x|] eqn:E; [|done].
  cbn. intros [= <-]. apply getitem_Ok in E. eauto.
Qed.

Lemma insert_same_but_grid (tl : timeline) (i : nat) (x : slot) (g : Q) :
  tl !! i = Some x → same_but_grid tl (<[i := set_grid_wh g x]> tl).
Proof.
  intros Hx. apply same_but_grid_of_lookup; [by rewrite length_insert|].
  intros j y Hy. destruct (decide (i = j)) as [->|Hne].
  - rewrite list_lookup_insert_eq by (by eapply lookup_lt_Some).
    simplify_eq. eauto.
  - rewrite list_lookup_insert_ne by done. exists (grid_wh y).
    by rewrite set_grid_wh_same.
Qed.

(** A swap moves 50 Wh of import: the sum is kept, and no slot but the
    charge slot has a higher import afterwards. *)
Lemma shift_50_spec (tl tl' : timeline) (s d : nat) (bound : Q) :
  shift_50 tl s d = Ok tl' →
  same_but_grid tl tl'
  ∧ Qsum (map grid_wh tl') == Qsum (map grid_wh tl)
  ∧ ((∀ x, tl !! s = Some x → grid_wh x + 50 + BIAS < bound) →
     Forall (λ y, grid_wh y + BIAS < bound) tl →
     Forall (λ y, grid_wh y + BIAS < bound) tl').
Proof.
  unfold shift_50. destruct (add_grid tl s 50) as [tl1|] eqn:Ea; [|done].
  rewrite bind_Ok. intros Es.
  apply add_grid_Ok in Ea as (x & Hx & ->).
  apply sub_grid_Ok in Es as (y & Hy & ->).
  split; [|split].
  - eapply same_but_grid_trans; by apply insert_same_but_grid.
  - rewrite (Qsum_grid_insert _ _ _ _ Hy), (Qsum_grid_insert _ _ _ _ Hx). lra.
  - intros Hs Hall. specialize (Hs x Hx).
    apply Forall_lookup_2. intros j z Hz.
    assert (Hmid : ∀ k w, <[s := set_grid_wh (grid_wh x + 50) x]> tl !! k = Some w →
                          grid_wh w + BIAS < bound).
    { intros k w Hw. destruct (decide (s = k)) as [->|Hne].
      - rewrite list_lookup_insert_eq in Hw by (by eapply lookup_lt_Some).
        simplify_eq. simpl. lra.
      - rewrite list_lookup_insert_ne in Hw by done.
        by apply (Forall_lookup_1 _ _ _ _ Hall Hw). }
    destruct (decide (d = j)) as [->|Hne].
    + rewrite list_lookup_insert_eq in Hz by (by eapply lookup_lt_Some).
      simplify_eq. simpl. specialize (Hmid j y Hy). lra.
    + rewrite list_lookup_insert_ne in Hz by done. by eapply Hmid.
Qed.

Lemma swap_while_conserves (soc ceil : Q) (n : nat) :
  ∀ tl log,
    Forall (λ y, grid_wh y + BIAS < ceil + 50) tl →
    ∃ r,
      swap_while cfg n tl soc ceil log = Ok r
      ∧ same_but_grid tl (fst r)
      ∧ Qsum (map grid_wh (fst r)) == Qsum (map grid_wh tl)
      ∧ Forall (λ y, grid_wh y + BIAS < ceil + 50) (fst r).
Proof.
  induction n as [|n IH]; intros tl log Hall; cbn [swap_while].
  - exists (tl, log). split; [done|]. split; [apply same_but_grid_refl|].
    split; [reflexivity|done].
  - destruct (find_best_swap_spec tl soc ceil) as ([best max] & Hrun & _ & Hbest & _).
    cbn [fst snd] in *. rewrite Hrun, bind_Ok.
    destruct best as [[s d]|].
    + destruct Hbest as (Hok & _ & _).
      destruct (swap_pair_ok_lookup _ _ _ _ _ Hok) as (ic & ie & Hic & Hie & Hbuy & _).
      destruct (shift_50_Ok tl s d) as [tl1 Hshift];
        [by eapply lookup_lt_Some|by eapply lookup_lt_Some|].
      rewrite Hshift, bind_Ok.
      destruct (shift_50_spec _ _ _ _ (ceil + 50) Hshift) as (Hs1 & Hsum1 & Hb1).
      destruct (IH tl1 (log ++ [(tl, (s, d))])) as (r & Hloop & Hs2 & Hsum2 & Hb2).
      { apply Hb1; [|done]. intros x Hx. simplify_eq.
        unfold swap_buy_ok in Hbuy. apply andb_true_iff in Hbuy as [_ Hc].
        qhyps. lra. }
      exists r. split; [done|]. split; [by eapply same_but_grid_trans|].
      split; [by rewrite Hsum2|done].
    + exists (tl, log). split; [done|]. split; [apply same_but_grid_refl|].
      split; [reflexivity|done].
Qed.

Lemma swap_pass_spec (tl : timeline) (soc swap_ceiling_wh : Q) :
  ∃ tl',
    phase_3_price_optimization cfg tl soc swap_ceiling_wh = Ok tl'
    ∧ same_but_grid tl tl'
    ∧ Qsum (map grid_wh tl') == Qsum (map grid_wh tl)
    ∧ Forall (λ y, grid_wh y + BIAS < raise_ceiling cfg tl swap_ceiling_wh + 50) tl'.
Proof.
  unfold phase_3_price_optimization, phase_3_swaps.
  destruct (raise_ceiling_spec tl swap_ceiling_wh) as [_ Hall].
  destruct (swap_while_conserves soc (raise_ceiling cfg tl swap_ceiling_wh) 500 tl [])
    as (r & -> & H1 & H2 & H3).
  { eapply Forall_impl; [exact Hall|]. intros x Hx. simpl in Hx. lra. }
  rewrite bind_Ok. eauto.
Qed.

(** X13. [phase_3_price_optimization] always returns; the plan differs
    from the one it was given in [grid_wh] only, the imports of the slots
    add up to what they did before (every swap moves 50 Wh from one slot to
    another), and no slot's realized import reaches the swap ceiling in
    force (the given ceiling, raised to the largest import already
    planned) plus 50 Wh. *)
Theorem swap_pass_conserves_import (tl : timeline) (soc swap_ceiling_wh : Q) :
  ∃ tl',
    phase_3_price_optimization cfg tl soc swap_ceiling_wh = Ok tl'
    ∧ same_but_grid tl tl'
    ∧ Qsum (map grid_wh tl') == Qsum (map grid_wh tl)
    ∧ Forall (λ y, grid_wh y + BIAS < raise_ceiling cfg tl swap_ceiling_wh + 50) tl'.
Proof. apply swap_pass_spec. Qed.

(** ** The reserve from peak shaving to the cheap-hour fill *)

Lemma Forall2_Qle_lower (r : Q) (l l' : list Q) :
  Forall2 Qle l l' → Forall (λ b, r <= b) l → Forall (λ b, r <= b) l'.
Proof.
  induction 1 as [|a b l l' Hab _ IH]; intros Hl; [constructor|].
  inversion Hl; subst. constructor; [lra|by apply IH].
Qed.

Lemma Forall2_Qeq_lower (r : Q) (l l' : list Q) :
  Forall2 Qeq l l' → Forall (λ b, r <= b) l' → Forall (λ b, r <= b) l.
Proof.
  induction 1 as [|a b l l' Hab _ IH]; intros Hl; [constructor|].
  inversion Hl; subst. constructor; [lra|by apply IH].
Qed.

(** X14. From a starting charge between the reserve and the capacity (and
    with a non-negative rate limit), the plan after phase 1, phase 2 and
    the cheap-hour fill, whenever these return, keeps the replayed battery
    profile at or above the reserve in every slot: phase 1 stops
    discharging at the reserve, and the two later passes only add import. *)
Theorem reserve_kept_up_to_the_fill (tl tl2 tl3 : timeline) (soc limit_wh : Q)
    (Hrate : 0 <= MAXOUT) (Hres : RESERVE <= soc) (Hcap : soc <= CAP)
    (H2 : phase_2_safety_checks cfg (fst (phase_1_peak_shaving cfg tl soc)) soc = Ok tl2)
    (H3 : phase_smart_fill_cheap_hours cfg tl2 soc limit_wh = Ok tl3) :
  ∃ prof, current_profile cfg tl3 soc = Ok prof ∧ Forall (λ b, RESERVE <= b) prof.
Proof.
  exists (sim cfg soc (map grid_wh tl3) tl3). split; [apply current_profile_sim|].
  apply safety_while_spec in H2; [|done].
  apply cheap_fill_spec in H3 as [H3 _]. apply import_raised_to_load_raised in H3.
  eapply Forall2_Qle_lower; [apply (import_raised_profile _ _ soc H3)|].
  eapply Forall2_Qle_lower; [apply (import_raised_profile _ _ soc H2)|].
  cbn [phase_1_peak_shaving fst].
  set (opt := phase_1_optimal cfg tl soc).
  pose proof (peak_shave_replay opt Hrate tl soc soc ltac:(reflexivity) Hcap) as Hrep.
  destruct (peak_shave_spec opt Hrate tl soc) as (_ & Hbatt & _).
  cbv zeta in Hbatt.
  eapply Forall2_Qeq_lower; [exact Hrep|].
  apply Forall_fmap. eapply Forall_impl; [exact Hbatt|].
  intros x Hx. simpl in *. revert Hx. qminmax; lra.
Qed.

(** ** The controller *)

Lemma write_profile_fold (prof : list Q) (l : timeline) :
  ∀ k acc,
    (k + length l ≤ length prof)%nat →
    foldM (λ (acc : timeline) (c : nat * slot),
             b ← getitem prof (fst c); Ok (acc ++ [set_batt_wh b (snd c)]))
          acc (zip (seq k (length l)) l)
    = Ok (acc ++ zip_with set_batt_wh (drop k prof) l).
Proof.
  induction l as [|x l IH]; intros k acc Hlen; cbn [length seq zip zip_with foldM].
  - by rewrite zip_with_nil_r, app_nil_r.
  - simpl in Hlen.
    destruct (lookup_lt_is_Some_2 prof k) as [b Hb]; [lia|].
    cbn [fst snd]. rewrite (getitem_lookup _ _ _ Hb), !bind_Ok.
    rewrite IH by lia. rewrite (drop_S _ _ _ Hb). cbn [zip_with].
    by rewrite <- app_assoc.
Qed.

Lemma write_profile_eq (prof : list Q) (tl : timeline) :
  length prof = length tl →
  write_profile prof tl = Ok (zip_with set_batt_wh prof tl).
Proof.
  intros Hlen. unfold write_profile, enumerate.
  rewrite write_profile_fold by lia. by rewrite drop_0.
Qed.

Lemma write_grids_fold (grids : list Q) (l : timeline) :
  ∀ k acc,
    (k + length l ≤ length grids)%nat →
    foldM (λ (acc : timeline) (c : nat * slot),
             g ← getitem grids (fst c); Ok (acc ++ [set_grid_wh g (snd c)]))
          acc (zip (seq k (length l)) l)
    = Ok (acc ++ zip_with set_grid_wh (drop k grids) l).
Proof.
  induction l as [|x l IH]; intros k acc Hlen; cbn [length seq zip zip_with foldM].
  - by rewrite zip_with_nil_r, app_nil_r.
  - simpl in Hlen.
    destruct (lookup_lt_is_Some_2 grids k) as [b Hb]; [lia|].
    cbn [fst snd]. rewrite (getitem_lookup _ _ _ Hb), !bind_Ok.
    rewrite IH by lia. rewrite (drop_S _ _ _ Hb). cbn [zip_with].
    by rewrite <- app_assoc.
Qed.

(** The baseline of the first snapshot is undone: the imports saved before
    it are written back. *)
Lemma write_grids_restore (tl : timeline) (f : slot → Q) :
  write_grids (map grid_wh tl) (map (λ x, set_grid_wh (f x) x) tl) = Ok tl.
Proof.
  unfold write_grids, enumerate.
  rewrite write_grids_fold by (rewrite !length_map; lia).
  rewrite drop_0, app_nil_l. f_equal.
  induction tl as [|x tl IH]; cbn [map zip_with]; [done|].
  rewrite IH. f_equal. by destruct x.
Qed.

Lemma sim_same_loads (tl tl' : timeline) :
  Forall2 (λ x y, base_net_load_wh x = base_net_load_wh y) tl tl' →
  ∀ curr grid_cmds, sim cfg curr grid_cmds tl = sim cfg curr grid_cmds tl'.
Proof.
  induction 1 as [|x y l l' Hxy _ IH]; intros curr [|g gs]; simpl; try done.
  unfold next_charge. rewrite Hxy. f_equal. apply IH.
Qed.

Lemma replayed_spec (tl : timeline) (soc : Q) :
  Forall2 (λ x y, y = set_batt_wh (batt_wh y) x) tl (replayed cfg tl soc)
  ∧ map batt_wh (replayed cfg tl soc) = sim cfg soc (map grid_wh tl) tl.
Proof.
  unfold replayed.
  assert (Hlen : length (sim cfg soc (map grid_wh tl) tl) = length tl).
  { rewrite sim_length by (by rewrite length_map). by rewrite length_map. }
  revert Hlen. generalize (sim cfg soc (map grid_wh tl) tl). intros prof.
  revert prof. induction tl as [|x tl IH]; intros [|b prof] Hlen; try done.
  cbn [zip_with map]. destruct (IH prof) as [H1 H2]; [by injection Hlen|].
  split; [by constructor|]. by rewrite H2.
Qed.

Lemma replayed_same_inputs (tl : timeline) (soc : Q) :
  same_inputs tl (replayed cfg tl soc).
Proof.
  destruct (replayed_spec tl soc) as [H _].
  eapply Forall2_impl; [exact H|]. intros x y ->. by destruct x.
Qed.

Lemma replayed_profile (tl : timeline) (soc : Q) :
  current_profile cfg (replayed cfg tl soc) soc = Ok (map batt_wh (replayed cfg tl soc)).
Proof.
  rewrite current_profile_sim. destruct (replayed_spec tl soc) as [H1 H2].
  rewrite H2. f_equal.
  assert (Hg : map grid_wh (replayed cfg tl soc) = map grid_wh tl).
  { clear H2. induction H1 as [|x y l l' Hxy _ IH]; cbn [map]; [done|].
    rewrite IH, Hxy. done. }
  rewrite Hg. symmetry. apply sim_same_loads.
  eapply Forall2_impl; [exact H1|]. by intros x y ->.
Qed.

Lemma save_snapshot_eq (return_history : bool) (tl : timeline) (soc : Q)
    (history : list snapshot) (name : string) :
  save_snapshot cfg return_history tl soc history name
  = Ok (history ++ if return_history
                   then [mkSnapshot name (replayed cfg tl soc) soc (PREVIOUS_PEAK_WH cfg)]
                   else []).
Proof.
  unfold save_snapshot. destruct return_history; [|by rewrite app_nil_r].
  rewrite current_profile_sim, bind_Ok, write_profile_eq; [done|].
  rewrite sim_length by (by rewrite length_map). by rewrite length_map.
Qed.

Lemma generate_reports_eq (tl : timeline) (soc : Q) :
  generate_reports cfg tl soc = Ok (replayed cfg tl soc).
Proof.
  unfold generate_reports.
  rewrite current_profile_sim, bind_Ok, write_profile_eq; [done|].
  rewrite sim_length by (by rewrite length_map). by rewrite length_map.
Qed.

Lemma same_inputs_trans (tl tl' tl'' : timeline) :
  same_inputs tl tl' → same_inputs tl' tl'' → same_inputs tl tl''.
Proof.
  intros H1 H2. apply Forall2_same_length_lookup_2.
  - apply Forall2_length in H1, H2. congruence.
  - intros j x z Hx Hz.
    destruct (Forall2_lookup_l _ _ _ _ _ H1 Hx) as (y & Hy & E1).
    destruct (Forall2_lookup_l _ _ _ _ _ H2 Hy) as (z' & Hz' & E2).
    simplify_eq. rewrite E2 at 1. rewrite E1. reflexivity.
Qed.

Lemma same_but_grid_same_inputs (tl tl' : timeline) :
  same_but_grid tl tl' → same_inputs tl tl'.
Proof.
  intros H. eapply Forall2_impl; [exact H|]. intros x y ->. by destruct x.
Qed.

Lemma same_inputs_refl (tl : timeline) : same_inputs tl tl.
Proof. apply same_but_grid_same_inputs, same_but_grid_refl. Qed.

(** The safety fill and the safety pass change [grid_wh] only. *)
Lemma fill_pass_1_frame (cands : list cand) :
  ∀ tl hu rem r, fill_pass_1 cands tl hu rem = Ok r → same_but_grid tl (fst (fst r)).
Proof.
  induction cands as [|c rest IH]; intros tl hu rem r; cbn [fill_pass_1].
  - intros [= <-]. apply same_but_grid_refl.
  - destruct (Qle_bool rem 0); [intros [= <-]; apply same_but_grid_refl|].
    cbv zeta. destruct (add_grid tl (c_index c) _) as [tl1|] eqn:Ea; [|done].
    rewrite bind_Ok. destruct (dict_add hu (c_hour c) _) as [hu1|]; [|done].
    rewrite bind_Ok. intros Hrun. apply add_grid_spec in Ea as (_ & Hs & _).
    eapply same_but_grid_trans; [exact Hs|]. by eapply IH.
Qed.

Lemma fill_pass_2_frame (cands : list cand) :
  ∀ tl rem r, fill_pass_2 cands tl rem = Ok r → same_but_grid tl (fst r).
Proof.
  induction cands as [|c rest IH]; intros tl rem r; cbn [fill_pass_2].
  - intros [= <-]. apply same_but_grid_refl.
  - destruct (Qle_bool rem 0); [intros [= <-]; apply same_but_grid_refl|].
    cbv zeta. destruct (add_grid tl (c_index c) _) as [tl1|] eqn:Ea; [|done].
    rewrite bind_Ok. intros Hrun. apply add_grid_spec in Ea as (_ & Hs & _).
    eapply same_but_grid_trans; [exact Hs|]. by eapply IH.
Qed.

Lemma safety_fill_frame (tl tl' : timeline) (needed soc : Q) (end_index : nat) :
  distribute_smart_safety_fill cfg tl needed end_index soc = Ok tl' →
  same_but_grid tl tl'.
Proof.
  unfold distribute_smart_safety_fill. cbv zeta.
  destruct (get_candidates cfg tl _ end_index soc false) as [c1|]; [|done].
  rewrite bind_Ok.
  destruct (fill_pass_1 (sort_by c_price c1) tl _ needed) as [[[tl1 hu1] rem1]|] eqn:E1;
    [|done].
  rewrite bind_Ok. apply fill_pass_1_frame in E1. cbn [fst] in E1.
  destruct (Qltb 0 rem1).
  - destruct (get_candidates cfg tl1 hu1 end_index soc true) as [c2|]; [|done].
    rewrite bind_Ok.
    destruct (fill_pass_2 (sort_by c_price c2) tl1 rem1) as [[tl2 rem2]|] eqn:E2;
      [|done].
    rewrite bind_Ok. apply fill_pass_2_frame in E2. cbn [fst] in E2.
    destruct (Qltb 0 rem2).
    + intros Ha. apply add_grid_spec in Ha as (_ & Hs & _).
      eapply same_but_grid_trans; [exact E1|]. by eapply same_but_grid_trans.
    + intros [= <-]. by eapply same_but_grid_trans.
  - rewrite bind_Ok. destruct (Qltb 0 rem1).
    + intros Ha. apply add_grid_spec in Ha as (_ & Hs & _).
      by eapply same_but_grid_trans.
    + by intros [= <-].
Qed.

Lemma safety_checks_frame (n : nat) :
  ∀ tl soc tl', safety_while cfg n tl soc = Ok tl' → same_but_grid tl tl'.
Proof.
  induction n as [|n IH]; intros tl soc tl'; cbn [safety_while].
  - intros [= <-]. apply same_but_grid_refl.
  - rewrite current_profile_sim, bind_Ok.
    destruct (safety_scan cfg tl soc _ (enumerate tl)) as [[tl1 v]|] eqn:Es; [|done].
    rewrite bind_Ok.
    assert (Hs : same_but_grid tl tl1).
    { revert Es. generalize (enumerate tl). intros items.
      induction items as [|[i item] rest IHi]; cbn [safety_scan].
      - intros [= <- <-]. apply same_but_grid_refl.
      - destruct (if (i =? 0)%nat then _ else _) as [start|]; [|done].
        rewrite bind_Ok. cbv zeta.
        destruct (Qltb LOWMAX _); [|done].
        destruct (Qltb start THROTTLE); [|done].
        destruct (distribute_smart_safety_fill cfg tl _ i soc) as [tl2|] eqn:Ed;
          [|done].
        rewrite bind_Ok. intros [= <- <-]. by eapply safety_fill_frame. }
    destruct v; cbn [negb].
    + intros Hrest. eapply same_but_grid_trans; [exact Hs|]. by eapply IH.
    + by intros [= <-].
Qed.

Lemma intra_hour_pass_frame (tl tl' : timeline) (soc : Q) :
  phase_optimize_within_hours cfg tl soc = Ok tl' → same_but_grid tl tl'.
Proof.
  unfold phase_optimize_within_hours. cbv zeta.
  destruct (foldM (intra_hour cfg) (tl, soc) _) as [[tl1 soc1]|] eqn:E; [|done].
  rewrite bind_Ok. intros [= <-]. by apply hours_fold_frame in E as [H _].
Qed.

(** The stages of a run, each on the plan the stage before it left. *)
Lemma run_phases_spec (return_history : bool) (tl : timeline) (soc base_price : Q)
    (out : run_output) (ran : list string) :
  run_phases cfg return_history tl soc base_price = Ok (out, ran) →
  if return_history then
    ∃ history,
      out = Returned_history history
      ∧ length history = (if ENABLE_ARBITRAGE cfg then 7 else 6)%nat
      ∧ Forall (snapshot_ok cfg tl soc) history
      ∧ (∃ s, head history = Some s
              ∧ Forall (λ x, grid_wh x = base_net_load_wh x - BIAS) (snap_timeline s))
  else
    ∃ tl', out = Returned_timeline tl'
           ∧ same_inputs tl tl'
           ∧ current_profile cfg tl' soc = Ok (map batt_wh tl').
Proof.
  unfold run_phases. cbv zeta.
  rewrite !save_snapshot_eq, !bind_Ok, write_grids_restore, bind_Ok.
  cbn [phase_1_peak_shaving].
  set (tl1 := peak_shave cfg (phase_1_optimal cfg tl soc) soc tl).
  assert (H1 : same_inputs tl tl1) by apply peak_shave_same_inputs.
  rewrite !save_snapshot_eq, !bind_Ok.
  destruct (phase_2_safety_checks cfg tl1 soc) as [tl2|] eqn:E2; [|done].
  rewrite bind_Ok.
  assert (H2 : same_inputs tl tl2).
  { eapply same_inputs_trans; [exact H1|].
    by apply same_but_grid_same_inputs, (safety_checks_frame 10 _ soc). }
  rewrite !save_snapshot_eq, !bind_Ok.
  destruct (phase_smart_fill_cheap_hours cfg tl2 soc _) as [tl3|] eqn:E3; [|done].
  rewrite bind_Ok.
  assert (H3 : same_inputs tl tl3).
  { eapply same_inputs_trans; [exact H2|].
    apply same_but_grid_same_inputs, import_raised_same_but_grid,
      import_raised_to_load_raised.
    by apply cheap_fill_spec in E3 as [? _]. }
  rewrite !save_snapshot_eq, !bind_Ok.
  destruct (phase_optimize_within_hours cfg tl3 soc) as [tl4|] eqn:E4; [|done].
  rewrite bind_Ok.
  assert (H4 : same_inputs tl tl4).
  { eapply same_inputs_trans; [exact H3|].
    by apply same_but_grid_same_inputs, (intra_hour_pass_frame _ _ soc). }
  rewrite !save_snapshot_eq, !bind_Ok.
  assert (Hsnap : ∀ name tlk, same_inputs tl tlk →
            snapshot_ok cfg tl soc
              (mkSnapshot name (replayed cfg tlk soc) soc (PREVIOUS_PEAK_WH cfg))).
  { intros name tlk Hk. split; [|split; [|done]].
    - eapply same_inputs_trans; [exact Hk|apply replayed_same_inputs].
    - apply replayed_profile. }
  assert (Hbase : Forall (λ x, grid_wh x = base_net_load_wh x - BIAS)
            (replayed cfg (map (λ x, set_grid_wh (base_net_load_wh x - BIAS) x) tl) soc)).
  { destruct (replayed_spec (map (λ x, set_grid_wh (base_net_load_wh x - BIAS) x) tl) soc)
      as [Hr _].
    apply Forall_lookup_2. intros j y Hy.
    destruct (Forall2_lookup_r _ _ _ _ _ Hr Hy) as (x & Hx & ->).
    apply list_lookup_fmap_Some in Hx as (x0 & -> & _). done. }
  assert (H0 : same_inputs tl (map (λ x, set_grid_wh (base_net_load_wh x - BIAS) x) tl)).
  { apply Forall2_fmap_r, Forall_Forall2_diag, Forall_forall. intros x _. by destruct x. }
  destruct (ENABLE_ARBITRAGE cfg).
  - destruct (swap_pass_spec tl4 soc
                (if negb (Qltb (PREVIOUS_PEAK_WH cfg / 4) (phase_1_optimal cfg tl soc))
                 then PREVIOUS_PEAK_WH cfg / 4 else phase_1_optimal cfg tl soc))
      as (tl5 & -> & Hs5 & _).
    rewrite bind_Ok.
    assert (H5 : same_inputs tl tl5).
    { eapply same_inputs_trans; [exact H4|]. by apply same_but_grid_same_inputs. }
    destruct (active_arbitrage_result tl5 soc base_price) as [-> | ->]; [|done].
    rewrite !bind_Ok, !save_snapshot_eq, !bind_Ok.
    destruct return_history; cbn [negb app].
    + rewrite !save_snapshot_eq, !bind_Ok. cbn [app]. intros [= <- <-].
      eexists. split; [reflexivity|]. split; [done|].
      split; [|eexists; split; [reflexivity|exact Hbase]].
      repeat (constructor; [by apply Hsnap|]). constructor.
    + rewrite generate_reports_eq, bind_Ok. intros [= <- <-].
      eexists. split; [reflexivity|]. split; [|apply replayed_profile].
      eapply same_inputs_trans; [exact H5|apply replayed_same_inputs].
  - rewrite !bind_Ok.
    destruct return_history; cbn [negb app].
    + rewrite !save_snapshot_eq, !bind_Ok. cbn [app]. intros [= <- <-].
      eexists. split; [reflexivity|]. split; [done|].
      split; [|eexists; split; [reflexivity|exact Hbase]].
      repeat (constructor; [by apply Hsnap|]). constructor.
    + rewrite generate_reports_eq, bind_Ok. intros [= <- <-].
      eexists. split; [reflexivity|]. split; [|apply replayed_profile].
      eapply same_inputs_trans; [exact H4|apply replayed_same_inputs].
Qed.

(** X15. The timeline a run of [run_optimizer] returns (without history)
    has the input data of the timeline [setup_timeline] gave it, slot by
    slot: only [grid_wh] and [batt_wh] differ; and its [batt_wh] is the
    simulator's replay of its own [grid_wh] from the starting charge. *)
Theorem run_returns_replayed_plan
    (tl tl' : timeline) (soc base_price : Q) (ran : list string)
    (Hrun : run_optimizer cfg (Some (tl, soc, base_price)) false
            = Ok (Returned_timeline tl', ran)) :
  same_inputs tl tl'
  ∧ current_profile cfg tl' soc = Ok (map batt_wh tl').
Proof.
  destruct tl as [|x tl]; [done|]. cbn [run_optimizer] in Hrun.
  apply run_phases_spec in Hrun as (tl2 & [= <-] & H1 & H2). done.
Qed.

(** X16. The history a run of [run_optimizer] returns for a non-empty
    timeline has six entries, seven when the arbitrage is enabled (the
    baseline, one per stage, and the final plan).  The timeline of every
    entry has the input data of the timeline of the run and a [batt_wh]
    that is the replay of the entry's own [grid_wh]; every entry records
    the starting charge and the monthly peak.  In the first entry every
    slot imports its whole load ([grid_wh = base_net_load_wh - bias]). *)
Theorem run_history_snapshots
    (tl : timeline) (soc base_price : Q) (history : list snapshot) (ran : list string)
    (Hne : tl ≠ [])
    (Hrun : run_optimizer cfg (Some (tl, soc, base_price)) true
            = Ok (Returned_history history, ran)) :
  length history = (if ENABLE_ARBITRAGE cfg then 7 else 6)%nat
  ∧ Forall (snapshot_ok cfg tl soc) history
  ∧ ∃ s, head history = Some s
         ∧ Forall (λ x, grid_wh x = base_net_load_wh x - BIAS) (snap_timeline s).
Proof.
  destruct tl as [|x tl]; [done|]. cbn [run_optimizer] in Hrun.
  apply run_phases_spec in Hrun as (h & [= <-] & H1 & H2 & H3). done.
Qed.

(** * The input assembly *)

(** ** The order on strings *)

Lemma ascii_compare_refl (a : ascii) : Ascii.compare a a = Eq.
Proof. unfold Ascii.compare. apply N.compare_refl. Qed.

Lemma ascii_compare_lt_trans (a b c : ascii) :
  Ascii.compare a b = Lt → Ascii.compare b c = Lt → Ascii.compare a c = Lt.
Proof.
  unfold Ascii.compare. rewrite !N.compare_lt_iff. apply N.lt_trans.
Qed.

Lemma string_compare_refl (s : string) : String.compare s s = Eq.
Proof. induction s as [|c s IH]; simpl; [done|]. by rewrite ascii_compare_refl. Qed.

Lemma string_compare_lt_trans (s1 : string) :
  ∀ s2 s3, String.compare s1 s2 = Lt → String.compare s2 s3 = Lt →
           String.compare s1 s3 = Lt.
Proof.
  induction s1 as [|c1 s1 IH]; intros [|c2 s2] [|c3 s3]; simpl; try done.
  destruct (Ascii.compare c1 c2) eqn:E12; try done;
    destruct (Ascii.compare c2 c3) eqn:E23; try done.
  - apply Ascii.compare_eq_iff in E12, E23. subst.
    rewrite ascii_compare_refl. apply IH.
  - apply Ascii.compare_eq_iff in E12. subst. by rewrite E23.
  - apply Ascii.compare_eq_iff in E23. subst. by rewrite E12.
  - by rewrite (ascii_compare_lt_trans _ _ _ E12 E23).
Qed.

Lemma str_lt_le (a b : string) : str_lt a b → str_le a b.
Proof. unfold str_lt, str_le, String.ltb, String.leb. by destruct (String.compare a b). Qed.

Lemma str_le_lt_eq (a b : string) : str_le a b ↔ str_lt a b ∨ a = b.
Proof.
  unfold str_lt, str_le, String.ltb, String.leb. split.
  - destruct (String.compare a b) eqn:E; try done; [|by left].
    right. by apply String.compare_eq_iff.
  - intros [H| ->]; [by destruct (String.compare a b)|].
    by rewrite string_compare_refl.
Qed.

Lemma str_lt_irrefl (a : string) : ¬ str_lt a a.
Proof. unfold str_lt, String.ltb. by rewrite string_compare_refl. Qed.

Lemma str_lt_trans (a b c : string) : str_lt a b → str_lt b c → str_lt a c.
Proof.
  unfold str_lt, String.ltb.
  destruct (String.compare a b) eqn:E1; try done.
  destruct (String.compare b c) eqn:E2; try done.
  by rewrite (string_compare_lt_trans _ _ _ E1 E2).
Qed.

Lemma str_le_refl (a : string) : str_le a a.
Proof. apply str_le_lt_eq. by right. Qed.

Lemma str_le_trans (a b c : string) : str_le a b → str_le b c → str_le a c.
Proof.
  rewrite !str_le_lt_eq. intros [H1| ->] [H2| ->]; auto.
  left. by eapply str_lt_trans.
Qed.

Lemma str_le_antisym (a b : string) : str_le a b → str_le b a → a = b.
Proof. apply String.leb_antisym. Qed.

Lemma str_le_total (a b : string) : str_le a b ∨ str_le b a.
Proof. apply String.leb_total. Qed.

Lemma str_lt_not_le (a b : string) : str_lt a b → ¬ str_le b a.
Proof.
  intros H1 H2. apply str_le_lt_eq in H2 as [H2| ->].
  - by apply (str_lt_irrefl a), (str_lt_trans a b a).
  - by apply (str_lt_irrefl a).
Qed.

Lemma str_le_ne_lt (a b : string) : str_le a b → a ≠ b → str_lt a b.
Proof. intros H Hne. by apply str_le_lt_eq in H as [H|H]. Qed.

(** ** Sorted lists of strings *)

Lemma insert_str_sorted (x : string) (l : list string) :
  StronglySorted str_le l → StronglySorted str_le (insert_str x l).
Proof.
  induction 1 as [|y l Hl IH Hy]; cbn [insert_str].
  - repeat constructor.
  - destruct (String.leb x y) eqn:E.
    + constructor; [by constructor|]. constructor; [done|].
      eapply Forall_impl; [exact Hy|]. intros z Hz. by eapply str_le_trans.
    + constructor; [done|].
      rewrite insert_str_perm. constructor; [|done].
      destruct (str_le_total x y) as [H|H]; [unfold str_le in H; congruence|done].
Qed.

Lemma sorted_strings_sorted (l : list string) : StronglySorted str_le (sorted_strings l).
Proof.
  unfold sorted_strings. induction l as [|x l IH]; simpl; [constructor|].
  by apply insert_str_sorted.
Qed.

Lemma sorted_strings_perm (l : list string) : sorted_strings l ≡ₚ l.
Proof.
  unfold sorted_strings. induction l as [|x l IH]; simpl; [done|].
  by rewrite insert_str_perm, IH.
Qed.

Lemma sorted_set_sorted (l : list string) : StronglySorted str_le (sorted_set l).
Proof. apply (sorted_strings_sorted (remove_dups l)). Qed.

Lemma sorted_set_elem (l : list string) (x : string) : x ∈ sorted_set l ↔ x ∈ l.
Proof. by rewrite sorted_set_perm, elem_of_remove_dups. Qed.

Lemma sorted_filter (P : string → bool) (l : list string) :
  StronglySorted str_le l → StronglySorted str_le (List.filter P l).
Proof.
  induction 1 as [|y l Hl IH Hy]; simpl; [constructor|].
  destruct (P y); [|done]. constructor; [done|].
  apply Forall_forall. intros z Hz.
  apply list_elem_of_In, filter_In in Hz as [Hz _].
  rewrite Forall_forall in Hy. by apply Hy, list_elem_of_In.
Qed.

Lemma NoDup_list_filter {A} (P : A → bool) (l : list A) :
  NoDup l → NoDup (List.filter P l).
Proof.
  induction 1 as [|y l Hy Hl IH]; simpl; [constructor|].
  destruct (P y); [|done]. constructor; [|done].
  intros Hin. apply Hy. by apply list_elem_of_In, filter_In in Hin as [?%list_elem_of_In _].
Qed.

Lemma sorted_unique (l1 l2 : list string) :
  StronglySorted str_le l1 → StronglySorted str_le l2 →
  NoDup l1 → NoDup l2 → (∀ x, x ∈ l1 ↔ x ∈ l2) → l1 = l2.
Proof.
  intros H1 H2 N1 N2 Hel.
  apply (StronglySorted_unique_strong str_le); [|done|done|].
  - intros x y _ _. apply str_le_antisym.
  - by apply NoDup_Permutation.
Qed.

(** [l.index(t)] on a list without duplicates. *)
Lemma list_index_lookup (l : list string) :
  NoDup l → ∀ i t, l !! i = Some t → list_index t l = Ok i.
Proof.
  induction 1 as [|y l Hy Hl IH]; intros i t Hi; [done|].
  cbn [list_index]. destruct i as [|i]; simpl in Hi.
  - simplify_eq. by rewrite String.eqb_refl.
  - destruct (String.eqb_spec y t) as [->|Hne].
    + exfalso. apply Hy. by eapply list_elem_of_lookup_2.
    + by rewrite (IH i t Hi).
Qed.

(** ** The quarter table *)

Lemma quarter_entry_eq (raw_prices quarter_prices : gmap string Q) (hour minute : Z) :
  quarter_entry raw_prices quarter_prices hour minute
  = <[(fmt_02d hour ++ ":" ++ fmt_02d minute)%string
      := quarter_price raw_prices hour minute]> quarter_prices.
Proof.
  unfold quarter_entry, quarter_price. cbv zeta.
  destruct (raw_prices !! _); [done|]. by destruct (raw_prices !! _).
Qed.

Lemma quarter_table_eq (raw_prices : gmap string Q) :
  quarter_table raw_prices = table_of (quarter_price raw_prices).
Proof.
  unfold quarter_table, table_of.
  generalize (∅ : gmap string Q). generalize (map Z.of_nat (seq 0 24)).
  intros hours. induction hours as [|h hours IH]; intros m; cbn [fold_left]; [done|].
  by rewrite !quarter_entry_eq, IH.
Qed.

Lemma table_of_size (qp : Z → Z → Q) : size (table_of qp) = 96%nat.
Proof. vm_compute. reflexivity. Qed.

Lemma table_of_lookup (qp : Z → Z → Q) (h : nat) (m : Z) :
  (h < 24)%nat → m ∈ [0; 15; 30; 45]%Z →
  table_of qp !! (fmt_02d (Z.of_nat h) ++ ":" ++ fmt_02d m)%string
  = Some (qp (Z.of_nat h) m).
Proof.
  intros Hh Hm.
  repeat (apply elem_of_cons in Hm as [->|Hm]); [| | | |by apply elem_of_nil in Hm];
    do 24 (destruct h as [|h]; [vm_compute; reflexivity|]); lia.
Qed.

(** X17. Whatever the response holds, the table built by
    [fetch_prices_as_quarters] has exactly the 96 quarter labels of a day
    as keys; the quarter at [minute] past [hour] has its own price in the
    response when there is one, else the price of the full hour, else 0.
    A failed request gives [None]. *)
Theorem fetch_gives_all_quarters (data : list (string * Q)) :
  fetch_prices_as_quarters None = None
  ∧ ∃ table,
      fetch_prices_as_quarters (Some data) = Some table
      ∧ size table = 96%nat
      ∧ ∀ (h : nat) (m : Z),
          (h < 24)%nat → m ∈ [0; 15; 30; 45]%Z →
          table !! (fmt_02d (Z.of_nat h) ++ ":" ++ fmt_02d m)%string
          = Some (quarter_price (raw_prices_of data) (Z.of_nat h) m).
Proof.
  split; [done|]. eexists. split; [reflexivity|].
  rewrite quarter_table_eq. split; [apply table_of_size|].
  intros h m. apply table_of_lookup.
Qed.

Lemma fetch_items_nonempty (data : list (string * Q)) (table : gmap string Q) :
  fetch_prices_as_quarters (Some data) = Some table → map_to_list table ≠ [].
Proof.
  intros [= <-] Hnil. rewrite quarter_table_eq in Hnil.
  pose proof (table_of_size (quarter_price (raw_prices_of data))) as Hsize.
  rewrite <- length_map_to_list, Hnil in Hsize. done.
Qed.

(** ** The timeline loop *)

Section SetupProofs.

Context (ss : SetupSettings) (py_int : string → option Z).

Abbreviation CONS := (CONSUMPTION_SCHEDULE_RAW ss).
Abbreviation SOLAR := (SOLAR_PRODUCTION_SCHEDULE_RAW ss).
Abbreviation FUDGE := (HOUSE_CONSUMPTION_FUDGE_FACTOR ss).
Abbreviation END_TIME := (SIMULATION_END_TIME ss).

Lemma split_colon_nonempty (s : string) : ∃ p ps, split_colon s = p :: ps.
Proof.
  induction s as [|c s (p & ps & IH)]; simpl; [eauto|].
  destruct (Ascii.eqb c ":"); [eauto|]. rewrite IH. eauto.
Qed.

Lemma hour_of_total (t : string) : ∃ h, hour_of t = Ok h.
Proof.
  unfold hour_of. destruct (split_colon_nonempty t) as (p & ps & ->). by exists p.
Qed.

Lemma list_index_total (l : list string) (t : string) :
  t ∈ l → ∃ i, list_index t l = Ok i.
Proof.
  induction l as [|y l IH]; intros Hin; [by apply elem_of_nil in Hin|].
  cbn [list_index]. destruct (String.eqb_spec y t) as [->|Hne]; [eauto|].
  apply elem_of_cons in Hin as [->|Hin]; [done|].
  destruct (IH Hin) as [i ->]. rewrite bind_Ok. eauto.
Qed.

Lemma level_cons (schedule : gmap string Q) (f : Q → Q) (t : string)
    (keys : list string) (init : Q) :
  level schedule f (t :: keys) init
  = level schedule f keys (match schedule !! t with Some v => f v | None => init end).
Proof. reflexivity. Qed.

Lemma setup_step_eq (valid : list string) (ef : gmap string Q)
    (tl : timeline) (cw sw : Q) (t : string) :
  setup_step ss valid ef (tl, cw, sw) t
  = let cw1 := match CONS !! t with Some w => w * FUDGE | None => cw end in
    let sw1 := match SOLAR !! t with Some w => w | None => sw end in
    if bool_decide (t ∈ valid) then
      q_idx ← list_index t valid;
      h ← hour_of t;
      p ← getkey ef t;
      Ok (tl ++ [mkSlot q_idx t h p (cw1 / 4) (sw1 / 4) 0 0 (cw1 / 4 - sw1 / 4)],
          cw1, sw1)
    else Ok (tl, cw1, sw1).
Proof. reflexivity. Qed.

(** The loop appends one slot for every key that is a valid quarter, in
    the order of the keys. *)
Lemma setup_fold_spec (valid : list string) (ef : gmap string Q) (keys : list string) :
  (∀ t, t ∈ keys → t ∈ valid → is_Some (ef !! t)) →
  ∀ tl cw sw,
    ∃ new cw' sw',
      foldM (setup_step ss valid ef) (tl, cw, sw) keys = Ok (tl ++ new, cw', sw')
      ∧ map time new = List.filter (λ t, bool_decide (t ∈ valid)) keys
      ∧ Forall (λ x, list_index (time x) valid = Ok (index x)
                     ∧ ef !! time x = Some (price x)
                     ∧ fresh_slot x) new
      ∧ Forall (λ x, ∃ pre post,
                       keys = pre ++ time x :: post
                       ∧ cons_wh x
                         = level CONS (λ w, w * FUDGE) (pre ++ [time x]) cw / 4
                       ∧ solar_wh x
                         = level SOLAR (λ w, w) (pre ++ [time x]) sw / 4) new.
Proof.
  induction keys as [|t keys IH]; intros Hef tl cw sw; cbn [foldM].
  - exists [], cw, sw. rewrite app_nil_r. repeat split; constructor.
  - rewrite setup_step_eq. cbv zeta.
    set (cw1 := match CONS !! t with Some w => w * FUDGE | None => cw end).
    set (sw1 := match SOLAR !! t with Some w => w | None => sw end).
    cbn [List.filter].
    destruct (bool_decide (t ∈ valid)) eqn:Ev.
    + apply bool_decide_eq_true in Ev.
      destruct (list_index_total valid t Ev) as [i Hi].
      destruct (hour_of_total t) as [h Hh].
      destruct (Hef t) as [p Hp]; [by left|done|].
      rewrite Hi, bind_Ok, Hh, bind_Ok. unfold getkey. rewrite Hp, !bind_Ok.
      set (x := mkSlot i t h p (cw1 / 4) (sw1 / 4) 0 0 (cw1 / 4 - sw1 / 4)).
      destruct (IH (λ t' Ht', Hef t' (list_elem_of_further _ _ _ Ht')) (tl ++ [x]) cw1 sw1)
        as (new & cw' & sw' & Hrun & Htimes & Hslots & Hlev).
      exists (x :: new), cw', sw'. rewrite Hrun, <- app_assoc. split; [done|].
      split; [cbn [map]; by rewrite Htimes|].
      split.
      * constructor; [|done]. by repeat split.
      * constructor.
        -- exists [], keys. split; [done|]. split; reflexivity.
        -- eapply Forall_impl; [exact Hlev|]. intros y (pre & post & -> & Hc & Hs).
           exists (t :: pre), post. split; [done|].
           rewrite Hc, Hs. split; reflexivity.
    + rewrite bind_Ok.
      destruct (IH (λ t' Ht', Hef t' (list_elem_of_further _ _ _ Ht')) tl cw1 sw1)
        as (new & cw' & sw' & Hrun & Htimes & Hslots & Hlev).
      exists new, cw', sw'. split; [done|]. split; [done|]. split; [done|].
      eapply Forall_impl; [exact Hlev|]. intros y (pre & post & -> & Hc & Hs).
      exists (t :: pre), post. split; [done|].
      rewrite Hc, Hs. split; reflexivity.
Qed.

(** The level after sorted keys that reach up to [t] is the schedule's
    value at [t]. *)
Lemma level_value (schedule : gmap string Q) (f : Q → Q) (t : string) (w : Q)
    (keys : list string) (init : Q) :
  StronglySorted str_le keys →
  (∀ k, k ∈ keys → str_le k t) →
  (∀ k, is_Some (schedule !! k) → str_le k t → k ∈ keys) →
  schedule_value schedule t w →
  level schedule f keys init = f w.
Proof.
  intros Hsort Hle Hall (k & Hk & Hkt & Hmax).
  induction keys as [|a ks IH] using rev_ind.
  - exfalso. apply (elem_of_nil k), Hall; [eauto|done].
  - unfold level. rewrite fold_left_app. cbn [fold_left].
    apply StronglySorted_app in Hsort as (Hcross & Hks & _).
    destruct (schedule !! a) as [v|] eqn:Ea.
    + assert (Hak : str_le a k).
      { apply Hmax; [eauto|]. apply Hle. apply elem_of_app. right. by left. }
      assert (Hka : str_le k a).
      { assert (Hin : k ∈ ks ++ [a]) by (apply Hall; [eauto|done]).
        apply elem_of_app in Hin as [Hin|Hin].
        - apply Hcross; [done|by left].
        - apply list_elem_of_singleton in Hin. subst. apply str_le_refl. }
      assert (a = k) by (by apply str_le_antisym). subst. congruence.
    + apply IH; [done| |].
      * intros k' Hk'. apply Hle. apply elem_of_app. by left.
      * intros k' Hs Hk't. specialize (Hall k' Hs Hk't).
        apply elem_of_app in Hall as [Hin|Hin]; [done|].
        apply list_elem_of_singleton in Hin. subst.
        destruct Hs as [? Hs]. congruence.
Qed.

Lemma level_unset (schedule : gmap string Q) (f : Q → Q) (keys : list string) (init : Q) :
  (∀ k, k ∈ keys → schedule !! k = None) →
  level schedule f keys init = init.
Proof.
  induction keys as [|a ks IH]; intros Hnone; [done|].
  rewrite level_cons, (Hnone a) by (by left). apply IH.
  intros k Hk. apply Hnone. by right.
Qed.


(** ** The quarters of the simulated window *)

Lemma sorted_lt (l : list string) :
  StronglySorted str_le l → NoDup l → StronglySorted str_lt l.
Proof.
  induction 1 as [|y l Hl IH Hy]; intros Hnd; [constructor|].
  apply NoDup_cons in Hnd as [Hy' Hnd]. constructor; [by apply IH|].
  apply Forall_forall. intros z Hz. rewrite Forall_forall in Hy.
  apply str_le_ne_lt; [by apply Hy|]. intros ->. done.
Qed.

Lemma price_window_lookup (prices : gmap string Q) (t : string) (p : Q) :
  price_window ss py_int prices !! t = Some p
  ↔ prices !! t = Some p
    ∧ str_le (sim_start ss py_int) t ∧ str_le t END_TIME.
Proof.
  unfold price_window. rewrite map_lookup_filter_Some. cbn [fst].
  rewrite andb_true_iff. done.
Qed.

Lemma quarters_of_spec (ef : gmap string Q) :
  StronglySorted str_le (quarters_of ss ef)
  ∧ NoDup (quarters_of ss ef)
  ∧ ∀ t, t ∈ quarters_of ss ef ↔ is_Some (ef !! t) ∧ str_lt t END_TIME.
Proof.
  unfold quarters_of. split; [apply sorted_strings_sorted|]. split.
  - rewrite sorted_strings_perm. apply NoDup_list_filter.
    apply (NoDup_fst_map_to_list ef).
  - intros t. rewrite sorted_strings_perm.
    rewrite list_elem_of_In, filter_In, <- list_elem_of_In.
    rewrite list_elem_of_fmap. split.
    + intros [([k p] & -> & Hin) Hlt]. apply elem_of_map_to_list in Hin.
      split; [by exists p|done].
    + intros [[p Hp] Hlt]. split; [|done].
      exists (t, p). split; [done|]. by apply elem_of_map_to_list.
Qed.

Lemma schedule_keys_spec (valid : list string) :
  StronglySorted str_le (schedule_keys ss valid)
  ∧ NoDup (schedule_keys ss valid)
  ∧ ∀ t, t ∈ schedule_keys ss valid
         ↔ is_Some (CONS !! t) ∨ is_Some (SOLAR !! t) ∨ t ∈ valid.
Proof.
  unfold schedule_keys. split; [apply sorted_set_sorted|].
  split; [apply sorted_set_NoDup|].
  intros t. rewrite sorted_set_elem, !elem_of_app.
  assert (Hkeys : ∀ m : gmap string Q, t ∈ map fst (map_to_list m) ↔ is_Some (m !! t)).
  { intros m. rewrite list_elem_of_fmap. split.
    - intros ([k p] & -> & Hin). apply elem_of_map_to_list in Hin. by exists p.
    - intros [p Hp]. exists (t, p). split; [done|]. by apply elem_of_map_to_list. }
  by rewrite !Hkeys.
Qed.

(** The keys of the loop that are valid quarters are the valid quarters,
    in their order. *)
Lemma schedule_keys_valid (valid : list string) :
  StronglySorted str_le valid → NoDup valid →
  List.filter (λ t, bool_decide (t ∈ valid)) (schedule_keys ss valid) = valid.
Proof.
  intros Hs Hnd. destruct (schedule_keys_spec valid) as (Hs' & Hnd' & Hel).
  apply sorted_unique;
    [by apply sorted_filter|exact Hs|by apply NoDup_list_filter|exact Hnd|].
  intros t. rewrite list_elem_of_In, filter_In, <- list_elem_of_In.
  rewrite bool_decide_eq_true, Hel.
  split; [by intros [_ ?]|intros ?; split; [by right; right|done]].
Qed.

(** What [setup_timeline] has done when it returns a timeline. *)
Lemma setup_timeline_inv (response : option (list (string * Q)))
    (tl : timeline) (soc base_price : Q) :
  setup_timeline cfg ss py_int response = Setup_ok tl soc base_price →
  ∃ prices cw sw,
    fetch_prices_as_quarters response = Some prices
    ∧ start_price cfg ss (map_to_list prices) = Some base_price
    ∧ soc = start_charge cfg ss
    ∧ foldM (setup_step ss (quarters_of ss (price_window ss py_int prices))
                        (price_window ss py_int prices))
            ([], 0, 0)
            (schedule_keys ss (quarters_of ss (price_window ss py_int prices)))
      = Ok (tl, cw, sw).
Proof.
  unfold setup_timeline. cbv zeta.
  destruct (override_divides_by_zero cfg ss); [done|].
  destruct (fetch_prices_as_quarters response) as [prices|]; [|done].
  destruct (map_to_list prices) as [|item items] eqn:Eitems; [done|].
  destruct (start_price cfg ss (item :: items)) as [bp|] eqn:Eprice; [|done].
  destruct (foldM _ _ _) as [[[tl1 cw] sw]|] eqn:Eloop; [|done].
  intros [= <- <- <-]. exists prices, cw, sw. by rewrite Eitems.
Qed.

(** The loop of [setup_timeline] on the prices of a table. *)
Lemma setup_loop_spec (prices : gmap string Q) :
  let ef := price_window ss py_int prices in
  let valid := quarters_of ss ef in
  ∃ tl cw sw,
    foldM (setup_step ss valid ef) ([], 0, 0) (schedule_keys ss valid) = Ok (tl, cw, sw)
    ∧ map time tl = valid
    ∧ Forall (λ x, list_index (time x) valid = Ok (index x)
                   ∧ ef !! time x = Some (price x)
                   ∧ fresh_slot x) tl
    ∧ Forall (λ x, ∃ pre post,
                     schedule_keys ss valid = pre ++ time x :: post
                     ∧ cons_wh x = level CONS (λ w, w * FUDGE) (pre ++ [time x]) 0 / 4
                     ∧ solar_wh x = level SOLAR (λ w, w) (pre ++ [time x]) 0 / 4) tl.
Proof.
  intros ef valid. destruct (quarters_of_spec ef) as (Hs & Hnd & Hel).
  destruct (setup_fold_spec valid ef (schedule_keys ss valid)) with (tl := @nil slot)
    (cw := 0) (sw := 0) as (new & cw & sw & Hrun & Htimes & Hslots & Hlev).
  { intros t _ Ht. by apply Hel in Ht as [? _]. }
  exists new, cw, sw. split; [done|].
  split; [by rewrite Htimes, schedule_keys_valid|]. done.
Qed.

Lemma setup_ok_spec (response : option (list (string * Q)))
    (tl : timeline) (soc base_price : Q) :
  setup_timeline cfg ss py_int response = Setup_ok tl soc base_price →
  ∃ prices,
    let ef := price_window ss py_int prices in
    let valid := quarters_of ss ef in
    fetch_prices_as_quarters response = Some prices
    ∧ soc = start_charge cfg ss
    ∧ map time tl = valid
    ∧ Forall (λ x, list_index (time x) valid = Ok (index x)
                   ∧ ef !! time x = Some (price x)
                   ∧ fresh_slot x) tl
    ∧ Forall (λ x, ∃ pre post,
                     schedule_keys ss valid = pre ++ time x :: post
                     ∧ cons_wh x = level CONS (λ w, w * FUDGE) (pre ++ [time x]) 0 / 4
                     ∧ solar_wh x = level SOLAR (λ w, w) (pre ++ [time x]) 0 / 4) tl.
Proof.
  intros Hrun. apply setup_timeline_inv in Hrun as (prices & cw & sw & Hf & _ & Hsoc & Hloop).
  destruct (setup_loop_spec prices) as (tl' & cw' & sw' & Hloop' & H1 & H2 & H3).
  rewrite Hloop in Hloop'. injection Hloop' as <- <- <-.
  exists prices. cbv zeta. done.
Qed.

(** X18. The timeline [setup_timeline] returns is well indexed (the
    [index] of a slot is its position) and in strictly ascending time
    order; its slots are the quarters of the price table from the start of
    the simulation up to, not including, its end, each with the price of
    the table; every slot has [grid_wh] and [batt_wh] at 0, the load net of
    the solar production as [base_net_load_wh], and the part of its time
    label before the colon as [hour]; the starting charge is the override
    of the live mode in Wh when there is one, else the battery capacity. *)
Theorem setup_timeline_well_formed (response : option (list (string * Q)))
    (tl : timeline) (soc base_price : Q)
    (Hrun : setup_timeline cfg ss py_int response = Setup_ok tl soc base_price) :
  ∃ prices,
    fetch_prices_as_quarters response = Some prices
    ∧ well_indexed tl
    ∧ StronglySorted str_lt (map time tl)
    ∧ (∀ t, t ∈ map time tl
            ↔ is_Some (prices !! t)
              ∧ str_le (sim_start ss py_int) t ∧ str_lt t END_TIME)
    ∧ Forall (λ x, prices !! time x = Some (price x) ∧ fresh_slot x) tl
    ∧ soc = start_charge cfg ss.
Proof.
  apply setup_ok_spec in Hrun as (prices & Hf & Hsoc & Htimes & Hslots & _).
  cbv zeta in *.
  destruct (quarters_of_spec (price_window ss py_int prices)) as (Hs & Hnd & Hel).
  exists prices. split; [done|]. split; [|split; [|split; [|split]]].
  - intros i x Hx.
    assert (Ht : quarters_of ss (price_window ss py_int prices) !! i = Some (time x)).
    { rewrite <- Htimes. by rewrite list_lookup_fmap, Hx. }
    apply (list_index_lookup _ Hnd) in Ht.
    apply (Forall_lookup_1 _ _ _ _ Hslots) in Hx as (Hi & _). congruence.
  - rewrite Htimes. by apply sorted_lt.
  - intros t. rewrite Htimes, Hel. split.
    + intros [[p Hp] Hlt]. apply price_window_lookup in Hp as (Hp & Hge & _).
      split; [by exists p|done].
    + intros ([p Hp] & Hge & Hlt). split; [|done]. exists p.
      apply price_window_lookup. split; [done|]. split; [done|]. by apply str_lt_le.
  - eapply Forall_impl; [exact Hslots|]. intros x (_ & Hp & Hfresh).
    split; [|done]. by apply price_window_lookup in Hp as [? _].
  - done.
Qed.

(** X19. The consumption and the solar production of a slot are read off
    the schedules as step functions of the time: a slot has the entry of
    the latest schedule key at or before its time (the consumption times
    the fudge factor), spread over the four quarters of an hour, and 0
    when the schedule has no key at or before it.  Schedule keys before
    the start of the simulation count. *)
Theorem setup_schedules_are_step_functions (response : option (list (string * Q)))
    (tl : timeline) (soc base_price : Q)
    (Hrun : setup_timeline cfg ss py_int response = Setup_ok tl soc base_price) :
  Forall (λ x,
            (∀ w, schedule_value CONS (time x) w → cons_wh x = w * FUDGE / 4)
            ∧ (schedule_unset CONS (time x) → cons_wh x = 0 / 4)
            ∧ (∀ w, schedule_value SOLAR (time x) w → solar_wh x = w / 4)
            ∧ (schedule_unset SOLAR (time x) → solar_wh x = 0 / 4)) tl.
Proof.
  apply setup_ok_spec in Hrun as (prices & _ & _ & _ & _ & Hlev). cbv zeta in Hlev.
  set (valid := quarters_of ss (price_window ss py_int prices)) in *.
  destruct (schedule_keys_spec valid) as (Hs & Hnd & Hel).
  eapply Forall_impl; [exact Hlev|]. intros x (pre & post & Hkeys & Hc & Hsol).
  rewrite Hkeys in Hs, Hnd.
  assert (Hpre : StronglySorted str_le (pre ++ [time x])).
  { rewrite (cons_middle (time x) pre post), app_assoc in Hs.
    by apply StronglySorted_app_1_l in Hs. }
  assert (Hle : ∀ k, k ∈ pre ++ [time x] → str_le k (time x)).
  { intros k Hk. apply elem_of_app in Hk as [Hk|Hk].
    - apply StronglySorted_app in Hs as (Hcross & _). apply Hcross; [done|by left].
    - apply list_elem_of_singleton in Hk. subst. apply str_le_refl. }
  assert (Hin : ∀ k, k ∈ schedule_keys ss valid → str_le k (time x) →
                     k ∈ pre ++ [time x]).
  { intros k Hk Hkt. rewrite Hkeys in Hk.
    rewrite (cons_middle (time x) pre post), app_assoc in Hk.
    apply elem_of_app in Hk as [Hk|Hk]; [done|]. exfalso.
    apply StronglySorted_app_1_r in Hs. apply StronglySorted_inv in Hs as [_ Hall].
    rewrite Forall_forall in Hall. specialize (Hall k Hk).
    assert (k = time x) by (by apply str_le_antisym). subst.
    apply NoDup_app in Hnd as (_ & _ & Hnd). apply NoDup_cons in Hnd as [Hnd _]. done. }
  rewrite Hc, Hsol. split; [|split; [|split]].
  - intros w Hw. f_equal. apply (level_value CONS (λ w, w * FUDGE) (time x) w); try done.
    intros k Hk Hkt. apply Hin; [|done]. apply Hel. by left.
  - intros Hun. f_equal. apply level_unset. intros k Hk.
    destruct (CONS !! k) eqn:E; [|done]. exfalso.
    apply (Hun k); [eauto|by apply Hle].
  - intros w Hw. f_equal. apply (level_value SOLAR (λ w, w) (time x) w); try done.
    intros k Hk Hkt. apply Hin; [|done]. apply Hel. right. by left.
  - intros Hun. f_equal. apply level_unset. intros k Hk.
    destruct (SOLAR !! k) eqn:E; [|done]. exfalso.
    apply (Hun k); [eauto|by apply Hle].
Qed.

(** ** The outcome of the setup *)

Lemma setup_loop_total (prices : gmap string Q) :
  ∃ tl cw sw,
    foldM (setup_step ss (quarters_of ss (price_window ss py_int prices))
                      (price_window ss py_int prices))
          ([], 0, 0)
          (schedule_keys ss (quarters_of ss (price_window ss py_int prices)))
    = Ok (tl, cw, sw).
Proof.
  destruct (setup_loop_spec prices) as (tl & cw & sw & H & _). eauto.
Qed.

Lemma start_price_total (items : list (string * Q)) :
  (0 < int_of_float (CHARGE_DURATION_HOURS ss * 4))%Z →
  ∃ base_price, start_price cfg ss items = Some base_price.
Proof.
  intros Hn. unfold start_price. cbv zeta.
  set (night := map snd (List.filter _ items)).
  set (n := int_of_float (CHARGE_DURATION_HOURS ss * 4)) in *.
  destruct (n <=? Z.of_nat (length night))%Z eqn:E; [|eauto].
  apply Z.leb_le in E.
  assert (Hlen : length (sort_by (λ p : Q, p) night) = length night).
  { apply Permutation_length, sort_by_perm. }
  unfold slice_to. destruct (n <? 0)%Z eqn:E0; [apply Z.ltb_lt in E0; lia|].
  destruct (sort_by (λ p : Q, p) night) as [|p sorted] eqn:Es.
  { simpl in Hlen. lia. }
  destruct (Z.to_nat n) as [|k] eqn:Ek; [lia|]. cbn [take]. eauto.
Qed.

(** X20. With a charge duration of a quarter of an hour or more, and a
    capacity other than 0 when the live mode overrides the starting charge
    (the percentage it prints divides by the capacity), [setup_timeline]
    returns a timeline whenever the request for the prices has succeeded:
    the loop over the schedule keys never raises ([index] finds every
    quarter, the price lookup never misses), and the start price is
    defined.  A failed request gives [(None, None, None)]. *)
Theorem setup_timeline_returns (data : list (string * Q))
    (Hquarters : (0 < int_of_float (CHARGE_DURATION_HOURS ss * 4))%Z)
    (Hcap : OPTIMIZE_OVERRIDE_CURRENT_SOC_KWH ss = None ∨ ¬ CAP == 0) :
  setup_timeline cfg ss py_int None = Setup_none
  ∧ ∃ tl base_price,
      setup_timeline cfg ss py_int (Some data)
      = Setup_ok tl (start_charge cfg ss) base_price.
Proof.
  assert (Hov : override_divides_by_zero cfg ss = false).
  { unfold override_divides_by_zero. destruct Hcap as [-> | Hne]; [done|].
    destruct (OPTIMIZE_OVERRIDE_CURRENT_SOC_KWH ss); [|done].
    destruct (Qeq_bool CAP 0) eqn:E; [|done]. by apply Qeq_bool_iff in E. }
  unfold setup_timeline. rewrite Hov. split; [done|]. cbv zeta.
  destruct (fetch_prices_as_quarters (Some data)) as [prices|] eqn:Ef; [|done].
  pose proof (fetch_items_nonempty _ _ Ef) as Hne.
  destruct (map_to_list prices) as [|item items]; [done|].
  destruct (start_price_total (item :: items) Hquarters) as [bp ->].
  destruct (setup_loop_total prices) as (tl & cw & sw & ->). eauto.
Qed.

(** X21. With a charge duration that [int] truncates to zero quarters (a
    duration below a quarter of an hour, zero included), [setup_timeline]
    raises [ZeroDivisionError] whenever the request for the prices has
    succeeded: the start price is the mean of no quarters. *)
Theorem setup_timeline_divides_by_zero (data : list (string * Q))
    (Hquarters : int_of_float (CHARGE_DURATION_HOURS ss * 4) = 0%Z) :
  setup_timeline cfg ss py_int (Some data) = Setup_ZeroDivisionError.
Proof.
  unfold setup_timeline. cbv zeta.
  destruct (override_divides_by_zero cfg ss); [done|].
  destruct (fetch_prices_as_quarters (Some data)) as [prices|] eqn:Ef; [|done].
  pose proof (fetch_items_nonempty _ _ Ef) as Hne.
  destruct (map_to_list prices) as [|item items]; [done|].
  assert (Hp : start_price cfg ss (item :: items) = None).
  { unfold start_price. cbv zeta. rewrite Hquarters.
    assert (E : (0 <=? Z.of_nat (length (map snd (List.filter
                   (λ tp : string * Q,
                      String.leb (NIGHT_CHARGE_WINDOW_START ss) (fst tp)
                      && String.ltb (fst tp) (NIGHT_CHARGE_WINDOW_END ss))
                   (item :: items)))))%Z = true) by (apply Z.leb_le; lia).
    rewrite E. unfold slice_to. cbn [Z.ltb Z.compare Z.to_nat]. by rewrite take_0. }
  by rewrite Hp.
Qed.

(** ** Rounding the start of a live run *)

(** X22. For a time string of two colon-separated parts that [int] reads
    as [h] and [m], [round_time_down_to_quarter] returns the label of [h]
    and a minute [q] that is one of 0, 15, 30, 45: for a minute of the
    hour, the start of its quarter ([q <= m < q + 15]).  The minute is not
    validated: any [m] below 0 gives 0 and any [m] of 60 or more gives
    45. *)
Theorem round_time_gives_start_of_quarter (time_str a b : string) (h m : Z)
    (Hsplit : split_colon time_str = [a; b])
    (Ha : py_int a = Some h) (Hb : py_int b = Some m) :
  ∃ q,
    round_time_down_to_quarter py_int time_str
    = Some (fmt_02d h ++ ":" ++ fmt_02d q)%string
    ∧ q ∈ [0; 15; 30; 45]%Z
    ∧ ((0 ≤ m < 60)%Z → (q ≤ m < q + 15)%Z)
    ∧ ((m < 0)%Z → q = 0%Z)
    ∧ ((60 ≤ m)%Z → q = 45%Z).
Proof.
  unfold round_time_down_to_quarter.
  destruct (String.eqb_spec time_str "") as [->|_]; [done|].
  rewrite Hsplit, Ha, Hb. cbv zeta.
  exists (if (m <? 15)%Z then 0%Z
          else if (m <? 30)%Z then 15%Z else if (m <? 45)%Z then 30%Z else 45%Z).
  split; [done|].
  destruct (Z.ltb_spec m 15); [|destruct (Z.ltb_spec m 30); [|destruct (Z.ltb_spec m 45)]].
  - split; [by left|]. lia.
  - split; [right; by left|]. lia.
  - split; [do 2 right; by left|]. lia.
  - split; [do 3 right; by left|]. lia.
Qed.

End SetupProofs.

(** ** The cost of the plan under the swap pass *)

Lemma plan_cost_insert (tl : timeline) (i : nat) (x : slot) (g : Q) :
  tl !! i = Some x →
  plan_cost cfg (<[i := set_grid_wh g x]> tl)
  == plan_cost cfg tl + (g - grid_wh x) / 1000 * price x.
Proof.
  intros Hx. unfold plan_cost.
  rewrite insert_take_drop by (by eapply lookup_lt_Some).
  rewrite <- (take_drop_middle tl i x Hx) at 3.
  rewrite !map_app, !Qsum_app. cbn [map]. rewrite !Qsum_cons. simpl. field.
Qed.

Lemma shift_50_cost (tl tl' : timeline) (s d : nat) (item_s item_d : slot) :
  tl !! s = Some item_s → tl !! d = Some item_d → s ≠ d →
  shift_50 tl s d = Ok tl' →
  plan_cost cfg tl' == plan_cost cfg tl - 50 / 1000 * (price item_d - price item_s).
Proof.
  intros Hs Hd Hne. unfold shift_50.
  destruct (add_grid tl s 50) as [tl1|] eqn:Ea; [|done].
  rewrite bind_Ok. intros Es.
  apply add_grid_Ok in Ea as (x & Hx & ->).
  apply sub_grid_Ok in Es as (y & Hy & ->).
  rewrite list_lookup_insert_ne in Hy by done. simplify_eq.
  rewrite plan_cost_insert by (by rewrite list_lookup_insert_ne).
  rewrite plan_cost_insert by done. field.
Qed.

Lemma swap_sell_ok_distinct (soc : Q) (prof : list Q) (c e : nat) (item_c item_e : slot) :
  swap_sell_ok cfg soc prof c item_c e item_e = true → c ≠ e.
Proof.
  unfold swap_sell_ok. intros H.
  repeat (apply andb_true_iff in H as [H ?]).
  apply negb_true_iff, Nat.eqb_neq in H. done.
Qed.

Lemma swap_while_cost (soc ceil : Q) (n : nat) :
  ∀ tl log,
    ∃ tl' new,
      swap_while cfg n tl soc ceil log = Ok (tl', log ++ new)
      ∧ plan_cost cfg tl'
        == plan_cost cfg tl - 50 / 1000 * Qsum (map swap_spread new)
      ∧ Forall (λ entry, 0 < swap_spread entry) new.
Proof.
  induction n as [|n IH]; intros tl log; cbn [swap_while].
  - exists tl, []. rewrite app_nil_r. split; [done|].
    split; [unfold Qsum; simpl; lra|constructor].
  - destruct (find_best_swap_spec tl soc ceil) as ([best max] & Hrun & _ & Hbest & _).
    cbn [fst snd] in *. rewrite Hrun, bind_Ok.
    destruct best as [[s d]|].
    + destruct Hbest as (Hok & Hmax & Hpos).
      destruct (swap_pair_ok_lookup _ _ _ _ _ Hok) as (ic & ie & Hic & Hie & _ & Hsell).
      destruct (shift_50_Ok tl s d) as [tl1 Hshift];
        [by eapply lookup_lt_Some|by eapply lookup_lt_Some|].
      rewrite Hshift, bind_Ok.
      pose proof (shift_50_cost _ _ _ _ _ _ Hic Hie
                    (swap_sell_ok_distinct _ _ _ _ _ _ Hsell) Hshift) as Hcost.
      destruct (IH tl1 (log ++ [(tl, (s, d))])) as (tl' & new & Hloop & Hc & Hall).
      exists tl', ((tl, (s, d)) :: new).
      split; [by rewrite Hloop, <- app_assoc|].
      assert (Hsp : swap_spread (tl, (s, d)) = price ie - price ic).
      { unfold swap_spread, spread_idx. cbn [fst snd]. by rewrite Hic, Hie. }
      split.
      * cbn [map]. rewrite Qsum_cons, Hc, Hcost, Hsp. lra.
      * constructor; [|done]. rewrite Hsp.
        rewrite Hmax in Hpos. unfold spread_idx in Hpos. by rewrite Hic, Hie in Hpos.
    + exists tl, []. rewrite app_nil_r. split; [done|].
      split; [unfold Qsum; simpl; lra|constructor].
Qed.

Lemma Qsum_pos (l : list Q) : Forall (λ v, 0 < v) l → 0 <= Qsum l ∧ (l ≠ [] → 0 < Qsum l).
Proof.
  induction 1 as [|v l Hv _ [IH1 IH2]].
  - split; [unfold Qsum; simpl; lra|done].
  - rewrite Qsum_cons. split; [lra|]. intros _. lra.
Qed.

(** X23. The swap pass never raises the energy cost of the plan (the
    realized import in kWh times the price, summed over the slots, as the
    report totals it): every accepted swap lowers it by 50 Wh times the
    spread of the swap, which is positive, so the cost drops strictly as
    soon as one swap is accepted. *)
Theorem swap_pass_lowers_the_cost (tl : timeline) (soc swap_ceiling_wh : Q) :
  ∃ tl' log,
    phase_3_swaps cfg tl soc swap_ceiling_wh = Ok (tl', log)
    ∧ plan_cost cfg tl'
      == plan_cost cfg tl - 50 / 1000 * Qsum (map swap_spread log)
    ∧ plan_cost cfg tl' <= plan_cost cfg tl
    ∧ (log ≠ [] → plan_cost cfg tl' < plan_cost cfg tl).
Proof.
  unfold phase_3_swaps.
  destruct (swap_while_cost soc (raise_ceiling cfg tl swap_ceiling_wh) 500 tl [])
    as (tl' & log & Hrun & Hc & Hall).
  exists tl', log. split; [done|]. split; [done|].
  assert (Hpos : Forall (λ v, 0 < v) (map swap_spread log)).
  { apply Forall_fmap. done. }
  destruct (Qsum_pos _ Hpos) as [H1 H2].
  assert (E : 50 / 1000 == 1 # 20) by reflexivity. rewrite E in Hc.
  split; [lra|]. intros Hne.
  assert (0 < Qsum (map swap_spread log)); [|lra].
  apply H2. by destruct log.
Qed.

(** ** The safety fill stays before the violation *)

Lemma candidate_step_index (tl : timeline) (hu : gmap string Q) (end_index : nat)
    (prof : list Q) (ignore : bool) (cands cands' : list cand) (i : nat) :
  (i ≤ end_index)%nat →
  Forall (λ c, (c_index c ≤ end_index)%nat) cands →
  candidate_step cfg tl hu end_index prof ignore cands i = Ok cands' →
  Forall (λ c, (c_index c ≤ end_index)%nat) cands'.
Proof.
  intros Hi Hc. unfold candidate_step.
  destruct (getitem tl i) as [item|]; [|done]. rewrite bind_Ok.
  destruct (match slice prof i (end_index + 1) with
            | [] => Ok CAP
            | _ :: _ => py_max_list (slice prof i (end_index + 1))
            end) as [max_s|]; [|done].
  rewrite bind_Ok. cbv zeta.
  assert (Hnew : ∀ c, c_index c = i →
                      Forall (λ c, (c_index c ≤ end_index)%nat) (cands ++ [c])).
  { intros c Hci. apply Forall_app. split; [done|]. constructor; [lia|done]. }
  destruct (Qle_bool (CAP - max_s) 1); [by intros [= <-]|].
  destruct ignore; cbn [negb]; [intros [= <-]; by apply Hnew|].
  destruct (Qle_bool _ 1); intros [= <-]; [done|by apply Hnew].
Qed.

Lemma get_candidates_index (tl : timeline) (hu : gmap string Q) (end_index : nat)
    (soc : Q) (ignore : bool) (cands : list cand) :
  get_candidates cfg tl hu end_index soc ignore = Ok cands →
  Forall (λ c, (c_index c ≤ end_index)%nat) cands.
Proof.
  unfold get_candidates. rewrite current_profile_sim, bind_Ok.
  apply (foldM_inv _ (Forall (λ c, (c_index c ≤ end_index)%nat))); [|constructor].
  intros s a s' Ha Hs. apply candidate_step_index; [|done].
  apply elem_of_seq in Ha. lia.
Qed.

Lemma add_grid_other (tl tl' : timeline) (i j : nat) (v : Q) :
  add_grid tl i v = Ok tl' → i ≠ j → tl' !! j = tl !! j.
Proof.
  intros H Hne. apply add_grid_Ok in H as (x & _ & ->).
  by rewrite list_lookup_insert_ne.
Qed.

Lemma fill_pass_1_after (end_index : nat) (cands : list cand) :
  Forall (λ c, (c_index c ≤ end_index)%nat) cands →
  ∀ tl hu rem r j,
    fill_pass_1 cands tl hu rem = Ok r → (end_index < j)%nat →
    fst (fst r) !! j = tl !! j.
Proof.
  induction 1 as [|c rest Hc _ IH]; intros tl hu rem r j; cbn [fill_pass_1].
  - by intros [= <-].
  - destruct (Qle_bool rem 0); [by intros [= <-]|]. cbv zeta.
    destruct (add_grid tl (c_index c) _) as [tl1|] eqn:Ea; [|done].
    rewrite bind_Ok. destruct (dict_add hu (c_hour c) _) as [hu1|]; [|done].
    rewrite bind_Ok. intros Hrun Hj.
    rewrite (IH _ _ _ _ _ Hrun Hj). eapply add_grid_other; [exact Ea|lia].
Qed.

Lemma fill_pass_2_after (end_index : nat) (cands : list cand) :
  Forall (λ c, (c_index c ≤ end_index)%nat) cands →
  ∀ tl rem r j,
    fill_pass_2 cands tl rem = Ok r → (end_index < j)%nat →
    fst r !! j = tl !! j.
Proof.
  induction 1 as [|c rest Hc _ IH]; intros tl rem r j; cbn [fill_pass_2].
  - by intros [= <-].
  - destruct (Qle_bool rem 0); [by intros [= <-]|]. cbv zeta.
    destruct (add_grid tl (c_index c) _) as [tl1|] eqn:Ea; [|done].
    rewrite bind_Ok. intros Hrun Hj.
    rewrite (IH _ _ _ _ Hrun Hj). eapply add_grid_other; [exact Ea|lia].
Qed.

(** X24. [distribute_smart_safety_fill] adds import at or before
    [end_index] only: whenever it returns, every slot after [end_index] is
    the slot it was. *)
Theorem safety_fill_stays_before_the_violation
    (tl tl' : timeline) (needed soc : Q) (end_index j : nat)
    (Hrun : distribute_smart_safety_fill cfg tl needed end_index soc = Ok tl')
    (Hafter : (end_index < j)%nat) :
  tl' !! j = tl !! j.
Proof.
  revert Hrun. unfold distribute_smart_safety_fill. cbv zeta.
  destruct (get_candidates cfg tl _ end_index soc false) as [c1|] eqn:Ec1; [|done].
  rewrite bind_Ok. apply get_candidates_index in Ec1.
  destruct (fill_pass_1 (sort_by c_price c1) tl _ needed) as [[[tl1 hu1] rem1]|] eqn:E1;
    [|done].
  rewrite bind_Ok.
  apply (fill_pass_1_after end_index) with (j := j) in E1;
    [|by apply sort_by_Forall|done].
  cbn [fst] in E1.
  destruct (Qltb 0 rem1).
  - destruct (get_candidates cfg tl1 hu1 end_index soc true) as [c2|] eqn:Ec2; [|done].
    rewrite bind_Ok. apply get_candidates_index in Ec2.
    destruct (fill_pass_2 (sort_by c_price c2) tl1 rem1) as [[tl2 rem2]|] eqn:E2;
      [|done].
    rewrite bind_Ok.
    apply (fill_pass_2_after end_index) with (j := j) in E2;
      [|by apply sort_by_Forall|done].
    cbn [fst] in E2.
    destruct (Qltb 0 rem2).
    + intros Ha. rewrite (add_grid_other _ _ _ j _ Ha) by lia. congruence.
    + intros [= <-]. congruence.
  - rewrite bind_Ok. destruct (Qltb 0 rem1).
    + intros Ha. rewrite (add_grid_other _ _ _ j _ Ha) by lia. done.
    + by intros [= <-].
Qed.

(** ** The exceptions of a run *)

Lemma add_grid_total (tl : timeline) (i : nat) (v : Q) :
  (i < length tl)%nat → ∃ tl', add_grid tl i v = Ok tl' ∧ length tl' = length tl.
Proof.
  intros Hi. destruct (lookup_lt_is_Some_2 tl i Hi) as [x Hx].
  unfold add_grid. rewrite (getitem_lookup _ _ _ Hx), bind_Ok.
  eexists. split; [reflexivity|]. by rewrite length_insert.
Qed.

Lemma fill_pass_1_outcome (cands : list cand) :
  ∀ tl hu rem,
    Forall (λ c, (c_index c < length tl)%nat) cands →
    (∃ r, fill_pass_1 cands tl hu rem = Ok r)
    ∨ fill_pass_1 cands tl hu rem = Raise KeyError.
Proof.
  induction cands as [|c rest IH]; intros tl hu rem Hc; cbn [fill_pass_1]; [eauto|].
  destruct (Qle_bool rem 0); [eauto|]. cbv zeta.
  apply Forall_cons in Hc as [Hc Hrest].
  destruct (add_grid_total tl (c_index c) (py_min rem (c_headroom c)) Hc)
    as (tl1 & -> & Hlen).
  rewrite bind_Ok. unfold dict_add, getkey.
  destruct (hu !! c_hour c) as [old|]; [|by right].
  rewrite !bind_Ok. apply IH. by rewrite Hlen.
Qed.

Lemma fill_pass_2_total (cands : list cand) :
  ∀ tl rem,
    Forall (λ c, (c_index c < length tl)%nat) cands →
    ∃ r, fill_pass_2 cands tl rem = Ok r.
Proof.
  induction cands as [|c rest IH]; intros tl rem Hc; cbn [fill_pass_2]; [eauto|].
  destruct (Qle_bool rem 0); [eauto|]. cbv zeta.
  apply Forall_cons in Hc as [Hc Hrest].
  destruct (add_grid_total tl (c_index c) (py_min rem (c_headroom c)) Hc)
    as (tl1 & -> & Hlen).
  rewrite bind_Ok. apply IH. by rewrite Hlen.
Qed.

Lemma get_candidates_total (tl : timeline) (hu : gmap string Q) (end_index : nat)
    (soc : Q) (ignore : bool) :
  (end_index < length tl)%nat →
  ∃ cands, get_candidates cfg tl hu end_index soc ignore = Ok cands
           ∧ Forall (λ c, (c_index c < length tl)%nat) cands.
Proof.
  intros Hend. unfold get_candidates. rewrite current_profile_sim, bind_Ok.
  apply candidates_fold_total; [|constructor].
  intros i Hi. apply elem_of_seq in Hi. lia.
Qed.

Lemma safety_fill_outcome (tl : timeline) (needed soc : Q) (end_index : nat) :
  (end_index < length tl)%nat →
  (∃ tl', distribute_smart_safety_fill cfg tl needed end_index soc = Ok tl')
  ∨ distribute_smart_safety_fill cfg tl needed end_index soc = Raise KeyError.
Proof.
  intros Hend. unfold distribute_smart_safety_fill. cbv zeta.
  destruct (get_candidates_total tl (get_hourly_usage_map cfg tl) end_index soc false Hend)
    as (c1 & -> & Hc1).
  rewrite bind_Ok.
  destruct (fill_pass_1_outcome (sort_by c_price c1) tl (get_hourly_usage_map cfg tl)
              needed (sort_by_Forall _ _ _ Hc1)) as [[[[tl1 hu1] rem1] E1]| ->];
    [|by right].
  rewrite E1, bind_Ok.
  assert (Hlen1 : length tl1 = length tl).
  { apply fill_pass_1_frame in E1. symmetry. by apply Forall2_length in E1. }
  destruct (Qltb 0 rem1).
  - destruct (get_candidates_total tl1 hu1 end_index soc true) as (c2 & -> & Hc2);
      [lia|].
    rewrite bind_Ok.
    destruct (fill_pass_2_total (sort_by c_price c2) tl1 rem1 (sort_by_Forall _ _ _ Hc2))
      as [[tl2 rem2] E2].
    rewrite E2, bind_Ok.
    assert (Hlen2 : length tl2 = length tl1).
    { apply fill_pass_2_frame in E2. symmetry. by apply Forall2_length in E2. }
    destruct (Qltb 0 rem2); [|eauto].
    destruct (add_grid_total tl2 0 rem2) as (tl3 & -> & _); [lia|eauto].
  - rewrite bind_Ok. destruct (Qltb 0 rem1); [|eauto].
    destruct (add_grid_total tl1 0 rem1) as (tl3 & -> & _); [lia|eauto].
Qed.

Lemma safety_scan_outcome (tl : timeline) (soc : Q) (items : list (nat * slot)) :
  (∀ i x, (i, x) ∈ items → tl !! i = Some x) →
  (∃ r, safety_scan cfg tl soc (sim cfg soc (map grid_wh tl) tl) items = Ok r)
  ∨ safety_scan cfg tl soc (sim cfg soc (map grid_wh tl) tl) items = Raise KeyError.
Proof.
  intros Hitems. induction items as [|[i item] rest IH]; cbn [safety_scan]; [eauto|].
  assert (Hi : tl !! i = Some item) by (apply Hitems; by left).
  destruct (start_soc_charge_before soc (sim cfg soc (map grid_wh tl) tl) i)
    as (start & _ & ->).
  { rewrite sim_length by (by rewrite length_map). rewrite length_map.
    apply lookup_lt_Some in Hi. lia. }
  rewrite bind_Ok. cbv zeta.
  assert (Hrest : (∃ r, safety_scan cfg tl soc (sim cfg soc (map grid_wh tl) tl) rest = Ok r)
                  ∨ safety_scan cfg tl soc (sim cfg soc (map grid_wh tl) tl) rest
                    = Raise KeyError).
  { apply IH. intros j x Hx. apply Hitems. by right. }
  destruct (Qltb LOWMAX _); [|done].
  destruct (Qltb start THROTTLE); [|done].
  destruct (safety_fill_outcome tl (THROTTLE - start + 1) soc i) as [[tl1 ->]| ->];
    [by eapply lookup_lt_Some| |by right].
  rewrite bind_Ok. eauto.
Qed.

Lemma safety_checks_outcome (n : nat) :
  ∀ tl soc,
    (∃ tl', safety_while cfg n tl soc = Ok tl')
    ∨ safety_while cfg n tl soc = Raise KeyError.
Proof.
  induction n as [|n IH]; intros tl soc; cbn [safety_while]; [eauto|].
  rewrite current_profile_sim, bind_Ok.
  destruct (safety_scan_outcome tl soc (enumerate tl)) as [[[tl1 v] ->]| ->];
    [intros i x; apply enumerate_elem| |by right].
  rewrite bind_Ok. destruct v; cbn [negb]; [apply IH|eauto].
Qed.

Lemma fill_keep_outcome (limit_wh : Q) (cands : list nat) :
  ∀ tl hu,
    (∀ i, i ∈ cands → (i < length tl)%nat) →
    (∃ r, fill_loop_keep cfg limit_wh cands tl hu = Ok r)
    ∨ fill_loop_keep cfg limit_wh cands tl hu = Raise KeyError.
Proof.
  induction cands as [|i rest IH]; intros tl hu Hc; cbn [fill_loop_keep]; [eauto|].
  destruct (lookup_lt_is_Some_2 tl i) as [item Hitem]; [apply Hc; by left|].
  rewrite (getitem_lookup _ _ _ Hitem), bind_Ok. cbv zeta.
  assert (Hrest : ∀ j, j ∈ rest → (j < length tl)%nat).
  { intros j Hj. apply Hc. by right. }
  destruct (Qltb _ 1); [by apply IH|].
  destruct (Qltb _ 1); [by apply IH|].
  destruct (add_grid_total tl i
              (py_min (limit_wh - dict_get hu (hour item))
                      (base_net_load_wh item - (grid_wh item + BIAS))))
    as (tl1 & -> & Hlen); [by eapply lookup_lt_Some|].
  rewrite bind_Ok. unfold dict_add, getkey.
  destruct (hu !! hour item) as [old|]; [|by right].
  rewrite !bind_Ok. apply IH. intros j Hj. rewrite Hlen. by apply Hrest.
Qed.

Lemma cheap_fill_outcome (tl : timeline) (soc limit_wh : Q) :
  (∃ tl', phase_smart_fill_cheap_hours cfg tl soc limit_wh = Ok tl')
  ∨ phase_smart_fill_cheap_hours cfg tl soc limit_wh = Raise KeyError.
Proof.
  unfold phase_smart_fill_cheap_hours. cbv zeta. rewrite fill_loop_keep_eq.
  destruct (fill_keep_outcome limit_wh (cheap_candidates tl) tl
              (get_hourly_usage_map cfg tl)) as [[r ->]| ->]; [|eauto|by right].
  intros i Hi. apply cheap_candidates_elem in Hi as (x & Hx & _).
  by eapply lookup_lt_Some.
Qed.

(** X25. The safety pass and the cheap-hour fill raise nothing but
    [KeyError]: each of [phase_2_safety_checks] and
    [phase_smart_fill_cheap_hours] returns or raises [KeyError] (from adding
    to [hourly_usage[hour]] without testing for the key); no index is ever
    out of range and no [max] is taken of an empty list. *)
Theorem fills_raise_KeyError_only (tl : timeline) (soc limit_wh : Q) :
  ((∃ tl', phase_2_safety_checks cfg tl soc = Ok tl')
   ∨ phase_2_safety_checks cfg tl soc = Raise KeyError)
  ∧ ((∃ tl', phase_smart_fill_cheap_hours cfg tl soc limit_wh = Ok tl')
     ∨ phase_smart_fill_cheap_hours cfg tl soc limit_wh = Raise KeyError).
Proof.
  split; [apply safety_checks_outcome|apply cheap_fill_outcome].
Qed.
End Proofs.

(** * Witnesses and counterexamples *)

Lemma C1_profile_recurrence_witness :
  (length [0] ≤ length tl_drain)%nat ∧
  ∃ profile,
    calculate_battery_profile_from_list cfg_day 100 [0] tl_drain = Ok profile
    ∧ length profile = length [0]
    ∧ ∀ i g x, [0] !! i = Some g → tl_drain !! i = Some x →
        ∃ prev b,
          charge_before 100 profile i = Some prev
          ∧ profile !! i = Some b
          ∧ b == Qmin (BATTERY_ENERGY_WH cfg_day)
                      (prev + (g + BIAS_WH_PER_QUARTER cfg_day) - base_net_load_wh x)
          ∧ (prev + (g + BIAS_WH_PER_QUARTER cfg_day) - base_net_load_wh x < 0 → b < 0).
Proof.
  split; [simpl; lia|].
  apply (C1_profile_recurrence cfg_day 100 [0] tl_drain). simpl. lia.
Defined.

(** The simulator does return a negative charge on that timeline. *)
Example profile_negative :
  calculate_battery_profile_from_list cfg_day 100 [0] tl_drain = Ok [100 + (0 + 0 - (300 - 0))].
Proof. reflexivity. Qed.

Lemma C6_peak_shaving_feasible_witness :
  0 <= MAX_BATTERY_OUTPUT_PER_QUARTER_WH cfg_day
  ∧ length (fst (phase_1_peak_shaving cfg_day tl_day 1000)) = length tl_day.
Proof.
  assert (H : 0 <= MAX_BATTERY_OUTPUT_PER_QUARTER_WH cfg_day)
    by (unfold Qle; simpl; lia).
  split; [exact H|].
  exact (proj1 (C6_peak_shaving_feasible cfg_day tl_day 1000 H)).
Defined.

(** C6, without a bound on the starting charge, fails below the reserve:
    with 100 Wh in the battery and a reserve of 150 Wh phase 1 discharges
    nothing, the tracked charge stays at 100 Wh, below the reserve, and the
    cumulative discharge, 0, exceeds the starting charge minus the reserve,
    -50. *)
Lemma C6_counterexample_start_below_reserve :
  ¬ peak_shaving_claim cfg_day tl_day 100.
Proof.
  intros (_ & _ & H). vm_compute in H. apply H. reflexivity.
Qed.

Example phase_1_below_reserve :
  map batt_wh (fst (phase_1_peak_shaving cfg_day tl_day 100)) = [100 - 0; 100 - 0 - 0; 100 - 0 - 0 - 0].
Proof. reflexivity. Qed.

Lemma C3_active_arbitrage_raises_witness :
  tl_arb_planned !! 0%nat = Some (planned_slot 0 "00:00" "00" 10 100 0 100 500)
  ∧ tl_arb_planned !! 1%nat = Some (planned_slot 1 "00:15" "00" 200 100 0 100 500)
  ∧ arb_pair_ok cfg_day tl_arb_planned 500 0 1 = true
  ∧ 0 < arb_profit cfg_day (planned_slot 0 "00:00" "00" 10 100 0 100 500)
                           (planned_slot 1 "00:15" "00" 200 100 0 100 500)
  ∧ phase_4_active_arbitrage cfg_day tl_arb_planned 500 0 = Raise NameError.
Proof.
  split; [reflexivity|]. split; [reflexivity|]. split; [vm_compute; reflexivity|].
  split; [vm_compute; reflexivity|].
  apply (C3_active_arbitrage_raises cfg_day tl_arb_planned 500 0 0 1
           (planned_slot 0 "00:00" "00" 10 100 0 100 500)
           (planned_slot 1 "00:15" "00" 200 100 0 100 500)).
  - reflexivity.
  - reflexivity.
  - vm_compute. reflexivity.
  - vm_compute. reflexivity.
Defined.

(** The whole run on that day: phases 1 to 3 leave the plan above, phase 4
    raises. *)
Example run_raises_NameError :
  run_optimizer cfg_day (Some (tl_arb, 500, 0)) false = Raise NameError.
Proof. vm_compute. reflexivity. Qed.

Lemma C5_invalid_hour_rolled_back_witness :
  sorted_set (map hour tl_tight) = [] ++ "00"%string :: []
  ∧ foldM (intra_hour cfg_tight) (tl_tight, 1000) [] = Ok (tl_tight, 1000)
  ∧ hour_verdict cfg_tight tl_tight 1000 "00" = Ok (Some false)
  ∧ phase_optimize_within_hours cfg_tight tl_tight 1000 = Ok tl_tight
  ∧ (∀ i x, tl_tight !! i = Some x → hour x = "00"%string → tl_tight !! i = Some x)
  ∧ ∃ soc',
      intra_hour cfg_tight (tl_tight, 1000) "00" = Ok (tl_tight, soc')
      ∧ foldM (track_slot cfg_tight tl_tight) 1000 (hour_indices tl_tight "00") = Ok soc'
      ∧ soc' == 1000 - hour_discharge cfg_tight tl_tight "00".
Proof.
  assert (H1 : sorted_set (map hour tl_tight) = [] ++ "00"%string :: [])
    by (vm_compute; reflexivity).
  assert (H2 : foldM (intra_hour cfg_tight) (tl_tight, 1000) [] = Ok (tl_tight, 1000))
    by reflexivity.
  assert (H3 : hour_verdict cfg_tight tl_tight 1000 "00" = Ok (Some false))
    by (vm_compute; reflexivity).
  assert (H4 : phase_optimize_within_hours cfg_tight tl_tight 1000 = Ok tl_tight)
    by (vm_compute; reflexivity).
  split; [exact H1|]. split; [exact H2|]. split; [exact H3|]. split; [exact H4|].
  exact (C5_invalid_hour_rolled_back cfg_tight tl_tight tl_tight tl_tight
           1000 1000 [] [] "00" H1 H2 H3 H4).
Defined.

Lemma tl_day_well_indexed : well_indexed tl_day.
Proof. intros [|[|[|i]]] x H; simpl in H; by simplify_eq. Defined.

Lemma tl_shift_well_indexed : well_indexed tl_shift.
Proof. intros [|[|[|i]]] x H; simpl in H; by simplify_eq. Defined.

(** On [tl_shift] the reallocation of hour 00 is run and accepted: the
    400 Wh of import, 300 Wh of them in the dear first quarter, come back
    as 100 Wh in the first and 300 Wh in the cheap second quarter.  Hour 01
    imports nothing and is passed over. *)
Lemma C4_hour_import_kept_within_room_witness :
  well_indexed tl_shift
  ∧ hour_verdict cfg_day tl_shift 500 "00" = Ok (Some true)
  ∧ hour_verdict cfg_day tl_shift 500 "01" = Ok None
  ∧ phase_optimize_within_hours cfg_day tl_shift 500 = Ok tl_shifted
  ∧ tl_shifted ≠ tl_shift
  ∧ ∃ tl',
      phase_optimize_within_hours cfg_day tl_shift 500 = Ok tl'
      ∧ same_but_grid tl_shift tl'
      ∧ ∀ h, hour_import cfg_day tl' h <= hour_import cfg_day tl_shift h
             ∧ (0 <= MAX_BATTERY_OUTPUT_PER_QUARTER_WH cfg_day →
                hour_import cfg_day tl_shift h <= hour_room cfg_day tl_shift h →
                hour_import cfg_day tl' h == hour_import cfg_day tl_shift h).
Proof.
  split; [exact tl_shift_well_indexed|].
  split; [vm_compute; reflexivity|].
  split; [vm_compute; reflexivity|].
  split; [vm_compute; reflexivity|].
  split; [discriminate|].
  exact (C4_hour_import_kept_within_room cfg_day tl_shift 500 tl_shift_well_indexed).
Defined.

(** C4, for every timeline, fails when an hour imports more than its slots
    can take: the single quarter imports 2000 Wh against a load of 100 Wh
    and a rate limit of 1000 Wh; the reallocation gives it its load and the
    rate limit, 1100 Wh, the assignment passes the validation, and 900 Wh of
    the hour's import are gone. *)
Lemma C4_counterexample_import_dropped :
  ¬ hour_import_preserved cfg_day tl_over 500.
Proof.
  intros H.
  specialize (H [ planned_slot 0 "00:00" "00" 10 100 0 1100 1000 ]).
  assert (Hrun : phase_optimize_within_hours cfg_day tl_over 500
                 = Ok [ planned_slot 0 "00:00" "00" 10 100 0 1100 1000 ]).
  { vm_compute. reflexivity. }
  specialize (H Hrun "00"%string). vm_compute in H. discriminate H.
Qed.

(** C7, with a strict gain, fails when the spread equals the cycling cost:
    the swap pass accepts the pair of quarters priced 50 and 55 with a
    cycling cost of 5, and the projected gain of that swap is 0. *)
Lemma C7_counterexample_zero_gain :
  ¬ swaps_strictly_profitable cfg_day tl_even 900 1000.
Proof.
  intros H.
  assert (Hrun : ∃ tl', phase_3_swaps cfg_day tl_even 900 1000
                        = Ok (tl', [(tl_even, (0, 1))%nat])).
  { eexists. vm_compute. reflexivity. }
  destruct Hrun as [tl' Hrun].
  specialize (H _ _ Hrun). apply Forall_inv in H.
  vm_compute in H. discriminate H.
Qed.


(** The usage dict the first run leaves on [tl_export] books 1000 Wh on
    hour 00, of which the plan it returns imports 900 Wh: the 500 Wh taken
    raised the exporting quarter from -100 Wh to 400 Wh, and the usage
    computed from a plan counts positive imports only. *)
Example export_usage_differs :
  (∃ tl1 hu1,
     fill_loop cfg_day 1000 1000 (cheap_candidates tl_export) tl_export
       (get_hourly_usage_map cfg_day tl_export) = Ok (tl1, hu1)
     ∧ dict_get hu1 "00" == 1000
     ∧ dict_get (get_hourly_usage_map cfg_day tl1) "00" == 900).
Proof.
  eexists _, _. split; [vm_compute; reflexivity|].
  split; vm_compute; reflexivity.
Qed.


(** C2. A run on [tl_day] with the settings [cfg_day], starting from a full
    battery of 1000 Wh with a reserve of 150 Wh.  The replay of the
    simulator stored in the snapshots stays at or above the reserve through
    phases 1, 2, 2.9 and 2.5 and ends at 150 Wh; the swap pass then moves
    50 Wh of import from the last quarter to the one before, where the
    battery is clamped at capacity, and the replay of the final plan ends at
    110 Wh, below the reserve. *)
Theorem C2_reserve_breached_by_swap_pass :
  MIN_BATTERY_BUFFER_WH cfg_day <= 1000
  ∧ (∃ history ran,
       run_optimizer cfg_day (Some (tl_day, 1000, 0)) true
       = Ok (Returned_history history, ran)
       ∧ map (λ s, map (λ x, Qred (batt_wh x)) (snap_timeline s)) history
         = [ [1000; 1000; 1000];
             [1000; 990; 150];
             [1000; 990; 150];
             [1000; 990; 150];
             [1000; 990; 150];
             [1000; 1000; 110];
             [1000; 1000; 110] ])
  ∧ (∃ tl_out ran prof,
       run_optimizer cfg_day (Some (tl_day, 1000, 0)) false
       = Ok (Returned_timeline tl_out, ran)
       ∧ ran = [ "phase_1_peak_shaving"; "phase_2_safety_checks";
                 "phase_smart_fill_cheap_hours"; "phase_optimize_within_hours";
                 "phase_3_price_optimization"; "phase_4_active_arbitrage" ]%string
       ∧ map (λ x, Qred (grid_wh x)) tl_out = [0; 150; 50]
       ∧ current_profile cfg_day tl_out 1000 = Ok prof
       ∧ map Qred prof = [1000; 1000; 110]
       ∧ Exists (λ b, b < MIN_BATTERY_BUFFER_WH cfg_day) prof).
Proof.
  split; [unfold Qle; simpl; lia|]. split.
  - eexists _, _. split; [vm_compute; reflexivity|]. vm_compute. reflexivity.
  - eexists _, _, _. split; [vm_compute; reflexivity|].
    split; [reflexivity|]. split; [vm_compute; reflexivity|].
    split; [vm_compute; reflexivity|]. split; [vm_compute; reflexivity|].
    do 2 apply Exists_cons_tl. apply Exists_cons_hd.
    unfold Qlt. simpl. lia.
Qed.

(** * Witnesses of the further properties *)

Lemma rate_day : 0 <= MAX_BATTERY_OUTPUT_PER_QUARTER_WH cfg_day.
Proof. unfold Qle. simpl. lia. Defined.

Lemma profile_raises_on_extra_commands_witness :
  (length tl_drain < length [0; 0])%nat
  ∧ calculate_battery_profile_from_list cfg_day 100 [0; 0] tl_drain = Raise IndexError.
Proof.
  assert (H : (length tl_drain < length [0; 0])%nat) by (simpl; lia).
  split; [exact H|].
  exact (profile_raises_on_extra_commands cfg_day 100 [0; 0] tl_drain H).
Defined.

Lemma profile_monotone_witness :
  (length [0] ≤ length tl_drain)%nat
  ∧ 100 <= 200
  ∧ Forall2 Qle [0] [50]
  ∧ ∃ profile profile',
      calculate_battery_profile_from_list cfg_day 100 [0] tl_drain = Ok profile
      ∧ calculate_battery_profile_from_list cfg_day 200 [50] tl_drain = Ok profile'
      ∧ Forall2 Qle profile profile'.
Proof.
  assert (H1 : (length [0] ≤ length tl_drain)%nat) by (simpl; lia).
  assert (H2 : 100 <= 200) by (unfold Qle; simpl; lia).
  assert (H3 : Forall2 Qle [0] [50]).
  { constructor; [unfold Qle; simpl; lia|constructor]. }
  split; [exact H1|]. split; [exact H2|]. split; [exact H3|].
  exact (profile_monotone cfg_day 100 200 [0] [50] tl_drain H1 H2 H3).
Defined.

Lemma safety_fill_adds_needed_witness :
  0 <= 50
  ∧ 0 <= MAX_BATTERY_OUTPUT_PER_QUARTER_WH cfg_day
  ∧ distribute_smart_safety_fill cfg_day tl_even 50 1 900 = Ok tl_even_filled
  ∧ import_raised tl_even tl_even_filled
  ∧ Qsum (map grid_wh tl_even_filled) == Qsum (map grid_wh tl_even) + 50.
Proof.
  assert (H1 : 0 <= 50) by (unfold Qle; simpl; lia).
  assert (H3 : distribute_smart_safety_fill cfg_day tl_even 50 1 900 = Ok tl_even_filled)
    by (vm_compute; reflexivity).
  split; [exact H1|]. split; [exact rate_day|]. split; [exact H3|].
  exact (safety_fill_adds_needed cfg_day tl_even tl_even_filled 50 900 1 H1 rate_day H3).
Defined.

Lemma safety_checks_only_raise_import_witness :
  0 <= MAX_BATTERY_OUTPUT_PER_QUARTER_WH cfg_day
  ∧ phase_2_safety_checks cfg_day tl_throttle 1000 = Ok tl_throttle_safe
  ∧ import_raised tl_throttle tl_throttle_safe.
Proof.
  assert (H : phase_2_safety_checks cfg_day tl_throttle 1000 = Ok tl_throttle_safe)
    by (vm_compute; reflexivity).
  split; [exact rate_day|]. split; [exact H|].
  exact (proj1 (safety_checks_only_raise_import cfg_day tl_throttle tl_throttle_safe
                  1000 rate_day H)).
Defined.

Lemma tl_arb_planned_safe : ∀ i, ¬ throttle_violation cfg_day tl_arb_planned 500 i.
Proof.
  intros i (x & start & Hx & _ & Hd & _).
  destruct i as [|[|i]]; simpl in Hx; [| |done];
    injection Hx as <-; vm_compute in Hd; discriminate.
Defined.

Lemma safety_checks_keep_safe_plan_witness :
  (∀ i, ¬ throttle_violation cfg_day tl_arb_planned 500 i)
  ∧ phase_2_safety_checks cfg_day tl_arb_planned 500 = Ok tl_arb_planned.
Proof.
  split; [exact tl_arb_planned_safe|].
  exact (safety_checks_keep_safe_plan cfg_day tl_arb_planned 500 tl_arb_planned_safe).
Defined.

Lemma safety_fill_raises_without_import_witness :
  0 < 51
  ∧ Forall (λ x, grid_wh x + BIAS_WH_PER_QUARTER cfg_day <= 0) tl_drain
  ∧ sim cfg_day 100 (map grid_wh tl_drain) tl_drain !! 0%nat
    = Some (100 + (0 + 0 - (300 - 0)))
  ∧ 100 + (0 + 0 - (300 - 0)) < BATTERY_ENERGY_WH cfg_day - 1
  ∧ 1 < PREVIOUS_PEAK_WH cfg_day
  ∧ distribute_smart_safety_fill cfg_day tl_drain 51 0 100 = Raise KeyError.
Proof.
  assert (H1 : 0 < 51) by (unfold Qlt; simpl; lia).
  assert (H2 : Forall (λ x, grid_wh x + BIAS_WH_PER_QUARTER cfg_day <= 0) tl_drain).
  { constructor; [unfold Qle; simpl; lia|constructor]. }
  assert (H3 : sim cfg_day 100 (map grid_wh tl_drain) tl_drain !! 0%nat
               = Some (100 + (0 + 0 - (300 - 0)))) by reflexivity.
  assert (H4 : 100 + (0 + 0 - (300 - 0)) < BATTERY_ENERGY_WH cfg_day - 1)
    by (unfold Qlt; simpl; lia).
  assert (H5 : 1 < PREVIOUS_PEAK_WH cfg_day) by (unfold Qlt; simpl; lia).
  split; [exact H1|]. split; [exact H2|]. split; [exact H3|]. split; [exact H4|].
  split; [exact H5|].
  exact (safety_fill_raises_without_import cfg_day tl_drain 51 100
           (100 + (0 + 0 - (300 - 0))) 0 H1 H2 H3 H4 H5).
Defined.

Lemma cheap_fill_only_adds_witness :
  phase_smart_fill_cheap_hours cfg_day tl_fill 1000 4000 = Ok tl_fill_filled
  ∧ import_raised_to_load cfg_day tl_fill tl_fill_filled.
Proof.
  assert (H : phase_smart_fill_cheap_hours cfg_day tl_fill 1000 4000 = Ok tl_fill_filled)
    by (vm_compute; reflexivity).
  split; [exact H|].
  exact (proj1 (cheap_fill_only_adds cfg_day tl_fill tl_fill_filled 1000 4000 H)).
Defined.

Lemma cheap_fill_raises_without_import_witness :
  Forall (λ x, grid_wh x + BIAS_WH_PER_QUARTER cfg_day <= 0) tl_arb
  ∧ 1 <= 4000
  ∧ tl_arb !! 0%nat = Some (day_slot 0 "00:00" "00" 10 100 0)
  ∧ price (day_slot 0 "00:00" "00" 10 100 0) < average_price tl_arb
  ∧ 1 <= base_net_load_wh (day_slot 0 "00:00" "00" 10 100 0)
         - (grid_wh (day_slot 0 "00:00" "00" 10 100 0) + BIAS_WH_PER_QUARTER cfg_day)
  ∧ phase_smart_fill_cheap_hours cfg_day tl_arb 500 4000 = Raise KeyError.
Proof.
  assert (H1 : Forall (λ x, grid_wh x + BIAS_WH_PER_QUARTER cfg_day <= 0) tl_arb).
  { repeat constructor; unfold Qle; simpl; lia. }
  assert (H2 : 1 <= 4000) by (unfold Qle; simpl; lia).
  assert (H3 : tl_arb !! 0%nat = Some (day_slot 0 "00:00" "00" 10 100 0)) by reflexivity.
  assert (H4 : price (day_slot 0 "00:00" "00" 10 100 0) < average_price tl_arb)
    by (vm_compute; reflexivity).
  assert (H5 : 1 <= base_net_load_wh (day_slot 0 "00:00" "00" 10 100 0)
                    - (grid_wh (day_slot 0 "00:00" "00" 10 100 0)
                       + BIAS_WH_PER_QUARTER cfg_day))
    by (unfold Qle; simpl; lia).
  split; [exact H1|]. split; [exact H2|]. split; [exact H3|]. split; [exact H4|].
  split; [exact H5|].
  exact (cheap_fill_raises_without_import cfg_day tl_arb 500 4000 0
           (day_slot 0 "00:00" "00" 10 100 0) H1 H2 H3 H4 H5).
Defined.

Lemma peak_shaving_tracks_the_replay_witness :
  0 <= MAX_BATTERY_OUTPUT_PER_QUARTER_WH cfg_day
  ∧ 1000 <= BATTERY_ENERGY_WH cfg_day
  ∧ same_inputs tl_day (fst (phase_1_peak_shaving cfg_day tl_day 1000)).
Proof.
  assert (H : 1000 <= BATTERY_ENERGY_WH cfg_day) by (unfold Qle; simpl; lia).
  split; [exact rate_day|]. split; [exact H|].
  exact (proj1 (peak_shaving_tracks_the_replay cfg_day tl_day 1000 rate_day H)).
Defined.

Lemma reserve_kept_up_to_the_fill_witness :
  0 <= MAX_BATTERY_OUTPUT_PER_QUARTER_WH cfg_day
  ∧ MIN_BATTERY_BUFFER_WH cfg_day <= 1000
  ∧ 1000 <= BATTERY_ENERGY_WH cfg_day
  ∧ phase_2_safety_checks cfg_day (fst (phase_1_peak_shaving cfg_day tl_day 1000)) 1000
    = Ok tl_day_safe
  ∧ phase_smart_fill_cheap_hours cfg_day tl_day_safe 1000 4000 = Ok tl_day_filled
  ∧ ∃ prof, current_profile cfg_day tl_day_filled 1000 = Ok prof
            ∧ Forall (λ b, MIN_BATTERY_BUFFER_WH cfg_day <= b) prof.
Proof.
  assert (H1 : MIN_BATTERY_BUFFER_WH cfg_day <= 1000) by (unfold Qle; simpl; lia).
  assert (H2 : 1000 <= BATTERY_ENERGY_WH cfg_day) by (unfold Qle; simpl; lia).
  assert (H3 : phase_2_safety_checks cfg_day
                 (fst (phase_1_peak_shaving cfg_day tl_day 1000)) 1000
               = Ok tl_day_safe) by (vm_compute; reflexivity).
  assert (H4 : phase_smart_fill_cheap_hours cfg_day tl_day_safe 1000 4000
               = Ok tl_day_filled) by (vm_compute; reflexivity).
  split; [exact rate_day|]. split; [exact H1|]. split; [exact H2|].
  split; [exact H3|]. split; [exact H4|].
  exact (reserve_kept_up_to_the_fill cfg_day tl_day tl_day_safe tl_day_filled 1000 4000
           rate_day H1 H2 H3 H4).
Defined.

Lemma run_returns_replayed_plan_witness :
  run_optimizer cfg_day (Some (tl_day, 1000, 50)) false
  = Ok (Returned_timeline plan_day, all_phases)
  ∧ same_inputs tl_day plan_day
  ∧ current_profile cfg_day plan_day 1000 = Ok (map batt_wh plan_day).
Proof.
  assert (H : run_optimizer cfg_day (Some (tl_day, 1000, 50)) false
              = Ok (Returned_timeline plan_day, all_phases)) by (vm_compute; reflexivity).
  split; [exact H|].
  exact (run_returns_replayed_plan cfg_day tl_day plan_day 1000 50 all_phases H).
Defined.

Lemma tl_day_nonempty : tl_day ≠ [].
Proof. discriminate. Defined.

Lemma run_history_snapshots_witness :
  tl_day ≠ []
  ∧ run_optimizer cfg_day (Some (tl_day, 1000, 50)) true
    = Ok (Returned_history history_day, all_phases)
  ∧ length history_day = 7%nat
  ∧ Forall (snapshot_ok cfg_day tl_day 1000) history_day.
Proof.
  assert (H : run_optimizer cfg_day (Some (tl_day, 1000, 50)) true
              = Ok (Returned_history history_day, all_phases)) by (vm_compute; reflexivity).
  split; [exact tl_day_nonempty|]. split; [exact H|].
  pose proof (run_history_snapshots cfg_day tl_day 1000 50 history_day all_phases
                tl_day_nonempty H) as (H1 & H2 & _).
  split; [exact H1|exact H2].
Defined.

Lemma setup_live :
  setup_timeline cfg_day ss_live int_of_digits (Some feed_night)
  = Setup_ok tl_live (1000 # 2) (3200000 # 40000).
Proof. vm_compute. reflexivity. Defined.

Lemma setup_timeline_well_formed_witness :
  setup_timeline cfg_day ss_live int_of_digits (Some feed_night)
  = Setup_ok tl_live (1000 # 2) (3200000 # 40000)
  ∧ ∃ prices,
      fetch_prices_as_quarters (Some feed_night) = Some prices
      ∧ well_indexed tl_live
      ∧ StronglySorted str_lt (map time tl_live)
      ∧ (∀ t, t ∈ map time tl_live
              ↔ is_Some (prices !! t)
                ∧ str_le (sim_start ss_live int_of_digits) t
                ∧ str_lt t (SIMULATION_END_TIME ss_live))
      ∧ Forall (λ x, prices !! time x = Some (price x) ∧ fresh_slot x) tl_live
      ∧ 1000 # 2 = start_charge cfg_day ss_live.
Proof.
  split; [exact setup_live|].
  exact (setup_timeline_well_formed cfg_day ss_live int_of_digits (Some feed_night)
           tl_live (1000 # 2) (3200000 # 40000) setup_live).
Defined.

Lemma setup_schedules_are_step_functions_witness :
  setup_timeline cfg_day ss_live int_of_digits (Some feed_night)
  = Setup_ok tl_live (1000 # 2) (3200000 # 40000)
  ∧ Forall (λ x,
              (∀ w, schedule_value (CONSUMPTION_SCHEDULE_RAW ss_live) (time x) w →
                    cons_wh x = w * HOUSE_CONSUMPTION_FUDGE_FACTOR ss_live / 4)
              ∧ (schedule_unset (CONSUMPTION_SCHEDULE_RAW ss_live) (time x) →
                 cons_wh x = 0 / 4)
              ∧ (∀ w, schedule_value (SOLAR_PRODUCTION_SCHEDULE_RAW ss_live) (time x) w →
                      solar_wh x = w / 4)
              ∧ (schedule_unset (SOLAR_PRODUCTION_SCHEDULE_RAW ss_live) (time x) →
                 solar_wh x = 0 / 4)) tl_live.
Proof.
  split; [exact setup_live|].
  exact (setup_schedules_are_step_functions cfg_day ss_live int_of_digits
           (Some feed_night) tl_live (1000 # 2) (3200000 # 40000) setup_live).
Defined.

Lemma capacity_day :
  OPTIMIZE_OVERRIDE_CURRENT_SOC_KWH ss_live = None ∨ ¬ BATTERY_ENERGY_WH cfg_day == 0.
Proof. right. discriminate. Defined.

Lemma setup_timeline_returns_witness :
  (0 < int_of_float (CHARGE_DURATION_HOURS ss_live * 4))%Z
  ∧ (OPTIMIZE_OVERRIDE_CURRENT_SOC_KWH ss_live = None ∨ ¬ BATTERY_ENERGY_WH cfg_day == 0)
  ∧ setup_timeline cfg_day ss_live int_of_digits None = Setup_none
  ∧ ∃ tl base_price,
      setup_timeline cfg_day ss_live int_of_digits (Some feed_night)
      = Setup_ok tl (start_charge cfg_day ss_live) base_price.
Proof.
  assert (H : (0 < int_of_float (CHARGE_DURATION_HOURS ss_live * 4))%Z)
    by (vm_compute; reflexivity).
  split; [exact H|]. split; [exact capacity_day|].
  exact (setup_timeline_returns cfg_day ss_live int_of_digits feed_night H capacity_day).
Defined.

Lemma setup_timeline_divides_by_zero_witness :
  int_of_float (CHARGE_DURATION_HOURS ss_short * 4) = 0%Z
  ∧ setup_timeline cfg_day ss_short int_of_digits (Some feed_night)
    = Setup_ZeroDivisionError.
Proof.
  assert (H : int_of_float (CHARGE_DURATION_HOURS ss_short * 4) = 0%Z)
    by (vm_compute; reflexivity).
  split; [exact H|].
  exact (setup_timeline_divides_by_zero cfg_day ss_short int_of_digits feed_night H).
Defined.

Lemma round_time_gives_start_of_quarter_witness :
  split_colon "00:37" = ["00"; "37"]%string
  ∧ int_of_digits "00" = Some 0%Z
  ∧ int_of_digits "37" = Some 37%Z
  ∧ ∃ q,
      round_time_down_to_quarter int_of_digits "00:37"
      = Some (fmt_02d 0 ++ ":" ++ fmt_02d q)%string
      ∧ q ∈ [0; 15; 30; 45]%Z
      ∧ ((0 ≤ 37 < 60)%Z → (q ≤ 37 < q + 15)%Z)
      ∧ ((37 < 0)%Z → q = 0%Z)
      ∧ ((60 ≤ 37)%Z → q = 45%Z).
Proof.
  assert (H1 : split_colon "00:37" = ["00"; "37"]%string) by reflexivity.
  assert (H2 : int_of_digits "00" = Some 0%Z) by reflexivity.
  assert (H3 : int_of_digits "37" = Some 37%Z) by reflexivity.
  split; [exact H1|]. split; [exact H2|]. split; [exact H3|].
  exact (round_time_gives_start_of_quarter int_of_digits "00:37" "00" "37" 0 37 H1 H2 H3).
Defined.

(** The live run of the example starts at 00:30, the quarter of 00:37. *)
Example live_run_starts_at_the_quarter :
  sim_start ss_live int_of_digits = "00:30"%string
  ∧ map time tl_live = ["00:30"; "00:45"; "01:00"; "01:15"; "01:30"; "01:45"]%string.
Proof. split; reflexivity. Qed.

Lemma safety_fill_stays_before_the_violation_witness :
  distribute_smart_safety_fill cfg_day tl_even 50 0 900 = Ok tl_even_filled_first
  ∧ (0 < 1)%nat
  ∧ tl_even_filled_first !! 1%nat = tl_even !! 1%nat.
Proof.
  assert (H1 : distribute_smart_safety_fill cfg_day tl_even 50 0 900
               = Ok tl_even_filled_first) by (vm_compute; reflexivity).
  assert (H2 : (0 < 1)%nat) by lia.
  split; [exact H1|]. split; [exact H2|].
  exact (safety_fill_stays_before_the_violation cfg_day tl_even tl_even_filled_first
           50 900 0 1 H1 H2).
Defined.

(** On [tl_even] the swap pass accepts one swap and lowers the cost. *)
Lemma swap_pass_lowers_the_cost_witness :
  ∃ tl' entry,
    phase_3_swaps cfg_day tl_even 1000 1000 = Ok (tl', [entry])
    ∧ plan_cost cfg_day tl' < plan_cost cfg_day tl_even.
Proof.
  destruct (swap_pass_lowers_the_cost cfg_day tl_even 1000 1000)
    as (tl' & log & Hrun & _ & _ & Hlt).
  assert (Hlen : length log = 1%nat).
  { assert (E : (λ r, match r with Ok (_, l) => length l | Raise _ => 0%nat end)
                  (phase_3_swaps cfg_day tl_even 1000 1000) = 1%nat)
      by (vm_compute; reflexivity).
    by rewrite Hrun in E. }
  destruct log as [|entry [|? ?]]; try done.
  exists tl', entry. split; [done|]. by apply Hlt.
Defined.

(** ** The cheap-hour fill in binary64 *)

(** On [tl_round], where no slot exports, a run of the fill with a limit of
    1000 Wh raises the first quarter to its load and books
    [(0.3 + 0.3) + 998.4000000000001 = 999.0000000000001] Wh on hour 00,
    which leaves less than 1 Wh below the limit: the second quarter is
    passed over.  The usage computed from the returned plan is
    [998.7 + 0.3 = 999.0] Wh, which leaves 1 Wh: a second run raises the
    second quarter from 0.3 Wh to 1.3 Wh. *)
Example binary64_second_run_raises :
  Binary64.fill_loop Binary64.bias_round Binary64.capacity_round
    Binary64.soc_round Binary64.limit_round
    (Binary64.cheap_candidates Binary64.tl_round) Binary64.tl_round
    (Binary64.get_hourly_usage_map Binary64.bias_round Binary64.tl_round)
  = Ok (Binary64.tl_round_once, {[ "00"%string := Binary64.usage_booked ]})
  ∧ Binary64.get_hourly_usage_map Binary64.bias_round Binary64.tl_round_once
    = {[ "00"%string := Binary64.usage_recomputed ]}
  ∧ PrimFloat.ltb Binary64.usage_recomputed Binary64.usage_booked = true
  ∧ Binary64.phase_smart_fill_cheap_hours Binary64.bias_round
      Binary64.capacity_round Binary64.tl_round
      Binary64.soc_round Binary64.limit_round
    = Ok Binary64.tl_round_once
  ∧ Binary64.phase_smart_fill_cheap_hours Binary64.bias_round
      Binary64.capacity_round Binary64.tl_round_once
      Binary64.soc_round Binary64.limit_round
    = Ok Binary64.tl_round_twice
  ∧ Binary64.tl_round_twice ≠ Binary64.tl_round_once.
Proof.
  repeat split; try (vm_compute; reflexivity).
  intros H.
  apply (f_equal (λ l, match l !! 1%nat, Binary64.tl_round_twice !! 1%nat with
                       | Some x, Some y =>
                           PrimFloat.eqb (Binary64.grid_wh x) (Binary64.grid_wh y)
                       | _, _ => false
                       end)) in H.
  vm_compute in H. discriminate H.
Qed.
